(** * Graph rewrite passes of [onnx_coreml/_transformers.py]

    A shallow embedding of the pass-based rewrite engine: the generic
    chain-matching driver [NodesFuser], its fusion rules, and the auxiliary
    passes (constant-reshape folding, dangling-output elimination, output
    renaming).  Python objects live in a heap indexed by object identity, so
    that the in-place mutation of nodes shared between the [parents] and
    [children] lists of other nodes is visible to every holder of the
    reference.  A raised Python exception is a [Raise] result. *)

From Stdlib Require Import ZArith DecimalString.
From Stdlib Require DecimalNat.
From stdpp Require Import base option list gmap strings.



(** ** Exceptions and fallible computations *)

Inductive exn :=
  | KeyError | IndexError | TypeError | ValueError
  | AssertionError | NotImplementedError.

Inductive result (A : Type) :=
  | Ok (a : A)
  | Raise (e : exn).
Arguments Ok {A} a.
Arguments Raise {A} e.

Global Instance result_ret : MRet result := @Ok.
Global Instance result_bind : MBind result := λ A B f r,
  match r with Ok a => f a | Raise e => Raise e end.

(** [l[i]] on a Python list and [d[k]] on a Python dict. *)
Definition index {A} (l : list A) (i : nat) : result A :=
  match l !! i with Some x => Ok x | None => Raise IndexError end.

Definition getitem {V} (d : gmap string V) (k : string) : result V :=
  match d !! k with Some v => Ok v | None => Raise KeyError end.

(** [l.remove(x)]: drops the first occurrence, [ValueError] when absent. *)
Fixpoint list_remove `{EqDecision A} (x : A) (l : list A) : result (list A) :=
  match l with
  | [] => Raise ValueError
  | y :: l' => if decide (x = y) then Ok l'
               else l'' ← list_remove x l'; Ok (y :: l'')
  end.

(** [l[-1]] on a Python list. *)
Definition index_last {A} (l : list A) : result A :=
  match last l with Some x => Ok x | None => Raise IndexError end.

(** ** Data model *)

(** Attribute values read by the passes: integers ([axis], [broadcast]),
    integer lists ([shape], [perm], [kernel_shape], ...) and strings.  The
    float-valued attributes of a node (the epsilon of a BatchNormalization,
    the ratio of a Dropout) are never read by a pass and are left out. *)
Inductive attr_value :=
  | AInt (z : Z)
  | AInts (l : list Z)
  | AStr (s : string).

Global Instance attr_value_eq_dec : EqDecision attr_value.
Proof. solve_decision. Defined.

(** A numpy array: its shape and its elements in row-major order.  The
    element type stands for float32 and is kept abstract. *)
Record tensor (R : Type) := mkTensor {
  t_shape : list nat;
  t_data : list R
}.
Arguments mkTensor {R} _ _.
Arguments t_shape {R} _.
Arguments t_data {R} _.

Class ElemOps (R : Type) := {
  e_zero : R;
  e_add : R → R → R;
  e_mul : R → R → R
}.

(** Object identity of a node. *)
Definition node_id := nat.

(** Modelled from the spec: the class [Node] of [_graph.py], which is not
    among the sources; section 3 gives its fields: identity ([name]),
    operator kind, attribute mapping, ordered input and output edge names,
    literal tensors by edge name, and the [parents]/[children]
    back-references. *)
Record Node (R : Type) := mkNode {
  name : string;
  op_type : string;
  attrs : gmap string attr_value;
  inputs : list string;
  outputs : list string;
  input_tensors : gmap string (tensor R);
  parents : list node_id;
  children : list node_id
}.
Arguments mkNode {R} _ _ _ _ _ _ _ _.
Arguments name {R} _.
Arguments op_type {R} _.
Arguments attrs {R} _.
Arguments inputs {R} _.
Arguments outputs {R} _.
Arguments input_tensors {R} _.
Arguments parents {R} _.
Arguments children {R} _.

(** Modelled from the spec: the class [Graph] of [_graph.py]: an ordered
    sequence of nodes plus the declared graph inputs and outputs, each an
    edge name with a shape.  Its constructor stores its three arguments. *)
Record Graph := mkGraph {
  nodes : list node_id;
  g_inputs : list (string * list Z);
  g_outputs : list (string * list Z)
}.

Section Heap.
Context {R : Type}.

(** Modelled from the spec: [Node(name, op_type, attrs, inputs, outputs)]
    of [_graph.py] creates a node without literal tensors and without
    neighbours. *)
Definition Node_new (nm op : string) (ats : gmap string attr_value)
    (ins outs : list string) : Node R :=
  mkNode nm op ats ins outs ∅ [] [].

Definition set_attrs (v : gmap string attr_value) (n : Node R) : Node R :=
  mkNode (name n) (op_type n) v (inputs n) (outputs n)
         (input_tensors n) (parents n) (children n).
Definition set_inputs (v : list string) (n : Node R) : Node R :=
  mkNode (name n) (op_type n) (attrs n) v (outputs n)
         (input_tensors n) (parents n) (children n).
Definition set_outputs (v : list string) (n : Node R) : Node R :=
  mkNode (name n) (op_type n) (attrs n) (inputs n) v
         (input_tensors n) (parents n) (children n).
Definition set_input_tensors (v : gmap string (tensor R)) (n : Node R)
    : Node R :=
  mkNode (name n) (op_type n) (attrs n) (inputs n) (outputs n)
         v (parents n) (children n).
Definition set_parents (v : list node_id) (n : Node R) : Node R :=
  mkNode (name n) (op_type n) (attrs n) (inputs n) (outputs n)
         (input_tensors n) v (children n).
Definition set_children (v : list node_id) (n : Node R) : Node R :=
  mkNode (name n) (op_type n) (attrs n) (inputs n) (outputs n)
         (input_tensors n) (parents n) v.

(** The heap of node objects.  A reference always points to a live
    object; reading an identity the heap does not hold yields the empty
    node, and writing one creates it. *)
Definition deref (σ : gmap node_id (Node R)) (n : node_id) : Node R :=
  default (Node_new "" "" ∅ [] []) (σ !! n).

Definition update (n : node_id) (f : Node R → Node R)
    (σ : gmap node_id (Node R)) : gmap node_id (Node R) :=
  <[n := f (deref σ n)]> σ.

(** A new object gets an identity no live object has. *)
Definition alloc (v : Node R) (σ : gmap node_id (Node R))
    : node_id * gmap node_id (Node R) :=
  let n := fresh (dom σ) in (n, <[n := v]> σ).

(** Modelled from the spec: [Node.get_only_parent] of [_graph.py]: the
    parent of a node with exactly one parent, an error otherwise. *)
Definition get_only_parent (σ : gmap node_id (Node R)) (n : node_id)
    : result node_id :=
  match parents (deref σ n) with
  | [p] => Ok p
  | _ => Raise ValueError
  end.

(** Modelled from the spec: [Node.add_child] and [Node.add_parent] of
    [_graph.py] link two nodes in both directions (section 3: B is a child
    of A iff A is a parent of B); linking an existing neighbour again is an
    assertion failure. *)
Definition add_child (n c : node_id) (σ : gmap node_id (Node R))
    : result (gmap node_id (Node R)) :=
  if decide (c ∈ children (deref σ n)) then Raise AssertionError
  else
    let σ1 := update n (λ x, set_children (children x ++ [c]) x) σ in
    Ok (if decide (n ∈ parents (deref σ1 c)) then σ1
        else update c (λ x, set_parents (parents x ++ [n]) x) σ1).

Definition add_parent (n p : node_id) (σ : gmap node_id (Node R))
    : result (gmap node_id (Node R)) :=
  if decide (p ∈ parents (deref σ n)) then Raise AssertionError
  else
    let σ1 := update n (λ x, set_parents (parents x ++ [p]) x) σ in
    Ok (if decide (n ∈ children (deref σ1 p)) then σ1
        else update p (λ x, set_children (children x ++ [n]) x) σ1).
End Heap.

(** ** The chain-matching engine, [NodesFuser] *)

Module NodesFuser.
Section Matching.
Context {R : Type}.
Implicit Types (σ : gmap node_id (Node R)) (n p : node_id).

(** The loop [for _ in range(self.num_nodes - 1)] of [__call__]: walks
    upward from [n] while the current node has one parent and that parent
    one child; [w] is [nodes_window].  A [break] returns the window as it
    stands. *)
Fixpoint collect_window σ (count : nat) n (w : list node_id)
    : result (node_id * list node_id) :=
  match count with
  | 0 => Ok (n, w)
  | S count' =>
      if decide (length (parents (deref σ n)) ≠ 1) then Ok (n, w)
      else
        p ← get_only_parent σ n;
        if decide (length (children (deref σ p)) ≠ 1) then Ok (n, w)
        else collect_window σ count' p (n :: w)
  end.

(** [if len(nodes_window) > 0: ...]: add the parent of the chained
    nodes. *)
Definition extend_window σ (w : list node_id) : result (list node_id) :=
  match w with
  | [] => Ok w
  | first :: _ =>
      p ← get_only_parent σ first;
      if decide (length (children (deref σ p)) = 1) then Ok (p :: w)
      else Ok w
  end.

(** The window of the node [n] for a rule over [k] nodes; [None] is the
    [continue] taken when its length is not [k]. *)
Definition find_window σ (k : nat) n : result (option (list node_id)) :=
  '(_, w) ← collect_window σ (k - 1) n [];
  w' ← extend_window σ w;
  if decide (length w' ≠ k) then Ok None else Ok (Some w').
End Matching.
End NodesFuser.

(** ** numpy operations on literal tensors *)

Section Numpy.
Context {R : Type} `{!ElemOps R}.

(** [t.size] *)
Definition np_size (t : tensor R) : nat := foldr Nat.mul 1 (t_shape t).

(** [np.zeros((n,))] *)
Definition np_zeros (n : nat) : tensor R :=
  mkTensor [n] (replicate n e_zero).

(** Broadcasting of two shapes, both given last dimension first: the
    dimensions are aligned from the right; two dimensions agree when they
    are equal or one of them is 1. *)
Fixpoint broadcast_dims (s1 s2 : list nat) : result (list nat) :=
  match s1, s2 with
  | [], s | s, [] => Ok s
  | a :: s1', b :: s2' =>
      d ← (if decide (a = b) then Ok a
           else if decide (a = 1) then Ok b
           else if decide (b = 1) then Ok a
           else Raise ValueError);
      r ← broadcast_dims s1' s2';
      Ok (d :: r)
  end.

(** The index of the flat position [k] in an array of shape [s] (last
    dimension first), and the flat position of an index in an operand of
    shape [s] that is being broadcast: a dimension of size 1 is read at 0,
    and leading dimensions the operand lacks are ignored. *)
Fixpoint unravel (s : list nat) (k : nat) : list nat :=
  match s with
  | [] => []
  | d :: s' => (k `mod` d) :: unravel s' (k `div` d)
  end.

Fixpoint ravel (s idx : list nat) : nat :=
  match s, idx with
  | d :: s', i :: idx' =>
      (if decide (d = 1) then 0 else i) + d * ravel s' idx'
  | _, _ => 0
  end.

(** An elementwise binary operation of numpy with broadcasting
    ([a + b], [np.multiply(a, b)]). *)
Definition np_binop (f : R → R → R) (a b : tensor R) : result (tensor R) :=
  let sa := reverse (t_shape a) in
  let sb := reverse (t_shape b) in
  s ← broadcast_dims sa sb;
  Ok (mkTensor (reverse s)
        ((λ k, f (nth (ravel sa (unravel s k)) (t_data a) e_zero)
                 (nth (ravel sb (unravel s k)) (t_data b) e_zero))
         <$> seq 0 (foldr Nat.mul 1 s))).

Definition np_add : tensor R → tensor R → result (tensor R) :=
  np_binop e_add.
Definition np_multiply : tensor R → tensor R → result (tensor R) :=
  np_binop e_mul.

(** [t.reshape(shape)] for a tuple of integers: at most one dimension is
    -1 and is inferred; the sizes must agree; the elements are kept in
    place. *)
Definition np_reshape (t : tensor R) (shape : list Z) : result (tensor R) :=
  let size := Z.of_nat (np_size t) in
  if decide (Exists (λ d, d < -1)%Z shape) then Raise ValueError
  else
    let known := foldr Z.mul 1%Z (filter (λ d, d ≠ (-1)%Z) shape) in
    match length (filter (λ d, d = (-1)%Z) shape) with
    | 0 =>
        if decide (known = size)
        then Ok (mkTensor (Z.to_nat <$> shape) (t_data t))
        else Raise ValueError
    | 1 =>
        if decide (known = 0 ∨ size `mod` known ≠ 0)%Z
        then Raise ValueError
        else Ok (mkTensor
                   ((λ d, if decide (d = (-1)%Z)
                          then Z.to_nat (size `div` known)
                          else Z.to_nat d) <$> shape)
                   (t_data t))
    | _ => Raise ValueError
    end.
End Numpy.

(** ** The rewrite driver of [NodesFuser] *)

(** The state a fusion pass works on: the heap of nodes and the counter
    [num_added] of the rule object (only [PixelShuffleFuser] has one). *)
Record fstate (R : Type) := mkFstate {
  heap : gmap node_id (Node R);
  num_added : nat
}.
Arguments mkFstate {R} _ _.
Arguments heap {R} _.
Arguments num_added {R} _.

(** A fusion rule: what a subclass of [NodesFuser] provides. *)
Record Fuser (R : Type) := mkFuser {
  num_nodes : nat;
  is_eligible : gmap node_id (Node R) → Graph → list node_id → result bool;
  merge : Graph → list node_id → fstate R → result (list node_id * fstate R)
}.
Arguments mkFuser {R} _ _ _.
Arguments num_nodes {R} _.
Arguments is_eligible {R} _ _ _ _.
Arguments merge {R} _ _ _ _.

Fixpoint foldM {A S} (f : A → S → result S) (l : list A) (s : S) : result S :=
  match l with
  | [] => Ok s
  | x :: l' => s' ← f x s; foldM f l' s'
  end.

Module NodesFuserCall.
Section Driver.
Context {R : Type}.
Implicit Types (σ : gmap node_id (Node R)) (n p : node_id).

(** The methods of the abstract class. *)
Definition is_eligible_base σ (g : Graph) (w : list node_id) : result bool :=
  Raise NotImplementedError.

Definition merge_base (g : Graph) (w : list node_id) (st : fstate R)
    : result (list node_id * fstate R) :=
  first ← index w 0;
  last ← index_last w;
  let σ := heap st in
  Ok ([first],
      mkFstate (update first (set_outputs (outputs (deref σ last))) σ)
               (num_added st)).

(** [for parent in first.parents: ...]; the list iterated over is not
    changed by the body. *)
Definition rewire_parents (first m0 : node_id) σ
    : result (gmap node_id (Node R)) :=
  foldM (λ parent σ,
           cs ← list_remove first (children (deref σ parent));
           let σ := update parent (set_children cs) σ in
           if decide (m0 ∈ children (deref σ parent)) then Ok σ
           else add_child parent m0 σ)
        (parents (deref σ first)) σ.

(** [for child in last.children: ...] *)
Definition rewire_children (last ml : node_id) σ
    : result (gmap node_id (Node R)) :=
  foldM (λ child σ,
           ps ← list_remove last (parents (deref σ child));
           let σ := update child (set_parents ps) σ in
           if decide (ml ∈ parents (deref σ child)) then Ok σ
           else add_parent child ml σ)
        (children (deref σ last)) σ.

(** The body of the first loop of [__call__] for one node; the second
    component of the state is the dict [merged_nodes]. *)
Definition visit (F : Fuser R) (g : Graph) (node : node_id)
    (s : fstate R * gmap string (list node_id))
    : result (fstate R * gmap string (list node_id)) :=
  let '(st, merged_nodes) := s in
  ow ← NodesFuser.find_window (heap st) (num_nodes F) node;
  match ow with
  | None => Ok s
  | Some nodes_window =>
      eligible ← is_eligible F (heap st) g nodes_window;
      if negb eligible then Ok s
      else
        '(merged, st) ← merge F g nodes_window st;
        first ← index nodes_window 0;
        last ← index_last nodes_window;
        m0 ← index merged 0;
        σ ← rewire_parents first m0 (heap st);
        ml ← index_last merged;
        σ ← rewire_children last ml σ;
        Ok (mkFstate σ (num_added st),
            foldl (λ d n, <[name (deref σ n) := merged]> d)
                  merged_nodes nodes_window)
  end.

(** The second loop: every replacement is emitted once, where the first
    of its members stood. *)
Definition emit σ (merged_nodes : gmap string (list node_id)) (node : node_id)
    (s : list node_id * list node_id)
    : result (list node_id * list node_id) :=
  let '(transformed_nodes, added_merged) := s in
  match merged_nodes !! name (deref σ node) with
  | Some merged =>
      m0 ← index merged 0;
      if decide (m0 ∈ added_merged) then Ok s
      else Ok (transformed_nodes ++ merged, added_merged ++ [m0])
  | None => Ok (transformed_nodes ++ [node], added_merged)
  end.

Definition call (F : Fuser R) (g : Graph) (st : fstate R)
    : result (Graph * fstate R) :=
  '(st, merged_nodes) ← foldM (visit F g) (nodes g) (st, ∅);
  '(transformed_nodes, _) ←
      foldM (emit (heap st) merged_nodes) (nodes g) ([], []);
  Ok (mkGraph transformed_nodes (g_inputs g) (g_outputs g), st).
End Driver.
End NodesFuserCall.

(** ** The fusion rules *)

(** [str(n)] for a counter. *)
Definition str (n : nat) : string := NilEmpty.string_of_uint (Nat.to_uint n).

Module ConvAddFuser.
Section Rule.
Context {R : Type} `{!ElemOps R}.
Implicit Types (σ : gmap node_id (Node R)).

Definition is_eligible σ (g : Graph) (nodes : list node_id) : result bool :=
  parent ← index nodes 0;
  child ← index nodes 1;
  if decide (op_type (deref σ parent) ≠ "Conv") then Ok false
  else if decide (op_type (deref σ child) ≠ "Add") then Ok false
  else if decide (attrs (deref σ child) !! "broadcast" = None) then Ok false
  else if decide (attrs (deref σ child) !! "axis" = None) then Ok false
  else
    broadcast ← getitem (attrs (deref σ child)) "broadcast";
    if decide (broadcast ≠ AInt 1) then Ok false
    else
      axis ← getitem (attrs (deref σ child)) "axis";
      if decide (axis ≠ AInt 1) then Ok false
      else Ok true.

(** The two branches of [if len(parent.inputs) > 2]: the name of the bias
    input, the bias read or created, and the heap. *)
Definition bias_of (parent : node_id) (output_channels : nat) σ
    : result (string * tensor R * gmap node_id (Node R)) :=
  if decide (2 < length (inputs (deref σ parent))) then
    bias_input_name ← index (inputs (deref σ parent)) 2;
    bias ← getitem (input_tensors (deref σ parent)) bias_input_name;
    Ok (bias_input_name, bias, σ)
  else
    let bias_input_name := name (deref σ parent) +:+ "_bias" in
    let σ := update parent
               (λ x, set_inputs (inputs x ++ [bias_input_name]) x) σ in
    let bias := np_zeros output_channels in
    let σ := update parent
               (λ x, set_input_tensors
                       (<[bias_input_name := bias]> (input_tensors x)) x)
               σ in
    Ok (bias_input_name, bias, σ).

Definition merge (g : Graph) (nodes : list node_id) σ
    : result (list node_id * gmap node_id (Node R)) :=
  parent ← index nodes 0;
  child ← index nodes 1;
  weight_name ← index (inputs (deref σ parent)) 1;
  weight ← getitem (input_tensors (deref σ parent)) weight_name;
  output_channels ← index (t_shape weight) 0;
  '(bias_input_name, bias, σ) ← bias_of parent output_channels σ;
  operand_name ← index (inputs (deref σ child)) 1;
  operand ← getitem (input_tensors (deref σ child)) operand_name;
  bias ← np_add bias operand;
  let σ := update parent
             (λ x, set_input_tensors
                     (<[bias_input_name := bias]> (input_tensors x)) x) σ in
  let σ := update parent (set_outputs (outputs (deref σ child))) σ in
  cs ← list_remove child (children (deref σ parent));
  let σ := update parent (set_children cs) σ in
  ps ← list_remove parent (parents (deref σ child));
  let σ := update child (set_parents ps) σ in
  Ok ([parent], σ).

Definition rule : Fuser R :=
  mkFuser 2 is_eligible
    (λ g nodes st,
       '(merged, σ) ← merge g nodes (heap st);
       Ok (merged, mkFstate σ (num_added st))).
End Rule.
End ConvAddFuser.

Module BNBroadcastedMulFuser.
Section Rule.
Context {R : Type} `{!ElemOps R}.
Implicit Types (σ : gmap node_id (Node R)).

Definition is_eligible σ (g : Graph) (nodes : list node_id) : result bool :=
  parent ← index nodes 0;
  child ← index nodes 1;
  if decide (op_type (deref σ parent) ≠ "BatchNormalization") then Ok false
  else if decide (op_type (deref σ child) ≠ "Mul") then Ok false
  else if decide (attrs (deref σ child) !! "broadcast" = None) then Ok false
  else
    broadcast ← getitem (attrs (deref σ child)) "broadcast";
    if decide (broadcast ≠ AInt 1) then Ok false
    else if decide (attrs (deref σ child) !! "axis" = None) then Ok false
    else
      axis ← getitem (attrs (deref σ child)) "axis";
      if decide (axis ≠ AInt 1) then Ok false
      else
        operand_name ← index (inputs (deref σ child)) 1;
        if decide (input_tensors (deref σ child) !! operand_name = None)
        then Ok false
        else Ok true.

Definition merge (g : Graph) (nodes : list node_id) σ
    : result (list node_id * gmap node_id (Node R)) :=
  parent ← index nodes 0;
  child ← index nodes 1;
  weight_name ← index (inputs (deref σ parent)) 1;
  weight ← getitem (input_tensors (deref σ parent)) weight_name;
  bias_name ← index (inputs (deref σ parent)) 2;
  bias ← getitem (input_tensors (deref σ parent)) bias_name;
  operand_name ← index (inputs (deref σ child)) 1;
  W ← getitem (input_tensors (deref σ child)) operand_name;
  new_weight ← np_multiply weight W;
  weight_name ← index (inputs (deref σ parent)) 1;
  let σ := update parent
             (λ x, set_input_tensors
                     (<[weight_name := new_weight]> (input_tensors x)) x)
             σ in
  new_bias ← np_multiply bias W;
  bias_name ← index (inputs (deref σ parent)) 2;
  let σ := update parent
             (λ x, set_input_tensors
                     (<[bias_name := new_bias]> (input_tensors x)) x) σ in
  let σ := update parent (set_outputs (outputs (deref σ child))) σ in
  cs ← list_remove child (children (deref σ parent));
  let σ := update parent (set_children cs) σ in
  ps ← list_remove parent (parents (deref σ child));
  let σ := update child (set_parents ps) σ in
  Ok ([parent], σ).

Definition rule : Fuser R :=
  mkFuser 2 is_eligible
    (λ g nodes st,
       '(merged, σ) ← merge g nodes (heap st);
       Ok (merged, mkFstate σ (num_added st))).
End Rule.
End BNBroadcastedMulFuser.

Module BNBroadcastedAddFuser.
Section Rule.
Context {R : Type} `{!ElemOps R}.
Implicit Types (σ : gmap node_id (Node R)).

Definition is_eligible σ (g : Graph) (nodes : list node_id) : result bool :=
  parent ← index nodes 0;
  child ← index nodes 1;
  if decide (op_type (deref σ parent) ≠ "BatchNormalization") then Ok false
  else if decide (op_type (deref σ child) ≠ "Add") then Ok false
  else if decide (attrs (deref σ child) !! "broadcast" = None) then Ok false
  else
    broadcast ← getitem (attrs (deref σ child)) "broadcast";
    if decide (broadcast ≠ AInt 1) then Ok false
    else if decide (attrs (deref σ child) !! "axis" = None) then Ok false
    else
      axis ← getitem (attrs (deref σ child)) "axis";
      if decide (axis ≠ AInt 1) then Ok false
      else if decide (length (inputs (deref σ child)) ≠ 2) then Ok false
      else
        operand_name ← index (inputs (deref σ child)) 1;
        if decide (input_tensors (deref σ child) !! operand_name = None)
        then Ok false
        else Ok true.

Definition merge (g : Graph) (nodes : list node_id) σ
    : result (list node_id * gmap node_id (Node R)) :=
  parent ← index nodes 0;
  child ← index nodes 1;
  bias_name ← index (inputs (deref σ parent)) 2;
  bias ← getitem (input_tensors (deref σ parent)) bias_name;
  operand_name ← index (inputs (deref σ child)) 1;
  b ← getitem (input_tensors (deref σ child)) operand_name;
  new_bias ← np_add bias b;
  bias_name ← index (inputs (deref σ parent)) 2;
  let σ := update parent
             (λ x, set_input_tensors
                     (<[bias_name := new_bias]> (input_tensors x)) x) σ in
  let σ := update parent (set_outputs (outputs (deref σ child))) σ in
  cs ← list_remove child (children (deref σ parent));
  let σ := update parent (set_children cs) σ in
  ps ← list_remove parent (parents (deref σ child));
  let σ := update child (set_parents ps) σ in
  Ok ([parent], σ).

Definition rule : Fuser R :=
  mkFuser 2 is_eligible
    (λ g nodes st,
       '(merged, σ) ← merge g nodes (heap st);
       Ok (merged, mkFstate σ (num_added st))).
End Rule.
End BNBroadcastedAddFuser.

Module DropoutRemover.
Section Rule.
Context {R : Type}.
Implicit Types (σ : gmap node_id (Node R)).

Definition is_eligible σ (g : Graph) (nodes : list node_id) : result bool :=
  child ← index nodes 1;
  Ok (bool_decide (op_type (deref σ child) = "Dropout")).

Definition merge (g : Graph) (nodes : list node_id) σ
    : result (list node_id * gmap node_id (Node R)) :=
  parent ← index nodes 0;
  child ← index nodes 1;
  cs ← list_remove child (children (deref σ parent));
  let σ := update parent (set_children cs) σ in
  ps ← list_remove parent (parents (deref σ child));
  let σ := update child (set_parents ps) σ in
  let σ := update parent (set_outputs (outputs (deref σ child))) σ in
  Ok ([parent], σ).

Definition rule : Fuser R :=
  mkFuser 2 is_eligible
    (λ g nodes st,
       '(merged, σ) ← merge g nodes (heap st);
       Ok (merged, mkFstate σ (num_added st))).
End Rule.
End DropoutRemover.

Module PixelShuffleFuser.
Section Rule.
Context {R : Type}.
Implicit Types (σ : gmap node_id (Node R)).

(** [Graph.get_unique_edge_name] belongs to [_graph.py], which is not
    among the sources: the generator of edge names is a parameter of the
    rule.  It reads the graph, whose nodes live in the heap. *)
Variable unique_edge_name : gmap node_id (Node R) → Graph → string → string.

(** Where an attribute that should be a list is an integer, [len] raises
    [TypeError].  Where it is a string, its items are characters, which are
    equal to no integer: of the tests on [shape], the one on the length or
    the first comparison sends the rule to [return False]. *)
Definition is_eligible σ (g : Graph) (nodes : list node_id) : result bool :=
  n0 ← index nodes 0;
  if decide (op_type (deref σ n0) ≠ "Reshape") then Ok false
  else
  n1 ← index nodes 1;
  if decide (op_type (deref σ n1) ≠ "Transpose") then Ok false
  else
  n2 ← index nodes 2;
  if decide (op_type (deref σ n2) ≠ "Reshape") then Ok false
  else
  shape ← getitem (attrs (deref σ n0)) "shape";
  match shape with
  | AInt _ => Raise TypeError
  | AStr _ => Ok false
  | AInts shape =>
      if decide (length shape ≠ 6) then Ok false
      else
      s0 ← index shape 0;
      s2 ← index shape 2;
      s3 ← index shape 3;
      if decide (s0 ≠ 1 ∨ s2 ≠ s3)%Z then Ok false
      else
      input_channels ← index shape 1;
      scale_factor ← index shape 2;
      input_height ← index shape 4;
      input_width ← index shape 5;
      if decide (default (AInts []) (attrs (deref σ n1) !! "perm")
                 ≠ AInts [0; 1; 4; 2; 5; 3]%Z)
      then Ok false
      else
      shape ← getitem (attrs (deref σ n2)) "shape";
      match shape with
      | AInt _ => Raise TypeError
      | AStr _ => Ok false
      | AInts shape =>
          if decide (length shape ≠ 4) then Ok false
          else
          output_channels ← index shape 1;
          output_height ← index shape 2;
          output_width ← index shape 3;
          if decide (input_channels ≠ output_channels) then Ok false
          else if decide (input_height * scale_factor ≠ output_height)%Z
          then Ok false
          else if decide (input_width * scale_factor ≠ output_width)%Z
          then Ok false
          else Ok true
      end
  end.

(** [PixelShuffleFuser.get_unique_edge_name] *)
Definition get_unique_edge_name (g : Graph) (nm : string) (st : fstate R)
    : string * fstate R :=
  let k := S (num_added st) in
  (unique_edge_name (heap st) g (nm +:+ "_" +:+ str k),
   mkFstate (heap st) k).

Definition merge (g : Graph) (nodes : list node_id) (st : fstate R)
    : result (list node_id * fstate R) :=
  reshape_1 ← index nodes 0;
  transpose_1 ← index nodes 1;
  let σ := update transpose_1 (set_children []) (heap st) in
  shape ← getitem (attrs (deref σ reshape_1)) "shape";
  shape ← match shape with
          | AInts l => Ok l
          | AInt _ => Raise TypeError
          | AStr s => if decide (String.length s < 6) then Raise IndexError
                      else Raise TypeError
          end;
  channels ← index shape 1;
  scale ← index shape 2;
  height ← index shape 4;
  width ← index shape 5;
  let σ := update reshape_1
             (λ x, set_attrs
                (<["shape" := AInts [channels; scale * scale; height; width]%Z]>
                   (attrs x)) x) σ in
  let σ := update transpose_1
             (λ x, set_attrs
                (<["perm" := AInts [0; 2; 1; 3]%Z]> (attrs x)) x) σ in
  let reshape_output_name := "pixel_shuffle_reshape" in
  let transpose_output_name := "pixel_shuffle_transpose" in
  let '(e1, st) := get_unique_edge_name g transpose_output_name
                     (mkFstate σ (num_added st)) in
  let σ := update transpose_1 (set_outputs [e1]) (heap st) in
  let '(e2, st) := get_unique_edge_name g reshape_output_name
                     (mkFstate σ (num_added st)) in
  let '(reshape_2, σ) :=
    alloc (Node_new reshape_output_name "Reshape"
             {["shape" := AInts [channels * height; scale; scale; width]%Z]}
             (outputs (deref (heap st) transpose_1)) [e2])
          (heap st) in
  σ ← add_child transpose_1 reshape_2 σ;
  let '(e3, st) := get_unique_edge_name g transpose_output_name
                     (mkFstate σ (num_added st)) in
  let '(transpose_2, σ) :=
    alloc (Node_new transpose_output_name "Transpose"
             {["perm" := AInts [0; 1; 3; 2]%Z]}
             (outputs (deref (heap st) reshape_2)) [e3])
          (heap st) in
  σ ← add_child reshape_2 transpose_2 σ;
  final_reshape ← index nodes 2;
  let σ := update final_reshape
             (set_inputs (outputs (deref σ transpose_2))) σ in
  let σ := update final_reshape (set_parents []) σ in
  σ ← add_child transpose_2 final_reshape σ;
  Ok ([reshape_1; transpose_1; reshape_2; transpose_2; final_reshape],
      mkFstate σ (num_added st)).

Definition rule : Fuser R := mkFuser 3 is_eligible merge.
End Rule.
End PixelShuffleFuser.

(** ** The auxiliary passes *)

Module ReshapeInitTensorFuser.
Section Pass.
Context {R : Type} `{!ElemOps R}.
Implicit Types (σ : gmap node_id (Node R)).

(** [tuple(node.attrs["shape"])] followed by [tensor.reshape(shape)]: an
    integer is not iterable, and the characters of a string are no
    dimensions (the empty string gives the empty tuple). *)
Definition reshape_to (t : tensor R) (shape : attr_value)
    : result (tensor R) :=
  match shape with
  | AInts l => np_reshape t l
  | AInt _ => Raise TypeError
  | AStr s => if decide (s = "") then np_reshape t [] else Raise TypeError
  end.

(** The body of the loop [for child in node.children]. *)
Definition attach (node : node_id) (output_name : string)
    (reshaped_tensor : tensor R) (child : node_id) σ
    : result (gmap node_id (Node R)) :=
  ps ← list_remove node (parents (deref σ child));
  let σ := update child (set_parents ps) σ in
  Ok (update child
        (λ x, set_input_tensors
                (<[output_name := reshaped_tensor]> (input_tensors x)) x) σ).

(** The body of the loop over the nodes; the second component of the
    state is the list [removed]. *)
Definition visit (node : node_id)
    (s : gmap node_id (Node R) * list node_id)
    : result (gmap node_id (Node R) * list node_id) :=
  let '(σ, removed) := s in
  if decide (op_type (deref σ node) ≠ "Reshape") then Ok s
  else if decide (size (input_tensors (deref σ node)) ≠ 1) then Ok s
  else
    tensor_name ← index (map_to_list (input_tensors (deref σ node))).*1 0;
    input0 ← index (inputs (deref σ node)) 0;
    if decide (tensor_name ≠ input0) then Ok s
    else if decide (length (parents (deref σ node)) ≠ 0)
    then Raise AssertionError
    else
      let removed := removed ++ [node] in
      output_name ← index (outputs (deref σ node)) 0;
      tensor ← getitem (input_tensors (deref σ node)) tensor_name;
      shape ← getitem (attrs (deref σ node)) "shape";
      reshaped_tensor ← reshape_to tensor shape;
      σ ← foldM (attach node output_name reshaped_tensor)
                (children (deref σ node)) σ;
      Ok (σ, removed).

Definition call (g : Graph) σ : result (Graph * gmap node_id (Node R)) :=
  '(σ, removed) ← foldM visit (nodes g) (σ, []);
  let transformed_nodes := filter (λ node, node ∉ removed) (nodes g) in
  Ok (mkGraph transformed_nodes (g_inputs g) (g_outputs g), σ).
End Pass.
End ReshapeInitTensorFuser.

Module DanglingOutputsRemover.
Section Pass.
Context {R : Type}.
Implicit Types (σ : gmap node_id (Node R)).

Definition graph_output_names (g : Graph) : gset string :=
  list_to_set (g_outputs g).*1.

(** The set [children_inputs] built for an output of [node]. *)
Definition children_inputs σ (node : node_id) : gset string :=
  foldl (λ acc child,
           foldl (λ acc input_, {[input_]} ∪ acc) acc
                 (inputs (deref σ child)))
        ∅ (children (deref σ node)).

Definition removed_outputs σ (g : Graph) (node : node_id) : gset string :=
  foldl (λ removed output,
           if decide (output ∈ graph_output_names g) then removed
           else if decide (output ∈ children_inputs σ node) then removed
           else {[output]} ∪ removed)
        ∅ (outputs (deref σ node)).

Definition visit (g : Graph) σ (node : node_id) : gmap node_id (Node R) :=
  let removed := removed_outputs σ g node in
  update node
    (set_outputs (filter (λ out, out ∉ removed) (outputs (deref σ node))))
    σ.

Definition call (g : Graph) σ : Graph * gmap node_id (Node R) :=
  (g, foldl (visit g) σ (nodes g)).
End Pass.
End DanglingOutputsRemover.

Module OutputRenamer.
Section Pass.
Context {R : Type}.
Implicit Types (σ : gmap node_id (Node R)) (mapping : gmap string string).

(** [for j in range(len(child.inputs)): ...] *)
Definition rename_inputs (output new : string) (child : node_id) σ
    : gmap node_id (Node R) :=
  foldl (λ σ j,
           match inputs (deref σ child) !! j with
           | Some input_ =>
               if decide (input_ ≠ output) then σ
               else update child
                      (λ x, set_inputs (<[j := new]> (inputs x)) x) σ
           | None => σ
           end)
        σ (seq 0 (length (inputs (deref σ child)))).

(** The loop [for i in range(len(node.outputs))] from the position [i]
    on, [count] positions being left; it is left early once the mapping
    is empty. *)
Fixpoint rename_outputs (node : node_id) (count i : nat)
    (s : gmap node_id (Node R) * gmap string string)
    : gmap node_id (Node R) * gmap string string :=
  match count with
  | 0 => s
  | S count' =>
      let '(σ, mapping) := s in
      match outputs (deref σ node) !! i with
      | None => s
      | Some output =>
          match mapping !! output with
          | None => rename_outputs node count' (S i) s
          | Some new =>
              let σ := update node
                         (λ x, set_outputs (<[i := new]> (outputs x)) x)
                         σ in
              let σ := foldl (λ σ child, rename_inputs output new child σ)
                             σ (children (deref σ node)) in
              let mapping := delete output mapping in
              if decide (size mapping = 0) then (σ, mapping)
              else rename_outputs node count' (S i) (σ, mapping)
          end
      end
  end.

Definition visit (s : gmap node_id (Node R) * gmap string string)
    (node : node_id) : gmap node_id (Node R) * gmap string string :=
  rename_outputs node (length (outputs (deref s.1 node))) 0 s.

(** [__call__]; the mapping of the renamer is copied, and the final state
    of the copy is returned along with the graph for reference. *)
Definition call mapping (g : Graph) σ
    : Graph * gmap node_id (Node R) * gmap string string :=
  let '(σ, mapping) := foldl visit (σ, mapping) (nodes g) in
  (g, σ, mapping).
End Pass.
End OutputRenamer.

(** ** The patterns the specification describes *)

Section Patterns.
Context {R : Type}.
Implicit Types (σ : gmap node_id (Node R)).

(** The depth-to-space pattern over a window of three nodes:
    Reshape [1, C, s, s, H, W], Transpose [0, 1, 4, 2, 5, 3],
    Reshape [d, C, H·s, W·s], for a leading dimension [d] that
    satisfies [leading]. *)
Definition pixel_shuffle_pattern (leading : Z → Prop) σ
    (n0 n1 n2 : node_id) : Prop :=
  op_type (deref σ n0) = "Reshape"
  ∧ op_type (deref σ n1) = "Transpose"
  ∧ op_type (deref σ n2) = "Reshape"
  ∧ ∃ C s H W d : Z,
      attrs (deref σ n0) !! "shape" = Some (AInts [1; C; s; s; H; W]%Z)
      ∧ attrs (deref σ n1) !! "perm" = Some (AInts [0; 1; 4; 2; 5; 3]%Z)
      ∧ attrs (deref σ n2) !! "shape"
        = Some (AInts [d; C; H * s; W * s]%Z)
      ∧ leading d.

(** The pattern as the specification words it: the final Reshape has
    the leading dimension 1. *)
Definition pixel_shuffle_spec σ (n0 n1 n2 : node_id) : Prop :=
  pixel_shuffle_pattern (λ d, d = 1%Z) σ n0 n1 n2.

(** The pattern the rule checks: the leading dimension of the final
    Reshape is not looked at. *)
Definition pixel_shuffle_checked σ (n0 n1 n2 : node_id) : Prop :=
  pixel_shuffle_pattern (λ _, True) σ n0 n1 n2.
End Patterns.

(** ** Invariants of the passes *)

Section Invariants.
Context {R : Type}.
Implicit Types (σ : gmap node_id (Node R)) (n m : node_id).

(** What the loop keeps true of the node it stands on and the window
    collected so far: the head of a non-empty window has the current node
    as its only parent, and that parent has one child. *)
Definition linked σ n (w : list node_id) : Prop :=
  match w with
  | [] => True
  | first :: _ =>
      parents (deref σ first) = [n] ∧ length (children (deref σ n)) = 1
  end.

(** An output is kept when it is a graph output or an input of a child. *)
Definition kept σ (g : Graph) n (output : string) : Prop :=
  output ∈ DanglingOutputsRemover.graph_output_names g
  ∨ output ∈ DanglingOutputsRemover.children_inputs σ n.

(** A node the pass has nothing to remove from. *)
Definition settled σ (g : Graph) n : Prop :=
  is_Some (σ !! n) ∧ Forall (kept σ g n) (outputs (deref σ n)).

(** What the visits of constant-reshape folding keep of a node: all of it
    but its parents, which can only lose members, and its literal tensors;
    a node without parents is left as it is. *)
Definition shrinks σ σ1 : Prop :=
  ∀ x,
    name (deref σ1 x) = name (deref σ x)
    ∧ op_type (deref σ1 x) = op_type (deref σ x)
    ∧ attrs (deref σ1 x) = attrs (deref σ x)
    ∧ inputs (deref σ1 x) = inputs (deref σ x)
    ∧ outputs (deref σ1 x) = outputs (deref σ x)
    ∧ children (deref σ1 x) = children (deref σ x)
    ∧ parents (deref σ1 x) `sublist_of` parents (deref σ x)
    ∧ (parents (deref σ x) = [] → deref σ1 x = deref σ x).
(** Output renaming: the name an output or an input takes under a
    mapping, and the renaming of the entries that are among the names
    [K]. *)
Definition renamed (mapping : gmap string string) (o : string) : string :=
  default o (mapping !! o).

Definition renamed_among (mapping : gmap string string) (K : list string)
    (x : string) : string :=
  if decide (x ∈ K) then renamed mapping x else x.

(** The outputs [l] of a node after its visit under a mapping: a name that
    is a key takes the mapped name and the key leaves the mapping, so a
    later entry with the same name is left as it is. *)
Fixpoint renamed_seq (mapping : gmap string string) (l : list string)
    : list string :=
  match l with
  | [] => []
  | o :: l' =>
      match mapping !! o with
      | Some new => new :: renamed_seq (delete o mapping) l'
      | None => o :: renamed_seq mapping l'
      end
  end.

(** The input entry [x] of the node [c] after the visits of the nodes [l]:
    the first node of [l] that has [x] among its outputs decides, and
    renames the entry when [c] is one of its children. *)
Fixpoint renamed_input σ (mapping : gmap string string) (l : list node_id)
    (c : node_id) (x : string) : string :=
  match l with
  | [] => x
  | n :: l' =>
      if decide (x ∈ outputs (deref σ n))
      then if decide (c ∈ children (deref σ n)) then renamed mapping x else x
      else renamed_input σ mapping l' c x
  end.

(** The outputs of the nodes of [l], in order. *)
Definition all_outputs σ (l : list node_id) : list string :=
  l ≫= λ p, outputs (deref σ p).

(** The entry [x] of an input list after the renaming of [o] to [new]. *)
Definition replaced (o new x : string) : string :=
  if decide (x = o) then new else x.

(** The heap after one application of the renamer: the output is renamed
    at its position, then the inputs of the children. *)
Definition applied n (i : nat) (o new : string) σ : gmap node_id (Node R) :=
  let σ := update n (λ x, set_outputs (<[i := new]> (outputs x)) x) σ in
  foldl (λ σ child, OutputRenamer.rename_inputs o new child σ)
        σ (children (deref σ n)).

(** No new name of the mapping is itself a key of the mapping. *)
Definition no_chain (mapping : gmap string string) : Prop :=
  ∀ k v, mapping !! k = Some v → mapping !! v = None.
End Invariants.

(** ** Example graphs *)

Module Examples.
(** Integers stand for the elements of the literal tensors. *)
Global Instance Z_ops : ElemOps Z :=
  {| e_zero := 0%Z; e_add := Z.add; e_mul := Z.mul |}.

(** A generator of edge names that returns the name asked for. *)
Definition same_name (σ : gmap node_id (Node Z)) (g : Graph) (nm : string)
    : string := nm.

(** input0 → Reshape → Transpose → Reshape → output0, the pixel shuffle
    of the test, with [C = 2], [s = 2], [H = 2], [W = 2]; [d] is the
    leading dimension of the final Reshape. *)
Definition ps_reshape_1 : Node Z :=
  mkNode "r1" "Reshape" {["shape" := AInts [1; 2; 2; 2; 2; 2]%Z]}
         ["input0"] ["node0"] ∅ [] [1].
Definition ps_transpose : Node Z :=
  mkNode "t1" "Transpose" {["perm" := AInts [0; 1; 4; 2; 5; 3]%Z]}
         ["node0"] ["node1"] ∅ [0] [2].
Definition ps_reshape_2 (d : Z) : Node Z :=
  mkNode "r2" "Reshape" {["shape" := AInts [d; 2; 4; 4]%Z]}
         ["node1"] ["output0"] ∅ [1] [].
Definition ps_heap (d : Z) : gmap node_id (Node Z) :=
  {[0 := ps_reshape_1; 1 := ps_transpose; 2 := ps_reshape_2 d]}.
Definition ps_graph : Graph :=
  mkGraph [0; 1; 2] [("input0", [1; 8; 2; 2]%Z)]
          [("output0", [1; 2; 4; 4]%Z)].

(** The same chain where the first Reshape carries no [shape]
    attribute (from opset 5 on the shape of a Reshape is an input). *)
Definition ps_heap_no_shape : gmap node_id (Node Z) :=
  <[0 := set_attrs ∅ ps_reshape_1]> (ps_heap 1).

(** input0 → Conv → Add → output0; the second operand of the Add is
    the literal ["bias"] or, in [ca_heap_input], the graph input
    ["input1"]. *)
Definition ca_conv (ins : list string) (ts : gmap string (tensor Z))
    : Node Z :=
  mkNode "conv" "Conv" {["kernel_shape" := AInts [1; 1]%Z]}
         ins ["conv_output"] ts [] [1].
Definition ca_add (operand : string) (ts : gmap string (tensor Z))
    : Node Z :=
  mkNode "add" "Add" {["broadcast" := AInt 1; "axis" := AInt 1]}
         ["conv_output"; operand] ["output0"] ts [0] [].
Definition ca_weight : tensor Z := mkTensor [2; 1; 1; 1] [5; 6]%Z.
Definition ca_bias : tensor Z := mkTensor [2] [7; 8]%Z.
Definition ca_heap : gmap node_id (Node Z) :=
  {[0 := ca_conv ["input0"; "weight"] {["weight" := ca_weight]};
    1 := ca_add "bias" {["bias" := ca_bias]}]}.
Definition ca_heap_bias : gmap node_id (Node Z) :=
  {[0 := ca_conv ["input0"; "weight"; "bias"]
                 {["weight" := ca_weight; "bias" := ca_bias]};
    1 := ca_add "bias" {["bias" := ca_bias]}]}.
Definition ca_heap_input : gmap node_id (Node Z) :=
  {[0 := ca_conv ["input0"; "weight"] {["weight" := ca_weight]};
    1 := ca_add "input1" ∅]}.
Definition ca_graph : Graph :=
  mkGraph [0; 1] [("input0", [1; 1; 4; 4]%Z)]
          [("output0", [1; 2; 4; 4]%Z)].
Definition ca_graph_input : Graph :=
  mkGraph [0; 1] [("input0", [1; 1; 4; 4]%Z); ("input1", [2]%Z)]
          [("output0", [1; 2; 4; 4]%Z)].
(** input0 → BatchNormalization → Mul → output0, the Mul scaling by the
    literal ["W"]. *)
Definition bn_scale : tensor Z := mkTensor [2] [2; 3]%Z.
Definition bn_bias : tensor Z := mkTensor [2] [5; 7]%Z.
Definition bn_W : tensor Z := mkTensor [2] [10; 100]%Z.
Definition bn_node : Node Z :=
  mkNode "bn" "BatchNormalization" ∅
         ["input0"; "scale"; "bias"; "mean"; "var"] ["bn_output"]
         {["scale" := bn_scale; "bias" := bn_bias;
           "mean" := mkTensor [2] [0; 0]%Z; "var" := mkTensor [2] [1; 1]%Z]}
         [] [1].
Definition bn_mul : Node Z :=
  mkNode "mul" "Mul" {["broadcast" := AInt 1; "axis" := AInt 1]}
         ["bn_output"; "W"] ["output0"] {["W" := bn_W]} [0] [].
Definition bn_heap : gmap node_id (Node Z) := {[0 := bn_node; 1 := bn_mul]}.
(** A Reshape of the literal ["w"] to [3, 2] feeding the second input of
    a MatMul. *)
Definition cr_tensor : tensor Z := mkTensor [2; 3] [1; 2; 3; 4; 5; 6]%Z.
Definition cr_reshape : Node Z :=
  mkNode "reshape" "Reshape" {["shape" := AInts [3; -1]%Z]}
         ["w"] ["w_reshaped"] {["w" := cr_tensor]} [] [1].
Definition cr_matmul : Node Z :=
  mkNode "matmul" "MatMul" ∅ ["input0"; "w_reshaped"] ["output0"] ∅ [0] [].
Definition cr_heap : gmap node_id (Node Z) :=
  {[0 := cr_reshape; 1 := cr_matmul]}.
Definition cr_graph : Graph :=
  mkGraph [0; 1] [("input0", [4; 3]%Z)] [("output0", [4; 2]%Z)].

(** A node with the outputs ["a"] and ["b"] whose child reads ["a"], and
    a mapping that renames ["a"] to ["b"] and ["b"] to ["c"]. *)
Definition rn_split : Node Z :=
  mkNode "split" "Split" ∅ ["input0"] ["a"; "b"] ∅ [] [1].
Definition rn_relu : Node Z :=
  mkNode "relu" "Relu" ∅ ["a"] ["output0"] ∅ [0] [].
Definition rn_heap : gmap node_id (Node Z) := {[0 := rn_split; 1 := rn_relu]}.
Definition rn_graph : Graph :=
  mkGraph [0; 1] [("input0", [1; 4]%Z)] [("output0", [1; 2]%Z); ("b", [1; 2]%Z)].
Definition rn_chained : gmap string string := {["a" := "b"; "b" := "c"]}.
Definition rn_mapping : gmap string string :=
  {["a" := "x"; "output0" := "y"; "unused" := "z"]}.

(** The same two nodes and a third one whose output carries the name ["a"]
    as well. *)
Definition rn_twin : Node Z :=
  mkNode "twin" "Identity" ∅ ["input0"] ["a"] ∅ [] [].
Definition rn_shared_heap : gmap node_id (Node Z) :=
  {[0 := rn_split; 1 := rn_relu; 2 := rn_twin]}.
Definition rn_shared_graph : Graph :=
  mkGraph [0; 1; 2] [("input0", [1; 4]%Z)]
          [("output0", [1; 2]%Z); ("b", [1; 2]%Z); ("a", [1; 4]%Z)].

Definition bn_graph : Graph :=
  mkGraph [0; 1] [("input0", [1; 2; 4; 4]%Z)] [("output0", [1; 2; 4; 4]%Z)].
End Examples.

(** ** What the driver relies on *)

Section DriverInvariants.
Context {R : Type}.
Implicit Types (σ : gmap node_id (Node R)) (n m : node_id).

(** A strictly linear chain: every node but the first has the node before
    it as its only parent, and that parent has one child. *)
Fixpoint chain σ (w : list node_id) : Prop :=
  match w with
  | a :: w' =>
      match w' with
      | b :: _ =>
          parents (deref σ b) = [a] ∧ length (children (deref σ a)) = 1
          ∧ chain σ w'
      | [] => True
      end
  | [] => True
  end.

(** A node the rule does nothing at: it ends no window of the length of the
    rule, or the rule does not accept its window. *)
Definition quiet (F : Fuser R) (g : Graph) σ n : Prop :=
  NodesFuser.find_window σ (num_nodes F) n = Ok None
  ∨ ∃ w, NodesFuser.find_window σ (num_nodes F) n = Ok (Some w)
         ∧ is_eligible F σ g w = Ok false.

(** Two heaps whose nodes differ in their neighbours only. *)
Definition same_payload σ σ' : Prop :=
  ∀ x, name (deref σ' x) = name (deref σ x)
       ∧ op_type (deref σ' x) = op_type (deref σ x)
       ∧ attrs (deref σ' x) = attrs (deref σ x)
       ∧ inputs (deref σ' x) = inputs (deref σ x)
       ∧ outputs (deref σ' x) = outputs (deref σ x)
       ∧ input_tensors (deref σ' x) = input_tensors (deref σ x).
End DriverInvariants.

Section PassInvariants.
Context {R : Type}.
Implicit Types (σ : gmap node_id (Node R)) (n m : node_id).

(** A node constant-reshape folding passes over: no Reshape, or not with
    exactly one literal tensor, or its first input is not that literal. *)
Definition not_foldable σ n : Prop :=
  op_type (deref σ n) ≠ "Reshape"
  ∨ size (input_tensors (deref σ n)) ≠ 1
  ∨ ∃ input0, inputs (deref σ n) !! 0 = Some input0
              ∧ input_tensors (deref σ n) !! input0 = None.

(** Two nodes that differ in their outputs at most. *)
Definition same_but_outputs (x y : Node R) : Prop :=
  name x = name y ∧ op_type x = op_type y ∧ attrs x = attrs y
  ∧ inputs x = inputs y ∧ input_tensors x = input_tensors y
  ∧ parents x = parents y ∧ children x = children y.

(** Two nodes that differ in the names of their inputs and outputs at
    most, not in their number. *)
Definition same_but_names (x y : Node R) : Prop :=
  name x = name y ∧ op_type x = op_type y ∧ attrs x = attrs y
  ∧ input_tensors x = input_tensors y
  ∧ parents x = parents y ∧ children x = children y
  ∧ length (inputs x) = length (inputs y)
  ∧ length (outputs x) = length (outputs y).

(** Two heaps whose nodes differ in the names of inputs and outputs at
    most. *)
Definition names_only σ σ' : Prop :=
  ∀ x, same_but_names (deref σ' x) (deref σ x).
End PassInvariants.

Module PassExamples.
(** input0 → Conv → Relu → Dropout → Gemm → output0. *)
Definition dr_conv : Node Z :=
  mkNode "conv" "Conv" ∅ ["input0"; "weight"] ["conv_output"]
         {["weight" := Examples.ca_weight]} [] [1].
Definition dr_relu : Node Z :=
  mkNode "relu" "Relu" ∅ ["conv_output"] ["relu_output"] ∅ [0] [2].
Definition dr_dropout : Node Z :=
  mkNode "dropout" "Dropout" ∅ ["relu_output"] ["dropout_output"; "mask"]
         ∅ [1] [3].
Definition dr_gemm : Node Z :=
  mkNode "gemm" "Gemm" ∅ ["dropout_output"; "fc_weight"] ["output0"]
         ∅ [2] [].
Definition dr_heap : gmap node_id (Node Z) :=
  {[0 := dr_conv; 1 := dr_relu; 2 := dr_dropout; 3 := dr_gemm]}.
Definition dr_graph : Graph :=
  mkGraph [0; 1; 2; 3] [("input0", [1; 1; 4; 4]%Z)]
          [("output0", [1; 2]%Z)].

(** input0 → BatchNormalization → Add → Relu → output0, the Add shifting
    by the literal ["shift"]. *)
Definition ba_add : Node Z :=
  mkNode "add" "Add" {["broadcast" := AInt 1; "axis" := AInt 1]}
         ["bn_output"; "shift"] ["add_output"]
         {["shift" := mkTensor [2] [1; -1]%Z]} [0] [2].
Definition ba_relu : Node Z :=
  mkNode "relu" "Relu" ∅ ["add_output"] ["output0"] ∅ [1] [].
Definition ba_heap : gmap node_id (Node Z) :=
  {[0 := Examples.bn_node; 1 := ba_add; 2 := ba_relu]}.
Definition ba_graph : Graph :=
  mkGraph [0; 1; 2] [("input0", [1; 2; 4; 4]%Z)]
          [("output0", [1; 2; 4; 4]%Z)].

(** A Reshape of the literal ["w"] whose target shape is computed by the
    node before it, and the same Reshape with the shape as a graph
    input. *)
Definition rp_shape : Node Z :=
  mkNode "shape" "Shape" ∅ ["input0"] ["dims"] ∅ [] [1].
Definition rp_reshape (ps : list node_id) : Node Z :=
  mkNode "reshape" "Reshape" ∅ ["w"; "dims"] ["w_reshaped"]
         {["w" := Examples.cr_tensor]} ps [].
Definition rp_heap : gmap node_id (Node Z) :=
  {[0 := rp_shape; 1 := rp_reshape [0]]}.
Definition rp_graph : Graph :=
  mkGraph [0; 1] [("input0", [3; 2]%Z)] [("w_reshaped", [3; 2]%Z)].

(** The chain Conv → Relu → Dropout → Gemm with nodes that carry no
    name. *)
Definition unnamed (x : Node Z) : Node Z :=
  mkNode "" (op_type x) (attrs x) (inputs x) (outputs x) (input_tensors x)
         (parents x) (children x).
Definition un_heap : gmap node_id (Node Z) := unnamed <$> dr_heap.
End PassExamples.

(** * Properties *)

(** ** Chain matching *)

Section MatchingProperties.
Context {R : Type}.
Implicit Types (σ : gmap node_id (Node R)) (n p : node_id).
Import NodesFuser.

Lemma get_only_parent_Ok σ n p :
  get_only_parent σ n = Ok p ↔ parents (deref σ n) = [p].
Proof.
  unfold get_only_parent.
  destruct (parents (deref σ n)) as [|q [|q' l]]; split; intros H;
    try discriminate; congruence.
Qed.

Lemma get_only_parent_single σ n :
  length (parents (deref σ n)) = 1 →
  ∃ p, get_only_parent σ n = Ok p ∧ parents (deref σ n) = [p].
Proof.
  unfold get_only_parent.
  destruct (parents (deref σ n)) as [|q [|q' l]]; intros H;
    try discriminate. eauto.
Qed.

Lemma collect_window_spec σ count : ∀ n w,
  linked σ n w →
  ∃ n' w', collect_window σ count n w = Ok (n', w') ∧ linked σ n' w'
    ∧ length w' ≤ length w + count
    ∧ (length w' = length w + count ∨ 
       length (parents (deref σ n')) ≠ 1 ∨
       ∃ p', parents (deref σ n') = [p']
             ∧ length (children (deref σ p')) ≠ 1).
Proof.
  induction count as [|count IH]; intros n w Hl; simpl.
  - exists n, w. split_and!; auto with lia.
  - destruct (decide (length (parents (deref σ n)) ≠ 1)) as [Hp|Hp].
    + exists n, w. split_and!; auto with lia.
    + apply dec_stable in Hp.
      destruct (get_only_parent_single σ n Hp) as (p & -> & Hpar). simpl.
      destruct (decide (length (children (deref σ p)) ≠ 1)) as [Hc|Hc].
      * exists n, w. split_and!; eauto 6 with lia.
      * apply dec_stable in Hc.
        destruct (IH p (n :: w)) as (n' & w' & -> & Hl' & Hlen & Hstop).
        { simpl. auto. }
        exists n', w'. simpl in *. split_and!; auto with lia.
        destruct Hstop as [?|?]; [left; lia | right; done].
Qed.

Lemma extend_window_linked σ n first w :
  linked σ n (first :: w) →
  extend_window σ (first :: w) = Ok (n :: first :: w).
Proof.
  intros [Hpar Hc]. unfold extend_window.
  apply get_only_parent_Ok in Hpar. rewrite Hpar. simpl.
  rewrite decide_True; done.
Qed.

Lemma find_window_total σ k n : ∃ r, find_window σ k n = Ok r.
Proof.
  unfold find_window.
  destruct (collect_window_spec σ (k - 1) n []) as (n' & w & -> & Hl & _);
    [done|]. simpl.
  destruct w as [|first w].
  - simpl. case_decide; eauto.
  - rewrite (extend_window_linked _ _ _ _ Hl). simpl. case_decide; eauto.
Qed.

(** C1: for every node taken as the tail of a window of a rule over
    [k] nodes, the search never fails; a non-empty collected prefix, and so
    a full prefix of [k - 1] nodes, is always extended by the only parent
    of its earliest node (the test on the children of that parent cannot
    fail there); and the node yields a window exactly when the extended
    window has [k] nodes. *)
Theorem C1_window_extension_and_acceptance σ k n :
  ∃ top w w',
    collect_window σ (k - 1) n [] = Ok (top, w)
    ∧ extend_window σ w = Ok w'
    ∧ (∀ first rest, w = first :: rest →
         get_only_parent σ first = Ok top ∧ w' = top :: w)
    ∧ (w = [] → w' = [])
    ∧ (length w = k - 1 → 2 ≤ k → find_window σ k n = Ok (Some (top :: w)))
    ∧ (∀ r, find_window σ k n = Ok (Some r) ↔ r = w' ∧ length w' = k)
    ∧ (find_window σ k n = Ok None ↔ length w' ≠ k).
Proof.
  destruct (collect_window_spec σ (k - 1) n []) as (top & w & Hc & Hl & _);
    [done|].
  assert (Hext : ∃ w', extend_window σ w = Ok w'
                       ∧ (∀ first rest, w = first :: rest →
                            get_only_parent σ first = Ok top ∧ w' = top :: w)
                       ∧ (w = [] → w' = [])).
  { destruct w as [|first rest].
    - exists []. split_and!; [done| |done]. intros ?? [=].
    - exists (top :: first :: rest).
      split_and!; [by apply extend_window_linked| |done].
      intros ?? [= <- <-]. split; [|done].
      destruct Hl as [Hpar _]. by apply get_only_parent_Ok. }
  destruct Hext as (w' & Hext & Hcons & Hnil).
  assert (Hfind : find_window σ k n
                  = if decide (length w' ≠ k) then Ok None else Ok (Some w')).
  { unfold find_window. rewrite Hc. cbn [mbind result_bind].
    rewrite Hext. done. }
  exists top, w, w'. split_and!; try done.
  - intros Hlen Hk. rewrite Hfind.
    destruct w as [|first rest]; [simpl in Hlen; lia|].
    destruct (Hcons first rest eq_refl) as [_ ->].
    rewrite decide_False; [done|]. simpl in *. lia.
  - intros r. rewrite Hfind. case_decide as Hd.
    + split; [done|]. intros [_ ?]. done.
    + split; [intros [= <-]|intros [-> _]]; [|done].
      split; [done|]. by destruct (decide (length w' = k)).
  - rewrite Hfind. case_decide as Hd; [done|].
    split; [done|]. intros ?. done.
Qed.
End MatchingProperties.

(** The chain Reshape → Transpose → Reshape of the pixel-shuffle test: the
    window of its last node, for a rule over three nodes, is the chain. *)
Lemma C1_window_of_chain :
  NodesFuser.find_window (Examples.ps_heap 1) 3 2 = Ok (Some [0; 1; 2])
  ∧ NodesFuser.find_window (Examples.ps_heap 1) 3 1 = Ok None.
Proof.
  destruct (C1_window_extension_and_acceptance (Examples.ps_heap 1) 3 2)
    as (top & w & w' & Hc & _ & _ & _ & Hfull & _).
  vm_compute in Hc. injection Hc as <- <-.
  split; [apply Hfull; vm_compute; lia|].
  vm_compute. reflexivity.
Defined.

(** ** Eligibility of the pixel-shuffle rule *)

Section PixelShuffleEligibility.
Context {R : Type}.
Implicit Types (σ : gmap node_id (Node R)).

Lemma pixel_shuffle_eligible_checked σ g n0 n1 n2 :
  PixelShuffleFuser.is_eligible σ g [n0; n1; n2] = Ok true →
  pixel_shuffle_checked σ n0 n1 n2.
Proof.
  unfold PixelShuffleFuser.is_eligible, pixel_shuffle_checked,
    pixel_shuffle_pattern, getitem.
  cbn [index lookup list_lookup mbind result_bind].
  repeat (case_decide; [discriminate|]).
  repeat match goal with H : ¬ _ ≠ _ |- _ => apply dec_stable in H end.
  destruct (attrs (deref σ n0) !! "shape") as [[z|l|s]|]; try discriminate.
  cbn [mbind result_bind].
  case_decide as Hl; [discriminate|].
  destruct l as [|s0 [|C [|s [|s' [|ih [|iw [|]]]]]]]; try discriminate.
  cbn [index lookup list_lookup mbind result_bind].
  case_decide as Hs; [discriminate|].
  case_decide as Hp; [discriminate|].
  destruct (attrs (deref σ n2) !! "shape") as [[z|l|t]|]; try discriminate.
  cbn [mbind result_bind].
  case_decide as Hl2; [discriminate|].
  destruct l as [|d [|C' [|oh [|ow [|]]]]]; try discriminate.
  cbn [index lookup list_lookup mbind result_bind].
  repeat (case_decide; [discriminate|]).
  repeat match goal with H : ¬ _ ≠ _ |- _ => apply dec_stable in H end.
  intros _. split_and!; [done..|].
  assert (s0 = 1%Z ∧ s = s') as [-> ->].
  { split; apply dec_stable; intros ?; apply Hs; auto. }
  subst. exists C', s', ih, iw, d. split_and!; [done| |done..].
  destruct (attrs (deref σ n1) !! "perm") as [v|]; [|discriminate].
  simpl in Hp. by subst.
Qed.

Lemma pixel_shuffle_checked_eligible σ g n0 n1 n2 :
  pixel_shuffle_checked σ n0 n1 n2 →
  PixelShuffleFuser.is_eligible σ g [n0; n1; n2] = Ok true.
Proof.
  intros (H0 & H1 & H2 & C & s & H & W & d & Hs0 & Hp & Hs2 & _).
  unfold PixelShuffleFuser.is_eligible, getitem.
  cbn [index lookup list_lookup mbind result_bind].
  rewrite H0, H1, H2, Hs0, Hp, Hs2.
  cbn [index lookup list_lookup mbind result_bind length default].
  repeat (rewrite decide_False; [|first [intros [?|?]; done | intros ?; done]]).
  done.
Qed.

(** C2 (amended): on a window of three nodes the rule answers true exactly
    for Reshape [1, C, s, s, H, W] → Transpose [0, 1, 4, 2, 5, 3] →
    Reshape [d, C, H·s, W·s], whatever the leading dimension [d] of the
    final Reshape is. *)
Theorem C2_is_eligible_iff_checked_pattern σ g n0 n1 n2 :
  PixelShuffleFuser.is_eligible σ g [n0; n1; n2] = Ok true ↔
  pixel_shuffle_checked σ n0 n1 n2.
Proof.
  split; [apply pixel_shuffle_eligible_checked
         | apply pixel_shuffle_checked_eligible].
Qed.
End PixelShuffleEligibility.

(** C2, as stated, fails: a final Reshape to [2, 2, 4, 4] is accepted,
    although its leading dimension is not 1. *)
Lemma C2_leading_dimension_unchecked :
  PixelShuffleFuser.is_eligible (Examples.ps_heap 2) Examples.ps_graph
    [0; 1; 2] = Ok true
  ∧ ¬ pixel_shuffle_spec (Examples.ps_heap 2) 0 1 2.
Proof.
  split; [by vm_compute|].
  intros (_ & _ & _ & C & s & H & W & d & _ & _ & Hs & ->).
  vm_compute in Hs. discriminate.
Qed.

(** ** Windows that are not eligible *)

Section NotEligible.
Context {R : Type} `{!ElemOps R}.
Implicit Types (σ : gmap node_id (Node R)).

(** The eligibility check of the Conv-Add rule never raises on a window of
    two nodes, and answers false for a wrong operator or a missing
    attribute. *)
Lemma conv_add_is_eligible_total σ g parent child :
  ∃ b, ConvAddFuser.is_eligible σ g [parent; child] = Ok b
       ∧ (op_type (deref σ parent) ≠ "Conv"
          ∨ op_type (deref σ child) ≠ "Add"
          ∨ attrs (deref σ child) !! "broadcast" = None
          ∨ attrs (deref σ child) !! "axis" = None → b = false).
Proof.
  unfold ConvAddFuser.is_eligible, getitem.
  cbn [index lookup list_lookup mbind result_bind].
  repeat (case_decide; [exists false; split; [done|tauto]|]).
  destruct (attrs (deref σ child) !! "broadcast") as [v|]; [|done].
  destruct (attrs (deref σ child) !! "axis") as [v'|]; [|done].
  cbn [mbind result_bind].
  repeat case_decide; eexists; (split; [done|]); intros [?|[?|[?|?]]]; done.
Qed.

(** A window the rule does not accept is left as it is: the visit of the
    node changes neither the heap nor the record of merged nodes. *)
Lemma visit_not_eligible (F : Fuser R) g node st merged_nodes w :
  NodesFuser.find_window (heap st) (num_nodes F) node = Ok (Some w) →
  is_eligible F (heap st) g w = Ok false →
  NodesFuserCall.visit F g node (st, merged_nodes) = Ok (st, merged_nodes).
Proof.
  intros Hw He. unfold NodesFuserCall.visit. rewrite Hw.
  cbn [mbind result_bind]. by rewrite He.
Qed.

(** A node without a window of the length of the rule is passed over. *)
Lemma visit_no_window (F : Fuser R) g node st merged_nodes :
  NodesFuser.find_window (heap st) (num_nodes F) node = Ok None →
  NodesFuserCall.visit F g node (st, merged_nodes) = Ok (st, merged_nodes).
Proof. intros Hw. unfold NodesFuserCall.visit. by rewrite Hw. Qed.
End NotEligible.

(** C4: the first Reshape of a Reshape → Transpose → Reshape window has no
    [shape] attribute; the eligibility check of the pixel-shuffle rule
    raises [KeyError], and so does the pass, where the check of the
    Conv-Add rule answers false for a missing attribute. *)
Theorem C4_missing_shape_raises :
  NodesFuser.find_window Examples.ps_heap_no_shape 3 2 = Ok (Some [0; 1; 2])
  ∧ attrs (deref Examples.ps_heap_no_shape 0) !! "shape" = None
  ∧ PixelShuffleFuser.is_eligible Examples.ps_heap_no_shape
      Examples.ps_graph [0; 1; 2] = Raise KeyError
  ∧ NodesFuserCall.call (PixelShuffleFuser.rule Examples.same_name)
      Examples.ps_graph (mkFstate Examples.ps_heap_no_shape 0)
    = Raise KeyError.
Proof. split_and!; by vm_compute. Qed.

(** C10: the Add of an eligible Conv → Add window takes a graph input as
    its second operand; the eligibility check accepts the window, and the
    merge fails on the lookup of that operand among the literal tensors of
    the Add. *)
Theorem C10_conv_add_operand_not_literal :
  ∃ (σ : gmap node_id (Node Z)) (g : Graph) (parent child : node_id)
    (operand : string),
    NodesFuser.find_window σ 2 child = Ok (Some [parent; child])
    ∧ ConvAddFuser.is_eligible σ g [parent; child] = Ok true
    ∧ inputs (deref σ child) !! 1 = Some operand
    ∧ operand ∈ (g_inputs g).*1
    ∧ input_tensors (deref σ child) !! operand = None
    ∧ ConvAddFuser.merge g [parent; child] σ = Raise KeyError
    ∧ NodesFuserCall.call ConvAddFuser.rule g (mkFstate σ 0)
      = Raise KeyError.
Proof.
  exists Examples.ca_heap_input, Examples.ca_graph_input, 0, 1, "input1".
  split_and!; try by vm_compute.
  apply list_elem_of_In. vm_compute. auto.
Qed.

(** ** Lists *)

Lemma filter_ext_Forall {A} (P Q : A → Prop) `{!∀ x, Decision (P x)}
    `{!∀ x, Decision (Q x)} (l : list A) :
  Forall (λ x, P x ↔ Q x) l → filter P l = filter Q l.
Proof.
  induction 1 as [|x l Hx _ IH]; [done|].
  rewrite !filter_cons, IH.
  destruct (decide (P x)), (decide (Q x)); tauto.
Qed.

Lemma filter_Forall_id {A} (P : A → Prop) `{!∀ x, Decision (P x)}
    (l : list A) :
  Forall P l → filter P l = l.
Proof.
  induction 1 as [|x l Hx _ IH]; [done|].
  by rewrite filter_cons_True, IH.
Qed.

(** ** The heap *)

Section HeapProperties.
Context {R : Type}.
Implicit Types (σ : gmap node_id (Node R)) (n m : node_id).

Lemma deref_update_eq σ n f : deref (update n f σ) n = f (deref σ n).
Proof. unfold update, deref at 1. by rewrite lookup_insert_eq. Qed.

Lemma deref_update_ne σ n m f : n ≠ m → deref (update n f σ) m = deref σ m.
Proof. intros. unfold update, deref. by rewrite lookup_insert_ne. Qed.

Lemma deref_update σ n m f :
  deref (update n f σ) m = if decide (n = m) then f (deref σ n) else deref σ m.
Proof.
  case_decide; [subst; apply deref_update_eq | by apply deref_update_ne].
Qed.

Lemma deref_lookup σ n x : σ !! n = Some x → deref σ n = x.
Proof. unfold deref. by intros ->. Qed.

Lemma update_id σ n x f : σ !! n = Some x → f x = x → update n f σ = σ.
Proof.
  intros Hn Hf. unfold update. rewrite (deref_lookup _ _ _ Hn), Hf.
  by apply insert_id.
Qed.

Lemma lookup_update_is_Some σ n m f :
  is_Some (σ !! m) → is_Some (update n f σ !! m).
Proof.
  intros. unfold update. destruct (decide (n = m)) as [->|].
  - rewrite lookup_insert_eq. eauto.
  - by rewrite lookup_insert_ne.
Qed.

Lemma set_outputs_id (x : Node R) : set_outputs (outputs x) x = x.
Proof. by destruct x. Qed.
End HeapProperties.

(** ** Dangling-output elimination *)

Section DanglingOutputs.
Context {R : Type}.
Implicit Types (σ : gmap node_id (Node R)) (n m : node_id).
Import DanglingOutputsRemover.

Lemma removed_outputs_fold σ g n (l : list string) (acc : gset string) o :
  o ∈ foldl (λ removed output,
               if decide (output ∈ graph_output_names g) then removed
               else if decide (output ∈ children_inputs σ n) then removed
               else {[output]} ∪ removed) acc l
  ↔ o ∈ acc ∨ (o ∈ l ∧ ¬ kept σ g n o).
Proof.
  revert acc. induction l as [|x l IH]; intros acc; simpl.
  - set_solver.
  - rewrite IH. unfold kept. repeat case_decide; set_solver.
Qed.

Lemma elem_of_removed_outputs σ g n o :
  o ∈ removed_outputs σ g n ↔
  o ∈ outputs (deref σ n) ∧ ¬ kept σ g n o.
Proof. unfold removed_outputs. rewrite removed_outputs_fold. set_solver. Qed.

(** What a pass leaves of the outputs of a node: those that are a graph
    output or an input of a child. *)
Lemma visit_outputs σ g n :
  outputs (deref (visit g σ n) n)
  = filter (λ o, o ∈ graph_output_names g ∨ o ∈ children_inputs σ n)
         (outputs (deref σ n)).
Proof.
  unfold visit. rewrite deref_update_eq. simpl.
  apply filter_ext_Forall, Forall_forall. intros o Ho.
  rewrite elem_of_removed_outputs. split.
  - intros Hn. destruct (decide (o ∈ graph_output_names g)); [by left|].
    destruct (decide (o ∈ children_inputs σ n)); [by right|].
    exfalso. apply Hn. split; [done|]. intros [?|?]; done.
  - intros Hk [_ Hn]. done.
Qed.

Lemma visit_deref_ne σ g n m : n ≠ m → deref (visit g σ n) m = deref σ m.
Proof. intros. unfold visit. by apply deref_update_ne. Qed.

Lemma visit_inputs σ g n m :
  inputs (deref (visit g σ n) m) = inputs (deref σ m).
Proof. unfold visit. rewrite deref_update. by case_decide; subst. Qed.

Lemma visit_children σ g n m :
  children (deref (visit g σ n) m) = children (deref σ m).
Proof. unfold visit. rewrite deref_update. by case_decide; subst. Qed.

Lemma children_inputs_ext σ σ' n :
  (∀ m, inputs (deref σ' m) = inputs (deref σ m)) →
  children (deref σ' n) = children (deref σ n) →
  children_inputs σ' n = children_inputs σ n.
Proof.
  intros Hi Hc. unfold children_inputs. rewrite Hc. clear Hc.
  generalize (∅ : gset string).
  induction (children (deref σ n)) as [|c l IH]; intros acc; simpl; [done|].
  by rewrite Hi, IH.
Qed.

Lemma visit_children_inputs σ g n m :
  children_inputs (visit g σ n) m = children_inputs σ m.
Proof.
  apply children_inputs_ext; [intros; apply visit_inputs
                             | apply visit_children].
Qed.

Lemma visit_settled_id σ g n : settled σ g n → visit g σ n = σ.
Proof.
  intros [[x Hx] Hall]. unfold visit.
  apply (update_id _ _ x); [done|].
  rewrite <-(deref_lookup _ _ _ Hx) at 2.
  rewrite <-(set_outputs_id (deref σ n)) at 2.
  rewrite (deref_lookup _ _ _ Hx). f_equal.
  rewrite <-(deref_lookup _ _ _ Hx).
  apply filter_Forall_id, Forall_forall. intros o Ho.
  rewrite elem_of_removed_outputs. intros [_ Hn]. apply Hn.
  by apply (proj1 (Forall_forall _ _) Hall).
Qed.

Lemma visit_settles σ g n : settled (visit g σ n) g n.
Proof.
  split.
  - unfold visit, update. rewrite lookup_insert_eq. eauto.
  - rewrite visit_outputs. apply Forall_forall. intros o Ho.
    apply list_elem_of_filter in Ho as [Hk _].
    unfold kept in *. by rewrite visit_children_inputs.
Qed.

Lemma visit_keeps_settled σ g n m :
  settled σ g m → settled (visit g σ n) g m.
Proof.
  intros Hm. destruct (decide (n = m)) as [->|Hne].
  - apply visit_settles.
  - destruct Hm as [Hs Hall]. split.
    + by apply lookup_update_is_Some.
    + rewrite visit_deref_ne by done.
      eapply Forall_impl; [exact Hall|]. intros o Hk.
      unfold kept in *. by rewrite visit_children_inputs.
Qed.

Lemma foldl_visit_keeps_settled g (l : list node_id) : ∀ σ m,
  settled σ g m → settled (foldl (visit g) σ l) g m.
Proof.
  induction l as [|n l IH]; intros σ m Hm; simpl; [done|].
  by apply IH, visit_keeps_settled.
Qed.

Lemma foldl_visit_settles g (l : list node_id) : ∀ σ,
  Forall (settled (foldl (visit g) σ l) g) l.
Proof.
  induction l as [|n l IH]; intros σ; simpl; constructor.
  - apply foldl_visit_keeps_settled, visit_settles.
  - apply IH.
Qed.

Lemma foldl_visit_settled_id g (l : list node_id) σ :
  Forall (settled σ g) l → foldl (visit g) σ l = σ.
Proof.
  induction 1 as [|n l Hn Hl IH]; simpl; [done|].
  by rewrite visit_settled_id.
Qed.

(** What one pass leaves of the outputs of a node of the graph. *)
Lemma foldl_visit_outputs_other g (l : list node_id) : ∀ σ n,
  n ∉ l → deref (foldl (visit g) σ l) n = deref σ n.
Proof.
  induction l as [|m l IH]; intros σ n Hn; simpl; [done|].
  apply not_elem_of_cons in Hn as [Hne Hn].
  rewrite IH by done. by apply visit_deref_ne.
Qed.

Lemma filter_idemp {A} (P : A → Prop) `{!∀ x, Decision (P x)} (l : list A) :
  filter P (filter P l) = filter P l.
Proof.
  apply filter_Forall_id, Forall_forall.
  by intros x [? _]%list_elem_of_filter.
Qed.

Lemma foldl_visit_outputs g (l : list node_id) : ∀ σ n,
  n ∈ l →
  outputs (deref (foldl (visit g) σ l) n)
  = filter (λ o, o ∈ graph_output_names g ∨ o ∈ children_inputs σ n)
           (outputs (deref σ n)).
Proof.
  induction l as [|m l IH]; intros σ n Hn; [by apply not_elem_of_nil in Hn|].
  cbn [foldl]. destruct (decide (n ∈ l)) as [Hl|Hl].
  - rewrite IH by done.
    rewrite (filter_ext_Forall _
               (λ o, o ∈ graph_output_names g ∨ o ∈ children_inputs σ n)).
    + destruct (decide (m = n)) as [->|Hne].
      * rewrite visit_outputs. apply filter_idemp.
      * by rewrite visit_deref_ne.
    + apply Forall_forall. intros o _. by rewrite visit_children_inputs.
  - apply elem_of_cons in Hn as [->|Hn]; [|done].
    rewrite foldl_visit_outputs_other by done. apply visit_outputs.
Qed.

Lemma elem_of_children_inputs σ n o :
  o ∈ children_inputs σ n ↔
  ∃ c, c ∈ children (deref σ n) ∧ o ∈ inputs (deref σ c).
Proof.
  unfold children_inputs.
  assert (Hin : ∀ (l : list string) (acc : gset string),
            o ∈ foldl (λ acc input_, {[input_]} ∪ acc) acc l
            ↔ o ∈ acc ∨ o ∈ l).
  { induction l as [|x l IH]; intros acc; simpl.
    - split; [by left|]. intros [?|?%not_elem_of_nil]; done.
    - rewrite IH, elem_of_union, elem_of_singleton, elem_of_cons. tauto. }
  assert (Hout : ∀ (l : list node_id) (acc : gset string),
            o ∈ foldl (λ acc child,
                         foldl (λ acc input_, {[input_]} ∪ acc) acc
                               (inputs (deref σ child))) acc l
            ↔ o ∈ acc ∨ ∃ c, c ∈ l ∧ o ∈ inputs (deref σ c)).
  { induction l as [|x l IH]; intros acc; simpl.
    - split; [by left|]. intros [?|(c & ?%not_elem_of_nil & _)]; done.
    - rewrite IH, Hin. split.
      + intros [[?|?]|(c & ? & ?)]; [by left|right..].
        * exists x. split; [by left|done].
        * exists c. split; [by right|done].
      + intros [?|(c & [->|?]%elem_of_cons & ?)]; [by left; left|..].
        * by left; right.
        * right. eauto. }
  rewrite Hout. split; [|by right].
  intros [?%not_elem_of_empty|?]; done.
Qed.

(** C9: dangling-output elimination is idempotent: a second pass over the
    result of a first pass changes neither the graph nor any node; and a
    pass keeps an output of a node of the graph exactly when it is a
    declared graph output or an input of one of the children of the
    node. *)
Theorem C9_dangling_outputs_idempotent (g : Graph) σ :
  call (call g σ).1 (call g σ).2 = call g σ
  ∧ ∀ n o, n ∈ nodes g →
      (o ∈ outputs (deref (call g σ).2 n) ↔
       o ∈ outputs (deref σ n)
       ∧ (o ∈ (g_outputs g).*1
          ∨ ∃ c, c ∈ children (deref σ n) ∧ o ∈ inputs (deref σ c))).
Proof.
  split.
  - unfold call. simpl. f_equal.
    apply foldl_visit_settled_id, foldl_visit_settles.
  - intros n o Hn. unfold call. cbn [snd].
    rewrite foldl_visit_outputs, list_elem_of_filter by done.
    rewrite elem_of_children_inputs. unfold graph_output_names.
    rewrite elem_of_list_to_set. tauto.
Qed.
End DanglingOutputs.

(** ** Fallible computations *)

Lemma index_Some {A} (l : list A) i x : l !! i = Some x → index l i = Ok x.
Proof. unfold index. by intros ->. Qed.

Lemma getitem_Some {V} (d : gmap string V) k v :
  d !! k = Some v → getitem d k = Ok v.
Proof. unfold getitem. by intros ->. Qed.

Lemma list_remove_elem_of `{EqDecision A} (x : A) (l : list A) :
  x ∈ l → ∃ l', list_remove x l = Ok l'.
Proof.
  induction l as [|y l IH]; intros Hx; [by apply not_elem_of_nil in Hx|].
  simpl. destruct (decide (x = y)); [eauto|].
  apply elem_of_cons in Hx as [?|Hx]; [done|].
  destruct (IH Hx) as [l' ->]. simpl. eauto.
Qed.

(** ** Elementwise operations on vectors *)

Section NumpyProperties.
Context {R : Type} `{!ElemOps R}.

Lemma np_binop_vector (f : R → R → R) (a b : tensor R) n :
  t_shape a = [n] → t_shape b = [n] →
  length (t_data a) = n → length (t_data b) = n →
  np_binop f a b = Ok (mkTensor [n] (zip_with f (t_data a) (t_data b))).
Proof.
  intros Ha Hb Hla Hlb. unfold np_binop. rewrite Ha, Hb.
  change (reverse [n]) with [n]. simpl.
  rewrite decide_True by done. simpl. f_equal. f_equal.
  rewrite Nat.mul_1_r. apply list_eq. intros i.
  rewrite list_lookup_fmap, lookup_zip_with.
  destruct (decide (i < n)) as [Hi|Hi].
  - rewrite lookup_seq_lt by done. simpl.
    assert (Hidx : (if decide (n = 1) then 0 else i `mod` n) + n * 0 = i).
    { rewrite Nat.mul_0_r, Nat.add_0_r. case_decide.
      - lia.
      - by apply Nat.mod_small. }
    rewrite Hidx.
    destruct (lookup_lt_is_Some_2 (t_data a) i) as [x Hx]; [lia|].
    destruct (lookup_lt_is_Some_2 (t_data b) i) as [y Hy]; [lia|].
    rewrite Hx, Hy. simpl.
    by rewrite (nth_lookup_Some _ _ _ _ Hx), (nth_lookup_Some _ _ _ _ Hy).
  - rewrite lookup_seq_ge by lia. simpl.
    rewrite (lookup_ge_None_2 (t_data a)) by lia. done.
Qed.

Lemma zip_with_zeros_l (l : list R) n :
  (∀ x, e_add e_zero x = x) → length l = n →
  zip_with e_add (replicate n e_zero) l = l.
Proof.
  intros Hz <-. induction l as [|x l IH]; simpl; [done|].
  by rewrite Hz, IH.
Qed.

Lemma zip_with_diag (f : R → R → R) (l : list R) :
  zip_with f l l = (λ x, f x x) <$> l.
Proof. induction l as [|x l IH]; simpl; [done|]. by rewrite IH. Qed.

(** Adding a vector to the zero bias of its length, and a vector to
    itself. *)
Lemma np_add_zeros (b : tensor R) n :
  (∀ x, e_add e_zero x = x) →
  t_shape b = [n] → length (t_data b) = n →
  np_add (np_zeros n) b = Ok b.
Proof.
  intros Hz Hs Hl. unfold np_add.
  rewrite (np_binop_vector _ _ _ n); simpl; rewrite ?length_replicate; try done.
  rewrite zip_with_zeros_l by done. destruct b; simpl in *. by subst.
Qed.

Lemma np_add_self (b : tensor R) n (two : R) :
  (∀ x, e_add x x = e_mul two x) →
  t_shape b = [n] → length (t_data b) = n →
  np_add b b = Ok (mkTensor [n] (e_mul two <$> t_data b)).
Proof.
  intros H2 Hs Hl. unfold np_add.
  rewrite (np_binop_vector _ _ _ n) by done. rewrite zip_with_diag.
  do 2 f_equal. apply list_fmap_ext. intros. apply H2.
Qed.
Lemma nth_replicate_same (n i : nat) (d : R) : nth i (replicate n d) d = d.
Proof.
  revert i. induction n as [|n IH]; intros [|i]; simpl; auto.
Qed.

Lemma fmap_const_seq {A} (x : A) (m : nat) : ∀ start,
  (λ _ : nat, x) <$> seq start m = replicate m x.
Proof.
  induction m as [|m IH]; intros start; simpl; [done|]. by rewrite IH.
Qed.

(** Adding a one-element operand to the zero vector of length [n]: the
    operand is broadcast along the vector. *)
Lemma np_add_zeros_one (x : R) (n : nat) :
  (∀ y, e_add e_zero y = y) →
  np_add (mkTensor [n] (replicate n e_zero)) (mkTensor [1] [x])
  = Ok (mkTensor [n] (replicate n x)).
Proof.
  intros Hz. unfold np_add, np_binop. cbn [t_shape t_data].
  change (reverse [n]) with [n]. change (reverse [1]) with [1].
  assert (Hb : broadcast_dims [n] [1] = Ok [n]).
  { cbn [broadcast_dims]. destruct (decide (n = 1)) as [->|Hn]; [done|].
    cbn [mbind result_bind]. done. }
  rewrite Hb. cbn [mbind result_bind]. change (reverse [n]) with [n].
  f_equal. f_equal. cbn [foldr]. rewrite Nat.mul_1_r.
  rewrite <-(fmap_const_seq x n 0). apply list_fmap_ext. intros _ k _.
  cbn [unravel ravel]. rewrite nth_replicate_same, Hz.
  rewrite decide_True by done. done.
Qed.
End NumpyProperties.

(** ** The Conv-Add rule *)

Section ConvAdd.
Context {R : Type} `{!ElemOps R}.
Implicit Types (σ : gmap node_id (Node R)).
Import ConvAddFuser.

Lemma conv_add_merge_core σ g parent child wn weight oc rest bn b
    name bias σ1 new :
  parent ≠ child →
  inputs (deref σ parent) !! 1 = Some wn →
  input_tensors (deref σ parent) !! wn = Some weight →
  t_shape weight = oc :: rest →
  bias_of parent oc σ = Ok (name, bias, σ1) →
  deref σ1 child = deref σ child →
  children (deref σ1 parent) = children (deref σ parent) →
  inputs (deref σ child) !! 1 = Some bn →
  input_tensors (deref σ child) !! bn = Some b →
  np_add bias b = Ok new →
  child ∈ children (deref σ parent) →
  parent ∈ parents (deref σ child) →
  ∃ σ' cs,
    merge g [parent; child] σ = Ok ([parent], σ')
    ∧ deref σ' parent
      = set_children cs
          (set_outputs (outputs (deref σ child))
             (set_input_tensors (<[name := new]> (input_tensors (deref σ1 parent)))
                (deref σ1 parent))).
Proof.
  intros Hne Hwn Hw Hsh Hbias Hc1 Hch1 Hbn Hb Hadd Hchild Hparent.
  unfold merge. cbn [index lookup list_lookup mbind result_bind].
  rewrite (index_Some _ _ _ Hwn). cbn [mbind result_bind].
  rewrite (getitem_Some _ _ _ Hw). cbn [mbind result_bind].
  rewrite Hsh. cbn [index lookup list_lookup mbind result_bind].
  rewrite Hbias. cbn [mbind result_bind].
  rewrite Hc1, (index_Some _ _ _ Hbn). cbn [mbind result_bind].
  rewrite (getitem_Some _ _ _ Hb). cbn [mbind result_bind].
  rewrite Hadd. cbn [mbind result_bind].
  rewrite !deref_update_eq, !deref_update_ne by done. rewrite Hc1.
  cbn [children set_outputs set_input_tensors]. rewrite Hch1.
  destruct (list_remove_elem_of child _ Hchild) as [cs ->].
  cbn [mbind result_bind].
  rewrite !deref_update_ne by done. rewrite Hc1.
  destruct (list_remove_elem_of parent _ Hparent) as [ps ->].
  cbn [mbind result_bind].
  eexists _, cs. split; [done|].
  rewrite deref_update_ne by done.
  by rewrite !deref_update_eq.
Qed.

Lemma bias_of_present σ parent oc name bias :
  inputs (deref σ parent) !! 2 = Some name →
  input_tensors (deref σ parent) !! name = Some bias →
  bias_of parent oc σ = Ok (name, bias, σ).
Proof.
  intros Hn Hb. unfold bias_of.
  rewrite decide_True by (by apply lookup_lt_Some in Hn).
  rewrite (index_Some _ _ _ Hn). cbn [mbind result_bind].
  by rewrite (getitem_Some _ _ _ Hb).
Qed.

Lemma bias_of_absent σ parent oc :
  length (inputs (deref σ parent)) = 2 →
  ∃ σ1,
    bias_of parent oc σ
    = Ok (name (deref σ parent) +:+ "_bias", np_zeros oc, σ1)
    ∧ (∀ m, m ≠ parent → deref σ1 m = deref σ m)
    ∧ deref σ1 parent
      = set_input_tensors
          (<[name (deref σ parent) +:+ "_bias" := np_zeros oc]>
             (input_tensors (deref σ parent)))
          (set_inputs
             (inputs (deref σ parent) ++ [name (deref σ parent) +:+ "_bias"])
             (deref σ parent)).
Proof.
  intros Hl. unfold bias_of. rewrite decide_False by lia.
  eexists. split; [done|]. split.
  - intros m Hm. by rewrite !deref_update_ne.
  - by rewrite !deref_update_eq.
Qed.

(** C5: the merge of an eligible Conv → Add window adds the constant
    operand of the Add to the bias of the Conv, and the Conv takes over the
    outputs of the Add.  When the Conv has two inputs, the bias is created
    as the tensor of shape [(output_channels,)] whose elements are all
    zero: a one-element operand is broadcast to [output_channels]
    elements.  For a Conv without bias and a vector [b] of that length the
    fused node has three inputs and the bias [b]; for a Conv whose bias is
    the operand [b] of the Add, the fused bias is [2·b]. *)
Theorem C5_conv_add_merge σ g parent child wn weight oc rest bn b :
  parent ≠ child →
  is_eligible σ g [parent; child] = Ok true →
  child ∈ children (deref σ parent) →
  parent ∈ parents (deref σ child) →
  inputs (deref σ parent) !! 1 = Some wn →
  input_tensors (deref σ parent) !! wn = Some weight →
  t_shape weight = oc :: rest →
  inputs (deref σ child) !! 1 = Some bn →
  input_tensors (deref σ child) !! bn = Some b →
  (∀ nm bias new,
     inputs (deref σ parent) !! 2 = Some nm →
     input_tensors (deref σ parent) !! nm = Some bias →
     np_add bias b = Ok new →
     ∃ σ', merge g [parent; child] σ = Ok ([parent], σ')
           ∧ inputs (deref σ' parent) = inputs (deref σ parent)
           ∧ input_tensors (deref σ' parent)
             = <[nm := new]> (input_tensors (deref σ parent))
           ∧ outputs (deref σ' parent) = outputs (deref σ child))
  ∧ (∀ new,
       length (inputs (deref σ parent)) = 2 →
       np_add (mkTensor [oc] (replicate oc e_zero)) b = Ok new →
       ∃ σ', merge g [parent; child] σ = Ok ([parent], σ')
             ∧ inputs (deref σ' parent)
               = inputs (deref σ parent)
                 ++ [name (deref σ parent) +:+ "_bias"]
             ∧ input_tensors (deref σ' parent)
               = <[name (deref σ parent) +:+ "_bias" := new]>
                   (input_tensors (deref σ parent))
             ∧ outputs (deref σ' parent) = outputs (deref σ child))
  ∧ (length (inputs (deref σ parent)) = 2 →
     (∀ x : R, e_add e_zero x = x) →
     t_shape b = [oc] → length (t_data b) = oc →
     ∃ σ' nm, merge g [parent; child] σ = Ok ([parent], σ')
              ∧ length (inputs (deref σ' parent)) = 3
              ∧ inputs (deref σ' parent) !! 2 = Some nm
              ∧ input_tensors (deref σ' parent) !! nm = Some b
              ∧ outputs (deref σ' parent) = outputs (deref σ child))
  ∧ (∀ nm (two : R),
       inputs (deref σ parent) !! 2 = Some nm →
       input_tensors (deref σ parent) !! nm = Some b →
       (∀ x : R, e_add x x = e_mul two x) →
       t_shape b = [oc] → length (t_data b) = oc →
       ∃ σ', merge g [parent; child] σ = Ok ([parent], σ')
             ∧ length (inputs (deref σ' parent))
               = length (inputs (deref σ parent))
             ∧ input_tensors (deref σ' parent) !! nm
               = Some (mkTensor [oc] (e_mul two <$> t_data b))
             ∧ outputs (deref σ' parent) = outputs (deref σ child))
  ∧ (∀ x : R,
       length (inputs (deref σ parent)) = 2 →
       (∀ y : R, e_add e_zero y = y) →
       b = mkTensor [1] [x] →
       ∃ σ' nm, merge g [parent; child] σ = Ok ([parent], σ')
                ∧ inputs (deref σ' parent) !! 2 = Some nm
                ∧ input_tensors (deref σ' parent) !! nm
                  = Some (mkTensor [oc] (replicate oc x))).
Proof.
  intros Hne _ Hchild Hparent Hwn Hw Hsh Hbn Hb.
  assert (Hpresent : ∀ nm bias new,
     inputs (deref σ parent) !! 2 = Some nm →
     input_tensors (deref σ parent) !! nm = Some bias →
     np_add bias b = Ok new →
     ∃ σ', merge g [parent; child] σ = Ok ([parent], σ')
           ∧ inputs (deref σ' parent) = inputs (deref σ parent)
           ∧ input_tensors (deref σ' parent)
             = <[nm := new]> (input_tensors (deref σ parent))
           ∧ outputs (deref σ' parent) = outputs (deref σ child)).
  { intros nm bias new Hnm Hbias Hadd.
    destruct (conv_add_merge_core σ g parent child wn weight oc rest bn b
                nm bias σ new) as (σ' & cs & Hm & Hd);
      auto using bias_of_present.
    exists σ'. by rewrite Hd. }
  assert (Habsent : ∀ new,
     length (inputs (deref σ parent)) = 2 →
     np_add (mkTensor [oc] (replicate oc e_zero)) b = Ok new →
     ∃ σ', merge g [parent; child] σ = Ok ([parent], σ')
           ∧ inputs (deref σ' parent)
             = inputs (deref σ parent) ++ [name (deref σ parent) +:+ "_bias"]
           ∧ input_tensors (deref σ' parent)
             = <[name (deref σ parent) +:+ "_bias" := new]>
                 (input_tensors (deref σ parent))
           ∧ outputs (deref σ' parent) = outputs (deref σ child)).
  { intros new Hl Hadd.
    destruct (bias_of_absent σ parent oc Hl) as (σ1 & Hbias & Hoth & Hd1).
    destruct (conv_add_merge_core σ g parent child wn weight oc rest bn b
                (name (deref σ parent) +:+ "_bias") (np_zeros oc) σ1 new)
      as (σ' & cs & Hm & Hd); auto.
    { by rewrite Hd1. }
    exists σ'. rewrite Hd, Hd1. simpl. by rewrite insert_insert_eq. }
  split_and!; [done..| | |].
  - intros Hl Hz Hs Hlb.
    destruct (Habsent b Hl) as (σ' & Hm & Hi & Ht & Ho).
    { by apply (np_add_zeros b oc). }
    exists σ', (name (deref σ parent) +:+ "_bias").
    rewrite Hi, Ht, length_app, Hl. split_and!; [done..| | |done].
    + rewrite lookup_app_r by lia. by rewrite Hl.
    + by rewrite lookup_insert_eq.
  - intros nm two Hnm Hbias H2 Hs Hlb.
    destruct (Hpresent nm b (mkTensor [oc] (e_mul two <$> t_data b)))
      as (σ' & Hm & Hi & Ht & Ho); [done..| |].
    { by apply np_add_self. }
    exists σ'. rewrite Hi, Ht. split_and!; [done..| |done].
    by rewrite lookup_insert_eq.
  - intros x Hl Hz ->.
    destruct (Habsent (mkTensor [oc] (replicate oc x)) Hl)
      as (σ' & Hm & Hi & Ht & Ho).
    { by apply np_add_zeros_one. }
    exists σ', (name (deref σ parent) +:+ "_bias").
    rewrite Hi, Ht. split_and!; [done| |].
    + rewrite lookup_app_r by lia. by rewrite Hl.
    + by rewrite lookup_insert_eq.
Qed.
End ConvAdd.

(** The graph of the test [test_fuse_conv_without_bias]. *)
Lemma C5_conv_add_merge_witness :
  ∃ σ' nm,
    ConvAddFuser.merge Examples.ca_graph [0; 1] Examples.ca_heap
    = Ok ([0], σ')
    ∧ length (inputs (deref σ' 0)) = 3
    ∧ inputs (deref σ' 0) !! 2 = Some nm
    ∧ input_tensors (deref σ' 0) !! nm = Some Examples.ca_bias
    ∧ outputs (deref σ' 0) = outputs (deref Examples.ca_heap 1).
Proof.
  refine (proj1 (proj2 (proj2
    (C5_conv_add_merge Examples.ca_heap Examples.ca_graph 0 1
       "weight" Examples.ca_weight 2 [1; 1; 1] "bias" Examples.ca_bias
       _ _ _ _ _ _ _ _ _))) _ _ _ _);
    try (vm_compute; reflexivity); try (vm_compute; lia).
  - apply list_elem_of_In. vm_compute. auto.
  - apply list_elem_of_In. vm_compute. auto.
Defined.

(** ** The BatchNormalization-Mul rule *)

Section BNMul.
Context {R : Type} `{!ElemOps R}.
Implicit Types (σ : gmap node_id (Node R)).
Import BNBroadcastedMulFuser.

(** What the eligibility check establishes. *)
Lemma bn_mul_eligible σ g parent child :
  is_eligible σ g [parent; child] = Ok true →
  op_type (deref σ parent) = "BatchNormalization"
  ∧ op_type (deref σ child) = "Mul"
  ∧ attrs (deref σ child) !! "broadcast" = Some (AInt 1)
  ∧ attrs (deref σ child) !! "axis" = Some (AInt 1)
  ∧ ∃ wn W, inputs (deref σ child) !! 1 = Some wn
            ∧ input_tensors (deref σ child) !! wn = Some W.
Proof.
  unfold is_eligible, getitem.
  cbn [index lookup list_lookup mbind result_bind].
  repeat (case_decide; [discriminate|]).
  destruct (attrs (deref σ child) !! "broadcast") as [v|]; [|done].
  cbn [mbind result_bind].
  repeat (case_decide; [discriminate|]).
  destruct (attrs (deref σ child) !! "axis") as [v'|]; [|done].
  cbn [mbind result_bind].
  repeat (case_decide; [discriminate|]).
  unfold index.
  destruct (inputs (deref σ child) !! 1) as [wn|]; [|discriminate].
  cbn [mbind result_bind].
  case_decide as HW; [discriminate|].
  destruct (input_tensors (deref σ child) !! wn) as [W|] eqn:HWn; [|done].
  intros _. subst. split_and!; eauto.
Qed.

Lemma bn_mul_merge_core σ g parent child sn bn scale bias wn W ns nb :
  parent ≠ child →
  child ∈ children (deref σ parent) →
  parent ∈ parents (deref σ child) →
  inputs (deref σ parent) !! 1 = Some sn →
  inputs (deref σ parent) !! 2 = Some bn →
  input_tensors (deref σ parent) !! sn = Some scale →
  input_tensors (deref σ parent) !! bn = Some bias →
  inputs (deref σ child) !! 1 = Some wn →
  input_tensors (deref σ child) !! wn = Some W →
  np_multiply scale W = Ok ns →
  np_multiply bias W = Ok nb →
  ∃ σ' cs,
    merge g [parent; child] σ = Ok ([parent], σ')
    ∧ deref σ' parent
      = set_children cs
          (set_outputs (outputs (deref σ child))
             (set_input_tensors
                (<[bn := nb]> (<[sn := ns]> (input_tensors (deref σ parent))))
                (deref σ parent))).
Proof.
  intros Hne Hchild Hparent Hsn Hbn Hs Hb Hwn HW Hns Hnb.
  unfold merge. cbn [index lookup list_lookup mbind result_bind].
  rewrite (index_Some _ _ _ Hsn). cbn [mbind result_bind].
  rewrite (getitem_Some _ _ _ Hs). cbn [mbind result_bind].
  rewrite (index_Some _ _ _ Hbn). cbn [mbind result_bind].
  rewrite (getitem_Some _ _ _ Hb). cbn [mbind result_bind].
  rewrite (index_Some _ _ _ Hwn). cbn [mbind result_bind].
  rewrite (getitem_Some _ _ _ HW). cbn [mbind result_bind].
  rewrite Hns. cbn [mbind result_bind].
  rewrite Hnb. cbn [mbind result_bind].
  rewrite !deref_update_eq. cbn [inputs set_input_tensors].
  rewrite (index_Some _ _ _ Hbn). cbn [mbind result_bind].
  rewrite !deref_update_eq, !deref_update_ne by done.
  cbn [children set_outputs set_input_tensors].
  destruct (list_remove_elem_of child _ Hchild) as [cs ->].
  cbn [mbind result_bind].
  rewrite !deref_update_ne by done.
  destruct (list_remove_elem_of parent _ Hparent) as [ps ->].
  cbn [mbind result_bind].
  eexists _, cs. split; [done|].
  rewrite deref_update_ne by done.
  by rewrite !deref_update_eq.
Qed.

(** C6: the merge of an eligible BatchNormalization → Mul window, whose
    Mul has the constant second operand [W], replaces the scale of the
    BatchNormalization by [scale ⊙ W] and its bias by [bias ⊙ W], and the
    BatchNormalization takes over the outputs of the Mul.  For vectors of
    one length the products are taken element by element. *)
Theorem C6_bn_mul_merge σ g parent child sn bn scale bias :
  parent ≠ child →
  is_eligible σ g [parent; child] = Ok true →
  child ∈ children (deref σ parent) →
  parent ∈ parents (deref σ child) →
  inputs (deref σ parent) !! 1 = Some sn →
  inputs (deref σ parent) !! 2 = Some bn →
  input_tensors (deref σ parent) !! sn = Some scale →
  input_tensors (deref σ parent) !! bn = Some bias →
  ∃ wn W,
    attrs (deref σ child) !! "broadcast" = Some (AInt 1)
    ∧ attrs (deref σ child) !! "axis" = Some (AInt 1)
    ∧ inputs (deref σ child) !! 1 = Some wn
    ∧ input_tensors (deref σ child) !! wn = Some W
    ∧ (∀ ns nb,
         np_multiply scale W = Ok ns →
         np_multiply bias W = Ok nb →
         ∃ σ', merge g [parent; child] σ = Ok ([parent], σ')
               ∧ input_tensors (deref σ' parent) !! sn = Some ns
               ∧ input_tensors (deref σ' parent) !! bn = Some nb
               ∧ inputs (deref σ' parent) = inputs (deref σ parent)
               ∧ outputs (deref σ' parent) = outputs (deref σ child))
    ∧ (∀ n,
         t_shape scale = [n] → length (t_data scale) = n →
         t_shape bias = [n] → length (t_data bias) = n →
         t_shape W = [n] → length (t_data W) = n →
         ∃ σ', merge g [parent; child] σ = Ok ([parent], σ')
               ∧ input_tensors (deref σ' parent) !! sn
                 = Some (mkTensor [n]
                           (zip_with e_mul (t_data scale) (t_data W)))
               ∧ input_tensors (deref σ' parent) !! bn
                 = Some (mkTensor [n]
                           (zip_with e_mul (t_data bias) (t_data W)))
               ∧ outputs (deref σ' parent) = outputs (deref σ child)).
Proof.
  intros Hne Hel Hchild Hparent Hsn Hbn Hs Hb.
  destruct (bn_mul_eligible _ _ _ _ Hel)
    as (_ & _ & Hbr & Hax & wn & W & Hwn & HW).
  exists wn, W.
  assert (Hgen : ∀ ns nb,
         np_multiply scale W = Ok ns →
         np_multiply bias W = Ok nb →
         ∃ σ', merge g [parent; child] σ = Ok ([parent], σ')
               ∧ input_tensors (deref σ' parent) !! sn = Some ns
               ∧ input_tensors (deref σ' parent) !! bn = Some nb
               ∧ inputs (deref σ' parent) = inputs (deref σ parent)
               ∧ outputs (deref σ' parent) = outputs (deref σ child)).
  { intros ns nb Hns Hnb.
    destruct (bn_mul_merge_core σ g parent child sn bn scale bias wn W ns nb)
      as (σ' & cs & Hm & Hd); try done.
    exists σ'. rewrite Hd. simpl. split_and!; [done| |by rewrite lookup_insert_eq|done..].
    destruct (decide (bn = sn)) as [->|Hd'].
    - rewrite lookup_insert_eq. congruence.
    - by rewrite lookup_insert_ne, lookup_insert_eq. }
  split_and!; [done..|].
  intros n Hss Hsl Hbs Hbl HWs HWl.
  destruct (Hgen (mkTensor [n] (zip_with e_mul (t_data scale) (t_data W)))
                 (mkTensor [n] (zip_with e_mul (t_data bias) (t_data W))))
    as (σ' & Hm & H1 & H2 & _ & H3).
  - by apply np_binop_vector.
  - by apply np_binop_vector.
  - by exists σ'.
Qed.
End BNMul.

(** A BatchNormalization with scale [2, 3] and bias [5, 7] followed by a
    Mul by [10, 100]. *)
Lemma C6_bn_mul_merge_witness :
  ∃ σ',
    BNBroadcastedMulFuser.merge Examples.bn_graph [0; 1] Examples.bn_heap
    = Ok ([0], σ')
    ∧ input_tensors (deref σ' 0) !! "scale"
      = Some (mkTensor [2] [20; 300]%Z)
    ∧ input_tensors (deref σ' 0) !! "bias"
      = Some (mkTensor [2] [50; 700]%Z)
    ∧ outputs (deref σ' 0) = ["output0"].
Proof.
  destruct (C6_bn_mul_merge Examples.bn_heap Examples.bn_graph 0 1
              "scale" "bias" Examples.bn_scale Examples.bn_bias)
    as (wn & W & _ & _ & Hwn & HW & _ & Hvec);
    try (vm_compute; reflexivity); try (vm_compute; lia);
    try (apply list_elem_of_In; vm_compute; auto).
  injection Hwn as <-. injection HW as <-.
  destruct (Hvec 2) as (σ' & Hm & Hs & Hb & Ho); try reflexivity.
  exists σ'. split_and!; done.
Defined.

(** ** The pixel-shuffle rewrite *)

Section HeapAllocation.
Context {R : Type}.
Implicit Types (σ : gmap node_id (Node R)) (n m : node_id).

Lemma deref_insert_eq σ n (v : Node R) : deref (<[n := v]> σ) n = v.
Proof. unfold deref. by rewrite lookup_insert_eq. Qed.

Lemma deref_insert_ne σ n m (v : Node R) :
  n ≠ m → deref (<[n := v]> σ) m = deref σ m.
Proof. intros. unfold deref. by rewrite lookup_insert_ne. Qed.

Lemma dom_update σ n f : dom (update n f σ) = {[n]} ∪ dom σ.
Proof. unfold update. apply dom_insert_L. Qed.

Lemma dom_update_live σ n f : n ∈ dom σ → dom (update n f σ) = dom σ.
Proof. intros Hn. rewrite dom_update. set_solver. Qed.

Lemma fresh_not_live σ n : n ∈ dom σ → n ≠ fresh (dom σ).
Proof. intros Hn ->. by apply is_fresh in Hn. Qed.

Lemma add_child_unlinked σ n c :
  children (deref σ n) = [] → parents (deref σ c) = [] →
  add_child n c σ
  = Ok (update c (λ x, set_parents (parents x ++ [n]) x)
          (update n (λ x, set_children (children x ++ [c]) x) σ)).
Proof.
  intros Hc Hp. unfold add_child. rewrite Hc.
  rewrite decide_False by apply not_elem_of_nil.
  rewrite decide_False; [done|].
  rewrite deref_update. case_decide; subst; simpl; rewrite Hp;
    apply not_elem_of_nil.
Qed.
End HeapAllocation.

Ltac heap_simpl :=
  repeat first
    [ rewrite deref_update_eq
    | rewrite deref_insert_eq
    | rewrite deref_update_ne by congruence
    | rewrite deref_insert_ne by congruence ].

Section PixelShuffleMerge.
Context {R : Type}.
Variable unique_edge_name : gmap node_id (Node R) → Graph → string → string.
Implicit Types (σ : gmap node_id (Node R)).
Import PixelShuffleFuser.

(** C3 (amended): the merge of an eligible, linearly linked window
    Reshape → Transpose → Reshape returns five nodes: the first Reshape with
    the shape [C, s·s, H, W], the Transpose with the permutation
    [0, 2, 1, 3], a new Reshape to [C·H, s, s, W], a new Transpose with
    [0, 1, 3, 2], and the final Reshape with its own shape
    [d, C, H·s, W·s]; the five are linked parent to child in that order, and
    three edge names are taken from the generator: the outputs of the
    Transpose and of the two new nodes. *)
Theorem C3_pixel_shuffle_merge σ g r1 t1 r2 k :
  is_eligible σ g [r1; t1; r2] = Ok true →
  r1 ≠ t1 → r1 ≠ r2 → t1 ≠ r2 →
  r1 ∈ dom σ → t1 ∈ dom σ → r2 ∈ dom σ →
  children (deref σ r1) = [t1] →
  parents (deref σ t1) = [r1] →
  ∃ (C s H W d : Z) (a b : node_id) σ' (e1 e2 e3 : string),
    attrs (deref σ r1) !! "shape" = Some (AInts [1; C; s; s; H; W]%Z)
    ∧ attrs (deref σ r2) !! "shape" = Some (AInts [d; C; H * s; W * s]%Z)
    ∧ merge unique_edge_name g [r1; t1; r2] (mkFstate σ k)
      = Ok ([r1; t1; a; b; r2], mkFstate σ' (k + 3))
    ∧ (a ∉ dom σ ∧ b ∉ dom σ ∧ a ≠ b)
    ∧ (op_type (deref σ' r1) = "Reshape"
       ∧ attrs (deref σ' r1) !! "shape" = Some (AInts [C; s * s; H; W]%Z))
    ∧ (op_type (deref σ' t1) = "Transpose"
       ∧ attrs (deref σ' t1) !! "perm" = Some (AInts [0; 2; 1; 3]%Z))
    ∧ (op_type (deref σ' a) = "Reshape"
       ∧ attrs (deref σ' a) !! "shape" = Some (AInts [C * H; s; s; W]%Z))
    ∧ (op_type (deref σ' b) = "Transpose"
       ∧ attrs (deref σ' b) !! "perm" = Some (AInts [0; 1; 3; 2]%Z))
    ∧ (op_type (deref σ' r2) = "Reshape"
       ∧ attrs (deref σ' r2) !! "shape"
         = Some (AInts [d; C; H * s; W * s]%Z))
    ∧ (children (deref σ' r1) = [t1] ∧ parents (deref σ' t1) = [r1]
       ∧ children (deref σ' t1) = [a] ∧ parents (deref σ' a) = [t1]
       ∧ children (deref σ' a) = [b] ∧ parents (deref σ' b) = [a]
       ∧ children (deref σ' b) = [r2] ∧ parents (deref σ' r2) = [b])
    ∧ (outputs (deref σ' r1) = outputs (deref σ r1)
       ∧ inputs (deref σ' t1) = inputs (deref σ t1)
       ∧ outputs (deref σ' t1) = [e1] ∧ inputs (deref σ' a) = [e1]
       ∧ outputs (deref σ' a) = [e2] ∧ inputs (deref σ' b) = [e2]
       ∧ outputs (deref σ' b) = [e3] ∧ inputs (deref σ' r2) = [e3]
       ∧ outputs (deref σ' r2) = outputs (deref σ r2))
    ∧ ∃ σ1 σ2 σ3,
        e1 = unique_edge_name σ1 g
               ("pixel_shuffle_transpose" +:+ "_" +:+ str (k + 1))
        ∧ e2 = unique_edge_name σ2 g
                 ("pixel_shuffle_reshape" +:+ "_" +:+ str (k + 2))
        ∧ e3 = unique_edge_name σ3 g
                 ("pixel_shuffle_transpose" +:+ "_" +:+ str (k + 3)).
Proof.
  intros Hel H12 H13 H23 Hr1 Ht1 Hr2 Hc1 Hp1.
  apply pixel_shuffle_eligible_checked in Hel.
  destruct Hel as (Ho0 & Ho1 & Ho2 & C & s & H & W & d & Hs0 & Hperm & Hs2 & _).
  exists C, s, H, W, d.
  replace (k + 1) with (S k) by lia.
  replace (k + 2) with (S (S k)) by lia.
  replace (k + 3) with (S (S (S k))) by lia.
  unfold merge. cbn [index lookup list_lookup mbind result_bind heap num_added].
  set (σ1 := update t1 (set_children []) σ).
  assert (Hs1 : attrs (deref σ1 r1) !! "shape"
                = Some (AInts [1; C; s; s; H; W]%Z)).
  { unfold σ1. by heap_simpl. }
  rewrite (getitem_Some _ _ _ Hs1).
  cbn [index lookup list_lookup mbind result_bind heap num_added].
  unfold get_unique_edge_name. cbn [heap num_added].
  set (σ2 := update r1 _ σ1).
  set (σ3 := update t1 _ σ2).
  set (e1 := unique_edge_name σ3 _ _).
  set (σ4 := update t1 (set_outputs [e1]) σ3).
  set (e2 := unique_edge_name σ4 _ _).
  unfold alloc at 1. cbn zeta.
  set (a := fresh (dom σ4)).
  assert (Hdom4 : dom σ4 = dom σ).
  { assert (Hd1 : dom σ1 = dom σ) by (by apply dom_update_live).
    assert (Hd2 : dom σ2 = dom σ).
    { unfold σ2. rewrite dom_update_live; [done|by rewrite Hd1]. }
    assert (Hd3 : dom σ3 = dom σ).
    { unfold σ3. rewrite dom_update_live; [done|by rewrite Hd2]. }
    unfold σ4. rewrite dom_update_live; [done|by rewrite Hd3]. }
  assert (Ha1 : r1 ≠ a) by (apply fresh_not_live; by rewrite Hdom4).
  assert (Ha2 : t1 ≠ a) by (apply fresh_not_live; by rewrite Hdom4).
  assert (Ha3 : r2 ≠ a) by (apply fresh_not_live; by rewrite Hdom4).
  set (σ5 := <[a := _]> σ4).
  rewrite (add_child_unlinked σ5 t1 a);
    [|unfold σ5, σ4, σ3, σ2, σ1; by heap_simpl..].
  cbn [mbind result_bind].
  set (σ6 := update a _ (update t1 _ σ5)).
  set (e3 := unique_edge_name σ6 _ _).
  unfold alloc at 1. cbn zeta.
  set (b := fresh (dom σ6)).
  assert (Hdom6 : dom σ6 = {[a]} ∪ dom σ).
  { assert (Hd5 : dom σ5 = {[a]} ∪ dom σ).
    { unfold σ5. by rewrite dom_insert_L, Hdom4. }
    unfold σ6. rewrite !dom_update_live; [done|..].
    - rewrite Hd5. by apply elem_of_union_r.
    - rewrite dom_update_live, Hd5.
      + apply elem_of_union_l. by apply elem_of_singleton.
      + rewrite Hd5. by apply elem_of_union_r. }
  assert (Hb1 : r1 ≠ b) by (apply fresh_not_live; rewrite Hdom6; by apply elem_of_union_r).
  assert (Hb2 : t1 ≠ b) by (apply fresh_not_live; rewrite Hdom6; by apply elem_of_union_r).
  assert (Hb3 : r2 ≠ b) by (apply fresh_not_live; rewrite Hdom6; by apply elem_of_union_r).
  assert (Hb4 : a ≠ b)
    by (apply fresh_not_live; rewrite Hdom6; apply elem_of_union_l;
        by apply elem_of_singleton).
  set (σ7 := <[b := _]> σ6).
  rewrite (add_child_unlinked σ7 a b);
    [|unfold σ7, σ6, σ5, σ4, σ3, σ2, σ1; by heap_simpl..].
  cbn [mbind result_bind].
  set (σ8 := update b _ (update a _ σ7)).
  set (σ9 := update r2 (set_inputs _) σ8).
  set (σ10 := update r2 (set_parents []) σ9).
  rewrite (add_child_unlinked σ10 b r2);
    [|unfold σ10, σ9, σ8, σ7, σ6, σ5, σ4, σ3, σ2, σ1; by heap_simpl..].
  cbn [mbind result_bind].
  set (σ11 := update r2 _ (update b _ σ10)).
  exists a, b, σ11, e1, e2, e3.
  assert (Hfa : a ∉ dom σ).
  { rewrite <-Hdom4. apply is_fresh. }
  assert (Hfb : b ∉ dom σ).
  { intros Hb. apply (is_fresh (dom σ6)). fold b. rewrite Hdom6.
    by apply elem_of_union_r. }
  split; [exact Hs0|]. split; [exact Hs2|]. split; [reflexivity|].
  split; [by split_and!|].
  assert (Hna : ∃ σ1 σ2 σ3,
        e1 = unique_edge_name σ1 g
               ("pixel_shuffle_transpose" +:+ "_" +:+ str (S k))
        ∧ e2 = unique_edge_name σ2 g
                 ("pixel_shuffle_reshape" +:+ "_" +:+ str (S (S k)))
        ∧ e3 = unique_edge_name σ3 g
                 ("pixel_shuffle_transpose" +:+ "_" +:+ str (S (S (S k)))))
    by (by exists σ3, σ4, σ6).
  repeat match goal with |- _ ∧ _ => split end; [..|exact Hna];
    unfold σ11, σ10, σ9, σ8, σ7, σ6, σ5, σ4, σ3, σ2, σ1; heap_simpl;
    cbn [Node_new op_type attrs inputs outputs parents children
         set_attrs set_inputs set_outputs set_parents set_children app];
    rewrite ?lookup_insert_eq, ?lookup_singleton_eq, ?Hc1, ?Hp1;
    first [reflexivity | assumption].
Qed.
End PixelShuffleMerge.

(** The pixel shuffle of the test: [C = 2], [s = 2], [H = 2], [W = 2]. *)
Lemma C3_pixel_shuffle_merge_witness :
  ∃ a b st',
    PixelShuffleFuser.merge Examples.same_name Examples.ps_graph [0; 1; 2]
      (mkFstate (Examples.ps_heap 1) 0)
    = Ok ([0; 1; a; b; 2], st')
    ∧ num_added st' = 3
    ∧ op_type (deref (heap st') a) = "Reshape"
    ∧ op_type (deref (heap st') b) = "Transpose".
Proof.
  assert (Hlive : ∀ n, n < 3 → n ∈ dom (Examples.ps_heap 1)).
  { intros n Hn.
    destruct n as [|[|[|n]]];
      [eapply elem_of_dom_2; vm_compute; reflexivity..|lia]. }
  destruct (C3_pixel_shuffle_merge Examples.same_name (Examples.ps_heap 1)
              Examples.ps_graph 0 1 2 0)
    as (C & s & H & W & d & a & b & σ' & e1 & e2 & e3
        & _ & _ & Hm & _ & _ & _ & [Ha _] & [Hb _] & _).
  - vm_compute. reflexivity.
  - lia.
  - lia.
  - lia.
  - apply Hlive. lia.
  - apply Hlive. lia.
  - apply Hlive. lia.
  - vm_compute. reflexivity.
  - vm_compute. reflexivity.
  - exists a, b, (mkFstate σ' 3).
    split; [exact Hm|]. split; [reflexivity|]. split; [exact Ha|exact Hb].
Defined.

(** C3, as stated, fails on the pixel shuffle of the test: the merge
    takes three names from the generator, the outputs of the Transpose and
    of the two new nodes, and none of them is an edge of the graph before
    the merge.  And the final Reshape keeps its shape: where its leading
    dimension is 2, the fifth node does not reshape to [1, C, H·s, W·s]. *)
Lemma C3_three_names_generated :
  (∃ a b st',
     PixelShuffleFuser.merge Examples.same_name Examples.ps_graph [0; 1; 2]
       (mkFstate (Examples.ps_heap 1) 0)
     = Ok ([0; 1; a; b; 2], st')
     ∧ num_added st' = 3
     ∧ num_added st' ≠ 0 + 2
     ∧ outputs (deref (heap st') 1) = ["pixel_shuffle_transpose_1"]
     ∧ outputs (deref (heap st') a) = ["pixel_shuffle_reshape_2"]
     ∧ outputs (deref (heap st') b) = ["pixel_shuffle_transpose_3"])
  ∧ (∃ a b st',
       PixelShuffleFuser.is_eligible (Examples.ps_heap 2) Examples.ps_graph
         [0; 1; 2] = Ok true
       ∧ PixelShuffleFuser.merge Examples.same_name Examples.ps_graph
           [0; 1; 2] (mkFstate (Examples.ps_heap 2) 0)
         = Ok ([0; 1; a; b; 2], st')
       ∧ attrs (deref (heap st') 2) !! "shape"
         = Some (AInts [2; 2; 4; 4]%Z)).
Proof.
  split.
  - eexists _, _, _. split; [vm_compute; reflexivity|].
    split_and!; try (vm_compute; reflexivity). vm_compute. lia.
  - eexists _, _, _. split_and!; vm_compute; reflexivity.
Qed.

(** ** Constant-reshape folding *)

Section ListRemove.
Context `{EqDecision A}.
Implicit Types (x : A) (l : list A).

Lemma list_remove_Ok x l l' :
  list_remove x l = Ok l' →
  x ∈ l ∧ l' `sublist_of` l ∧ (NoDup l → x ∉ l').
Proof.
  revert l'. induction l as [|y l IH]; intros l'; simpl; [done|].
  destruct (decide (x = y)) as [->|Hne].
  - intros [= ->]. split_and!; [by left|by apply sublist_cons|].
    by intros [? ?]%NoDup_cons.
  - destruct (list_remove x l) as [l0|] eqn:Hl; [|done]. simpl.
    intros [= <-]. destruct (IH l0 eq_refl) as (Hin & Hsub & Hnd).
    split_and!; [by right|by apply sublist_skip|].
    intros [? ?]%NoDup_cons [?|?]%elem_of_cons; [done|]. by apply Hnd.
Qed.
End ListRemove.

Lemma foldM_app {A S} (f : A → S → result S) (l1 l2 : list A) (s : S) :
  foldM f (l1 ++ l2) s = s' ← foldM f l1 s; foldM f l2 s'.
Proof.
  revert s. induction l1 as [|x l1 IH]; intros s; simpl; [done|].
  destruct (f x s); simpl; [apply IH|done].
Qed.

Section ReshapeFolding.
Context {R : Type} `{!ElemOps R}.
Implicit Types (σ : gmap node_id (Node R)) (n m c : node_id).
Import ReshapeInitTensorFuser.

Lemma shrinks_refl σ : shrinks σ σ.
Proof. intros x. split_and!; done. Qed.

Lemma shrinks_trans σ σ1 σ2 : shrinks σ σ1 → shrinks σ1 σ2 → shrinks σ σ2.
Proof.
  intros H1 H2 x.
  destruct (H1 x) as (? & ? & ? & ? & ? & ? & Hs1 & He1).
  destruct (H2 x) as (? & ? & ? & ? & ? & ? & Hs2 & He2).
  split_and!; try congruence.
  - by etrans.
  - intros Hp. rewrite He2, He1; [done..|]. by rewrite He1.
Qed.

Lemma attach_Ok n out t c σ σ1 :
  attach n out t c σ = Ok σ1 →
  ∃ ps, list_remove n (parents (deref σ c)) = Ok ps
        ∧ deref σ1 c
          = set_input_tensors (<[out := t]> (input_tensors (deref σ c)))
              (set_parents ps (deref σ c))
        ∧ ∀ x, x ≠ c → deref σ1 x = deref σ x.
Proof.
  unfold attach.
  destruct (list_remove n (parents (deref σ c))) as [ps|] eqn:Hps; [|done].
  simpl. intros [= <-]. exists ps. split_and!; [done| |].
  - by rewrite !deref_update_eq.
  - intros x Hx. by rewrite !deref_update_ne.
Qed.

Lemma attach_shrinks n out t c σ σ1 :
  attach n out t c σ = Ok σ1 → shrinks σ σ1.
Proof.
  intros (ps & Hps & Hc & Hx)%attach_Ok x.
  destruct (decide (x = c)) as [->|Hne].
  - rewrite Hc. simpl. apply list_remove_Ok in Hps as (Hin & Hsub & _).
    split_and!; try done. intros Hp. rewrite Hp in Hin.
    by apply not_elem_of_nil in Hin.
  - rewrite Hx by done. split_and!; done.
Qed.

Lemma foldM_attach_shrinks n out t (l : list node_id) : ∀ σ σ1,
  foldM (attach n out t) l σ = Ok σ1 → shrinks σ σ1.
Proof.
  induction l as [|c l IH]; intros σ σ1; simpl.
  - intros [= <-]. apply shrinks_refl.
  - destruct (attach n out t c σ) as [σ0|] eqn:Ha;
      cbn [mbind result_bind]; [|done].
    intros Hf. eapply shrinks_trans; [by eapply attach_shrinks|by apply IH].
Qed.

(** After the loop over the children: every child carries the tensor under
    the name of the output, and no longer lists the node among its parents
    (where it listed it once). *)
Lemma foldM_attach_children n out t (l : list node_id) : ∀ σ σ1,
  foldM (attach n out t) l σ = Ok σ1 →
  (∀ x, input_tensors (deref σ x) !! out = Some t ∨ x ∈ l →
        input_tensors (deref σ1 x) !! out = Some t)
  ∧ (∀ x k, k ≠ out →
        input_tensors (deref σ1 x) !! k = input_tensors (deref σ x) !! k)
  ∧ (∀ x, NoDup (parents (deref σ x)) →
          n ∉ parents (deref σ x) ∨ x ∈ l → n ∉ parents (deref σ1 x))
  ∧ (∀ x, x ∉ l → deref σ1 x = deref σ x).
Proof.
  induction l as [|c l IH]; intros σ σ1; simpl.
  - intros [= <-]. split_and!; try done.
    + intros x [?|Hx]; [done|]. by apply not_elem_of_nil in Hx.
    + intros x _ [?|Hx]; [done|]. by apply not_elem_of_nil in Hx.
  - destruct (attach n out t c σ) as [σ0|] eqn:Ha;
      cbn [mbind result_bind]; [|done].
    intros Hf. destruct (IH _ _ Hf) as (IHt & IHk & IHp & IHo).
    pose proof (attach_shrinks _ _ _ _ _ _ Ha) as Hsh.
    apply attach_Ok in Ha as (ps & Hps & Hc & Hx).
    apply list_remove_Ok in Hps as (Hin & Hsub & Hnd).
    split_and!.
    + intros x Hcase. apply IHt.
      destruct (decide (x = c)) as [->|Hne].
      * left. rewrite Hc. simpl. by rewrite lookup_insert_eq.
      * rewrite Hx by done. destruct Hcase as [?|Hel]; [by left|].
        apply elem_of_cons in Hel as [?|?]; [done|by right].
    + intros x k Hk. rewrite IHk by done.
      destruct (decide (x = c)) as [->|Hne].
      * rewrite Hc. simpl. by rewrite lookup_insert_ne.
      * by rewrite Hx.
    + intros x Hndx Hcase. apply IHp.
      * destruct (Hsh x) as (_ & _ & _ & _ & _ & _ & Hs & _).
        by eapply sublist_NoDup.
      * destruct (decide (x = c)) as [->|Hne].
        -- left. rewrite Hc. simpl. by apply Hnd.
        -- rewrite Hx by done. destruct Hcase as [?|Hel]; [by left|].
           apply elem_of_cons in Hel as [?|?]; [done|by right].
    + intros x Hel. apply not_elem_of_cons in Hel as [? ?].
      rewrite IHo by done. by apply Hx.
Qed.

(** The reshape keeps the elements and their number. *)
Lemma np_reshape_data (t t' : tensor R) shape :
  np_reshape t shape = Ok t' → t_data t' = t_data t.
Proof.
  unfold np_reshape. case_decide; [done|].
  destruct (length _) as [|[|?]]; [| |done]; case_decide; try done;
    by intros [= <-].
Qed.

Lemma reshape_to_data (t t' : tensor R) shape :
  reshape_to t shape = Ok t' → t_data t' = t_data t.
Proof.
  destruct shape as [z|l|s]; simpl; [done| |].
  - apply np_reshape_data.
  - case_decide; [apply np_reshape_data|done].
Qed.
End ReshapeFolding.
Section ReshapeSize.
Context {R : Type} `{!ElemOps R}.
Import ReshapeInitTensorFuser.

Lemma prod_resolved (l : list Z) (v : Z) :
  Forall (λ d, -1 ≤ d)%Z l → (0 ≤ v)%Z →
  Z.of_nat (foldr Nat.mul 1
              ((λ d, if decide (d = (-1)%Z) then Z.to_nat v else Z.to_nat d)
               <$> l))
  = (foldr Z.mul 1 (filter (λ d, d ≠ (-1)%Z) l)
     * v ^ Z.of_nat (length (filter (λ d, d = (-1)%Z) l)))%Z.
Proof.
  intros Hl Hv. induction Hl as [|d l Hd Hl IH]; [done|].
  rewrite fmap_cons. cbn [foldr]. rewrite Nat2Z.inj_mul, IH.
  rewrite !filter_cons. destruct (decide (d = (-1)%Z)) as [->|Hne].
  - rewrite decide_False by (intros ?; done). cbn [length].
    rewrite Nat2Z.inj_succ, Z.pow_succ_r by lia. rewrite Z2Nat.id by done. lia.
  - rewrite decide_True by done. cbn [foldr]. rewrite Z2Nat.id by lia. lia.
Qed.

Lemma np_reshape_Ok (t t' : tensor R) (shape : list Z) :
  np_reshape t shape = Ok t' →
  t_data t' = t_data t
  ∧ np_size t' = np_size t
  ∧ Forall2 (λ d d', d = (-1)%Z ∨ d = Z.of_nat d') shape (t_shape t').
Proof.
  unfold np_reshape. case_decide as Hneg; [done|].
  assert (Hl : Forall (λ d, -1 ≤ d)%Z shape).
  { apply Forall_forall. intros d Hd.
    destruct (decide (d < -1)%Z); [|lia].
    exfalso. apply Hneg, Exists_exists. eauto. }
  pose proof (prod_resolved shape) as Hprod.
  destruct (length (filter (λ d, d = (-1)%Z) shape)) as [|[|?]] eqn:Hu;
    [| |done]; case_decide as Hk; try done; intros [= <-].
  - assert (Hno : Forall (λ d, d ≠ (-1)%Z) shape).
    { apply Forall_forall. intros d Hd ->.
      apply length_zero_iff_nil in Hu.
      assert (Hin : (-1)%Z ∈ filter (λ d, d = (-1)%Z) shape)
        by (by apply list_elem_of_filter).
      rewrite Hu in Hin. by apply not_elem_of_nil in Hin. }
    assert (Hmap : Z.to_nat <$> shape
                   = (λ d, if decide (d = (-1)%Z) then Z.to_nat 0
                           else Z.to_nat d) <$> shape).
    { apply Forall_fmap_ext_1. eapply Forall_impl; [exact Hno|].
      intros d Hd. by rewrite decide_False. }
    split_and!; [done| |].
    + unfold np_size at 1. cbn [t_shape]. apply Nat2Z.inj.
      rewrite Hmap, (Hprod 0%Z) by done. rewrite Hk.
      change (0 ^ Z.of_nat 0)%Z with 1%Z. apply Z.mul_1_r.
    + simpl. apply Forall2_fmap_r, Forall_Forall2_diag.
      eapply Forall_impl; [exact Hl|]. intros d Hd. simpl in *.
      destruct (decide (d = (-1)%Z)); [by left|right; lia].
  - set (size := Z.of_nat (np_size t)) in *.
    set (known := foldr Z.mul 1%Z (filter (λ d, d ≠ (-1)%Z) shape)) in *.
    assert (Hknown : (0 ≤ known)%Z).
    { specialize (Hprod 1%Z Hl). rewrite Z.pow_1_l in Hprod by lia.
      unfold known. lia. }
    assert (Hv : (0 ≤ size `div` known)%Z).
    { apply Z.div_pos; unfold size; lia. }
    split_and!; [done| |].
    + unfold np_size at 1. cbn [t_shape]. apply Nat2Z.inj.
      rewrite (Hprod (size `div` known)%Z) by done. fold known.
      change (Z.of_nat 1) with 1%Z. rewrite Z.pow_1_r.
      fold size. rewrite <-Z.div_exact in Hk by lia. lia.
    + simpl. apply Forall2_fmap_r, Forall_Forall2_diag.
      eapply Forall_impl; [exact Hl|]. intros d Hd. simpl in *.
      destruct (decide (d = (-1)%Z)); [by left|right; lia].
Qed.
End ReshapeSize.
Section ReshapeFoldingPass.
Context {R : Type} `{!ElemOps R}.
Implicit Types (σ : gmap node_id (Node R)) (n m c : node_id).
Import ReshapeInitTensorFuser.

Lemma reshape_to_Ok (t t' : tensor R) shape :
  reshape_to t shape = Ok t' →
  t_data t' = t_data t ∧ np_size t' = np_size t.
Proof.
  destruct shape as [z|l|s]; simpl; [done| |].
  - intros (? & ? & _)%np_reshape_Ok. done.
  - case_decide; [|done]. intros (? & ? & _)%np_reshape_Ok. done.
Qed.

(** The shape of the reshaped tensor: it has the dimensions the attribute
    gives, but for the dimension -1, which the size of the tensor
    settles. *)
Lemma reshape_to_shape (t t' : tensor R) shape :
  reshape_to t shape = Ok t' →
  ∃ dims : list Z,
    (shape = AInts dims ∨ shape = AStr "" ∧ dims = [])
    ∧ Forall2 (λ d d', d = (-1)%Z ∨ d = Z.of_nat d') dims (t_shape t')
    ∧ ((-1)%Z ∉ dims → t_shape t' = Z.to_nat <$> dims).
Proof.
  intros Hr.
  assert (∃ dims : list Z,
            (shape = AInts dims ∨ shape = AStr "" ∧ dims = [])
            ∧ np_reshape t dims = Ok t') as (dims & Hs & Hn).
  { destruct shape as [z|l|str]; simpl in Hr; [done|by eauto|].
    case_decide; [|done]. subst. by eauto. }
  exists dims. split; [done|].
  apply np_reshape_Ok in Hn as (_ & _ & Hall). split; [done|].
  clear Hs. induction Hall as [|d d' l l' Hd _ IH]; intros Hno; [done|].
  apply not_elem_of_cons in Hno as [Hne Hno]. rewrite fmap_cons.
  rewrite IH by done. destruct Hd as [-> | ->]; [done|].
  by rewrite Nat2Z.id.
Qed.

(** A visit that completes either leaves the state as it is or folds the
    node. *)
Lemma visit_Ok m σ rem σ1 rem1 :
  visit m (σ, rem) = Ok (σ1, rem1) →
  (σ1 = σ ∧ rem1 = rem)
  ∨ (rem1 = rem ++ [m]
     ∧ ∃ out t', outputs (deref σ m) !! 0 = Some out
                 ∧ foldM (attach m out t') (children (deref σ m)) σ = Ok σ1).
Proof.
  unfold visit.
  destruct (decide (op_type (deref σ m) ≠ "Reshape"));
    [intros [= <- <-]; by left|].
  destruct (decide (size (input_tensors (deref σ m)) ≠ 1));
    [intros [= <- <-]; by left|].
  destruct (index (map_to_list (input_tensors (deref σ m))).*1 0)
    as [tn|]; cbn [mbind result_bind]; [|done].
  destruct (index (inputs (deref σ m)) 0) as [i0|];
    cbn [mbind result_bind]; [|done].
  destruct (decide (tn ≠ i0)); [intros [= <- <-]; by left|].
  destruct (decide (length (parents (deref σ m)) ≠ 0)); [done|].
  unfold index at 1.
  destruct (outputs (deref σ m) !! 0) as [out|]; cbn [mbind result_bind]; [|done].
  destruct (getitem _ tn) as [t|]; cbn [mbind result_bind]; [|done].
  destruct (getitem _ "shape") as [shp|]; cbn [mbind result_bind]; [|done].
  destruct (reshape_to t shp) as [t'|]; cbn [mbind result_bind]; [|done].
  destruct (foldM _ _ σ) as [σ0|] eqn:Hf; cbn [mbind result_bind]; [|done].
  intros [= <- <-]. right. eauto.
Qed.

(** The visit of a Reshape whose only literal tensor is its first input. *)
Lemma visit_folds n σ rem σ1 rem1 tn t :
  op_type (deref σ n) = "Reshape" →
  input_tensors (deref σ n) = {[tn := t]} →
  inputs (deref σ n) !! 0 = Some tn →
  visit n (σ, rem) = Ok (σ1, rem1) →
  rem1 = rem ++ [n]
  ∧ parents (deref σ n) = []
  ∧ ∃ out shape t',
      outputs (deref σ n) !! 0 = Some out
      ∧ attrs (deref σ n) !! "shape" = Some shape
      ∧ reshape_to t shape = Ok t'
      ∧ foldM (attach n out t') (children (deref σ n)) σ = Ok σ1.
Proof.
  intros Hop Ht Hi. unfold visit. rewrite Hop, Ht, map_size_singleton.
  rewrite decide_False by (intros ?; done).
  rewrite decide_False by (intros ?; done).
  rewrite map_to_list_singleton. cbn [fmap list_fmap fst index lookup
    list_lookup mbind result_bind].
  rewrite (index_Some _ _ _ Hi). cbn [mbind result_bind].
  rewrite decide_False by (intros ?; done).
  case_decide as Hp; [done|].
  unfold index, getitem. rewrite lookup_singleton_eq.
  destruct (outputs (deref σ n) !! 0) as [out|]; cbn [mbind result_bind]; [|done].
  destruct (attrs (deref σ n) !! "shape") as [shp|]; cbn [mbind result_bind]; [|done].
  destruct (reshape_to t shp) as [t'|] eqn:Hr; cbn [mbind result_bind]; [|done].
  destruct (foldM _ _ σ) as [σ0|] eqn:Hf; cbn [mbind result_bind]; [|done].
  intros [= <- <-]. split_and!; [done| |by eauto 10].
  destruct (parents (deref σ n)); [done|]. simpl in Hp. lia.
Qed.

Lemma visit_shrinks m σ rem σ1 rem1 :
  visit m (σ, rem) = Ok (σ1, rem1) →
  shrinks σ σ1
  ∧ (∀ x, x ∈ rem → x ∈ rem1)
  ∧ (∀ k, outputs (deref σ m) !! 0 ≠ Some k →
          ∀ x, input_tensors (deref σ1 x) !! k
               = input_tensors (deref σ x) !! k).
Proof.
  intros [[-> ->]|(-> & out & t' & Hout & Hf)]%visit_Ok.
  - split_and!; [apply shrinks_refl|done..].
  - split_and!.
    + by eapply foldM_attach_shrinks.
    + intros x Hx. apply elem_of_app. by left.
    + intros k Hk x.
      apply foldM_attach_children in Hf as (_ & Hkeep & _).
      apply Hkeep. congruence.
Qed.

Lemma foldM_visit_shrinks (l : list node_id) : ∀ σ rem σ1 rem1,
  foldM visit l (σ, rem) = Ok (σ1, rem1) →
  shrinks σ σ1
  ∧ (∀ x, x ∈ rem → x ∈ rem1)
  ∧ (∀ k, (∀ m, m ∈ l → outputs (deref σ m) !! 0 ≠ Some k) →
          ∀ x, input_tensors (deref σ1 x) !! k
               = input_tensors (deref σ x) !! k).
Proof.
  induction l as [|m l IH]; intros σ rem σ1 rem1; cbn [foldM].
  - intros [= <- <-]. split_and!; [apply shrinks_refl|done..].
  - destruct (visit m (σ, rem)) as [[σ0 rem0]|] eqn:Hv;
      cbn [mbind result_bind]; [|done].
    intros Hf. apply visit_shrinks in Hv as (Hs0 & Hr0 & Hk0).
    apply IH in Hf as (Hs1 & Hr1 & Hk1). split_and!.
    + by eapply shrinks_trans.
    + auto.
    + intros k Hk x. rewrite Hk1, Hk0; [done| |].
      * apply Hk. by left.
      * intros m' Hm'. destruct (Hs0 m') as (_ & _ & _ & _ & -> & _).
        apply Hk. by right.
Qed.

(** C7: a Reshape without parents whose only literal tensor is its first
    input is folded by a pass that completes: the literal is reshaped to
    the [shape] attribute of the node, with the same elements in the same
    order and with the dimensions of the attribute (the dimension -1 is
    the one that keeps the size); the node is not among the nodes of the
    result; every child carries the reshaped tensor as a literal under the
    name of the first output of the Reshape (no other node of the graph
    has that first output); and no node lists the Reshape among its
    parents any more (every node that listed it did so once and is one of
    its children). *)
Theorem C7_constant_reshape_folding (g g' : Graph) σ σ' n tn t :
  call g σ = Ok (g', σ') →
  NoDup (nodes g) →
  n ∈ nodes g →
  op_type (deref σ n) = "Reshape" →
  input_tensors (deref σ n) = {[tn := t]} →
  inputs (deref σ n) !! 0 = Some tn →
  parents (deref σ n) = [] →
  ∃ out shape t',
    outputs (deref σ n) !! 0 = Some out
    ∧ attrs (deref σ n) !! "shape" = Some shape
    ∧ reshape_to t shape = Ok t'
    ∧ t_data t' = t_data t
    ∧ np_size t' = np_size t
    ∧ (∃ dims : list Z,
         (shape = AInts dims ∨ shape = AStr "" ∧ dims = [])
         ∧ Forall2 (λ d d', d = (-1)%Z ∨ d = Z.of_nat d') dims (t_shape t')
         ∧ ((-1)%Z ∉ dims → t_shape t' = Z.to_nat <$> dims))
    ∧ n ∉ nodes g'
    ∧ ((∀ m, m ∈ nodes g → m ≠ n → outputs (deref σ m) !! 0 ≠ Some out) →
       ∀ c, c ∈ children (deref σ n) →
            input_tensors (deref σ' c) !! out = Some t')
    ∧ ((∀ m, n ∈ parents (deref σ m) →
             m ∈ children (deref σ n) ∧ NoDup (parents (deref σ m))) →
       ∀ m, n ∉ parents (deref σ' m)).
Proof.
  intros Hcall Hnd Hn Hop Ht Hi Hp. unfold call in Hcall.
  destruct (foldM visit (nodes g) (σ, [])) as [[σf remf]|] eqn:Hf;
    cbn [mbind result_bind] in Hcall; [|done]. injection Hcall as <- <-.
  apply list_elem_of_split in Hn as (l1 & l2 & Hl). rewrite Hl in Hf, Hnd.
  apply NoDup_app in Hnd as (_ & Hn1 & [Hn2 _]%NoDup_cons).
  rewrite foldM_app in Hf.
  destruct (foldM visit l1 (σ, [])) as [[σa ra]|] eqn:Ha;
    cbn [mbind result_bind foldM] in Hf; [|done].
  destruct (visit n (σa, ra)) as [[σb rb]|] eqn:Hv;
    cbn [mbind result_bind] in Hf; [|done].
  apply foldM_visit_shrinks in Ha as (Hsa & _ & _).
  apply foldM_visit_shrinks in Hf as (Hsf & Hrf & Hkf).
  destruct (Hsa n) as (_ & _ & _ & _ & _ & _ & _ & Hsame).
  specialize (Hsame Hp).
  apply (visit_folds _ _ _ _ _ tn t) in Hv
    as (-> & _ & out & shape & t' & Hout & Hshape & Hr & Hfa);
    [|by rewrite Hsame..].
  rewrite Hsame in Hout, Hshape, Hfa.
  pose proof (foldM_attach_shrinks _ _ _ _ _ _ Hfa) as Hsb.
  apply foldM_attach_children in Hfa as (Htens & _ & Hpar & _).
  destruct (reshape_to_Ok _ _ _ Hr) as [Hdata Hsize].
  pose proof (reshape_to_shape _ _ _ Hr) as Hdims.
  exists out, shape, t'. split_and!; try done.
  - cbn [nodes]. intros [Hrem _]%list_elem_of_filter. apply Hrem, Hrf.
    apply elem_of_app. right. by left.
  - intros Huniq c Hc. rewrite Hkf.
    + apply Htens. by right.
    + intros m Hm. destruct (Hsb m) as (_ & _ & _ & _ & -> & _).
      destruct (Hsa m) as (_ & _ & _ & _ & -> & _).
      apply Huniq; [|by intros ->]. rewrite Hl, elem_of_app. right. by right.
  - intros Hadj m Hm.
    destruct (Hsf m) as (_ & _ & _ & _ & _ & _ & Hsub & _).
    pose proof (elem_of_sublist _ _ _ Hm Hsub) as Hmb.
    destruct (Hsb m) as (_ & _ & _ & _ & _ & _ & Hsubb & _).
    destruct (Hsa m) as (_ & _ & _ & _ & _ & _ & Hsuba & _).
    pose proof (elem_of_sublist _ _ _ Hmb Hsubb) as Hma.
    pose proof (elem_of_sublist _ _ _ Hma Hsuba) as Hm0.
    destruct (Hadj m Hm0) as [Hchild Hndm].
    revert Hmb. apply Hpar.
    + by eapply sublist_NoDup.
    + by right.
Qed.
End ReshapeFoldingPass.

(** The literal [2, 3] tensor reshaped to [3, -1] in front of a MatMul:
    the MatMul gets the tensor with the shape [3, 2]. *)
Lemma C7_constant_reshape_folding_witness :
  ∃ g' σ' t',
    ReshapeInitTensorFuser.call Examples.cr_graph Examples.cr_heap
    = Ok (g', σ')
    ∧ t_data t' = t_data Examples.cr_tensor
    ∧ t_shape t' = [3; 2]
    ∧ 0 ∉ nodes g'
    ∧ input_tensors (deref σ' 1) !! "w_reshaped" = Some t'
    ∧ 0 ∉ parents (deref σ' 1).
Proof.
  destruct (ReshapeInitTensorFuser.call Examples.cr_graph Examples.cr_heap)
    as [[g' σ']|] eqn:Hcall; [|vm_compute in Hcall; discriminate].
  destruct (C7_constant_reshape_folding Examples.cr_graph g'
              Examples.cr_heap σ' 0 "w" Examples.cr_tensor Hcall)
    as (out & shape & t' & Hout & Hshape & _ & Hdata & Hsize & Hdims
        & Hnodes & Hatt & Hpar).
  - apply NoDup_cons_2; [|apply NoDup_singleton].
    intros ?%list_elem_of_singleton. lia.
  - apply list_elem_of_In. vm_compute. auto.
  - vm_compute. reflexivity.
  - vm_compute. reflexivity.
  - vm_compute. reflexivity.
  - vm_compute. reflexivity.
  - vm_compute in Hout. injection Hout as <-.
    vm_compute in Hshape. injection Hshape as <-.
    exists g', σ', t'. split_and!; [done..| |done| |].
    + destruct Hdims as (dims & [[= <-]|[[=] _]] & Hall & _).
      destruct (t_shape t') as [|a [|b [|c l]]] eqn:Hts;
        try (by repeat match goal with
                       | H : Forall2 _ _ _ |- _ => inversion H; clear H; subst
                       end).
      apply Forall2_cons in Hall as [[[=]|Ha] _].
      unfold np_size in Hsize. rewrite Hts in Hsize.
      change (a * (b * 1) = 6) in Hsize.
      assert (a = 3) as -> by lia. f_equal. f_equal. lia.
    + apply Hatt.
      * intros m Hm Hne. apply list_elem_of_In in Hm. vm_compute in Hm.
        destruct Hm as [<-|[<-|[]]]; [done|]. vm_compute. discriminate.
      * apply list_elem_of_In. vm_compute. auto.
    + apply Hpar. intros m Hm.
      destruct m as [|[|m]].
      * vm_compute in Hm. by apply list_elem_of_In in Hm.
      * split; [apply list_elem_of_In; vm_compute; auto|].
        change (parents (deref Examples.cr_heap 1)) with [0].
        apply NoDup_singleton.
      * unfold Examples.cr_heap, deref in Hm.
        rewrite lookup_insert_ne, lookup_singleton_ne in Hm by lia.
        by apply not_elem_of_nil in Hm.
Defined.

(** ** Output renaming *)

Section OutputRenaming.
Context {R : Type}.
Implicit Types (σ : gmap node_id (Node R)) (M : gmap string string).
Implicit Types (n m c : node_id) (o new k : string).
Import OutputRenamer.

Lemma replaced_idemp o new x :
  replaced o new (replaced o new x) = replaced o new x.
Proof. unfold replaced. repeat case_decide; congruence. Qed.

(** *** The loop over the inputs of a child *)

Lemma rename_inputs_steps o new c (count : nat) : ∀ j σ,
  j + count = length (inputs (deref σ c)) →
  let σ' :=
    foldl (λ σ j,
             match inputs (deref σ c) !! j with
             | Some input_ =>
                 if decide (input_ ≠ o) then σ
                 else update c (λ x, set_inputs (<[j := new]> (inputs x)) x) σ
             | None => σ
             end) σ (seq j count) in
  inputs (deref σ' c)
  = take j (inputs (deref σ c)) ++ (replaced o new <$> drop j (inputs (deref σ c)))
  ∧ outputs (deref σ' c) = outputs (deref σ c)
  ∧ children (deref σ' c) = children (deref σ c)
  ∧ ∀ m, m ≠ c → deref σ' m = deref σ m.
Proof.
  induction count as [|count IH]; intros j σ Hlen; cbn zeta.
  - simpl. rewrite drop_ge by lia. rewrite take_ge by lia.
    by rewrite app_nil_r.
  - cbn [seq foldl].
    destruct (lookup_lt_is_Some_2 (inputs (deref σ c)) j) as [x Hx]; [lia|].
    rewrite Hx. rewrite (drop_S _ _ _ Hx). cbn [fmap list_fmap].
    destruct (decide (x ≠ o)) as [Hne|Heq].
    + destruct (IH (S j) σ) as (Hi & Ho & Hc & Hm); [lia|].
      rewrite Hi. split_and!; [|done..].
      rewrite (take_S_r _ _ _ Hx), <-app_assoc. simpl.
      unfold replaced at 2. by rewrite decide_False.
    + apply dec_stable in Heq. subst x.
      set (σ2 := update c _ σ).
      assert (Hins : inputs (deref σ2 c) = <[j := new]> (inputs (deref σ c))).
      { unfold σ2. by rewrite deref_update_eq. }
      destruct (IH (S j) σ2) as (Hi & Ho & Hc & Hm).
      { rewrite Hins, length_insert. lia. }
      rewrite Hi, Ho, Hc, Hins. unfold σ2 at 1 2. rewrite deref_update_eq.
      split_and!; [|done..|].
      * rewrite take_insert_lt, drop_insert_lt by lia.
        rewrite (take_S_r _ _ _ Hx).
        rewrite insert_app_r_alt by (rewrite length_take; lia).
        rewrite length_take, Nat.min_l by lia. rewrite Nat.sub_diag.
        simpl. rewrite <-app_assoc. simpl.
        unfold replaced at 2. by rewrite decide_True.
      * intros m Hm'. rewrite Hm by done. unfold σ2.
        by rewrite deref_update_ne.
Qed.

Lemma rename_inputs_spec o new c σ :
  inputs (deref (rename_inputs o new c σ) c)
  = replaced o new <$> inputs (deref σ c)
  ∧ outputs (deref (rename_inputs o new c σ) c) = outputs (deref σ c)
  ∧ children (deref (rename_inputs o new c σ) c) = children (deref σ c)
  ∧ ∀ m, m ≠ c → deref (rename_inputs o new c σ) m = deref σ m.
Proof.
  unfold rename_inputs.
  destruct (rename_inputs_steps o new c (length (inputs (deref σ c))) 0 σ)
    as (Hi & Ho & Hc & Hm); [done|].
  by rewrite take_0, drop_0 in Hi.
Qed.

(** The loop over the children of the node. *)
Lemma rename_children_spec o new (l : list node_id) : ∀ σ,
  let σ' := foldl (λ σ child, rename_inputs o new child σ) σ l in
  (∀ c, inputs (deref σ' c)
        = if decide (c ∈ l) then replaced o new <$> inputs (deref σ c)
          else inputs (deref σ c))
  ∧ (∀ m, outputs (deref σ' m) = outputs (deref σ m))
  ∧ (∀ m, children (deref σ' m) = children (deref σ m)).
Proof.
  induction l as [|c0 l IH]; intros σ; cbn zeta.
  - cbn [foldl]. split_and!; [|done..]. intros c.
    case_decide as Hc; [by apply not_elem_of_nil in Hc|done].
  - cbn [foldl].
    destruct (rename_inputs_spec o new c0 σ) as (Hi0 & Ho0 & Hc0 & Hm0).
    destruct (IH (rename_inputs o new c0 σ)) as (Hi & Ho & Hc).
    split_and!.
    + intros c. rewrite Hi.
      destruct (decide (c = c0)) as [->|Hne].
      * rewrite Hi0. rewrite (decide_True (P := c0 ∈ c0 :: l)) by by left.
        case_decide; [|done].
        rewrite <-list_fmap_compose. apply list_fmap_ext.
        intros; apply replaced_idemp.
      * rewrite Hm0 by done.
        destruct (decide (c ∈ l)).
        -- by rewrite decide_True by by right.
        -- rewrite decide_False; [done|].
           intros [?|?]%elem_of_cons; done.
    + intros m. rewrite Ho. destruct (decide (m = c0)) as [->|Hne]; [done|].
      by rewrite Hm0.
    + intros m. rewrite Hc. destruct (decide (m = c0)) as [->|Hne]; [done|].
      by rewrite Hm0.
Qed.

(** *** The loop over the outputs of a node *)

Lemma renamed_among_nil M x : renamed_among M [] x = x.
Proof.
  unfold renamed_among. case_decide as H; [by apply not_elem_of_nil in H|done].
Qed.

Lemma renamed_among_skip M o K x :
  M !! o = None → renamed_among M (o :: K) x = renamed_among M K x.
Proof.
  intros Ho. unfold renamed_among, renamed.
  destruct (decide (x = o)) as [->|Hne].
  - rewrite Ho. simpl. rewrite decide_True by by left. by case_decide.
  - destruct (decide (x ∈ K)).
    + by rewrite decide_True by by right.
    + rewrite decide_False; [done|]. intros [?|?]%elem_of_cons; done.
Qed.

Lemma renamed_among_step M o new K x :
  M !! o = Some new → no_chain M →
  renamed_among (delete o M) K (replaced o new x)
  = renamed_among M (o :: K) x.
Proof.
  intros Ho Hch. unfold renamed_among, replaced, renamed.
  destruct (decide (x = o)) as [->|Hne].
  - rewrite (decide_True (P := o ∈ o :: K)) by by left. rewrite Ho. simpl.
    assert (Hn : delete o M !! new = None).
    { apply lookup_delete_None. right. by eapply Hch. }
    rewrite Hn. simpl. by case_decide.
  - rewrite lookup_delete_ne by done.
    destruct (decide (x ∈ K)).
    + by rewrite decide_True by by right.
    + rewrite decide_False; [done|]. intros [?|?]%elem_of_cons; done.
Qed.

Lemma no_chain_delete M o : no_chain M → no_chain (delete o M).
Proof.
  intros Hch k v [_ Hk]%lookup_delete_Some.
  apply lookup_delete_None. right. by eapply Hch.
Qed.

Lemma rename_outputs_empty n (count : nat) : ∀ i σ,
  rename_outputs n count i (σ, ∅) = (σ, ∅).
Proof.
  induction count as [|count IH]; intros i σ; [done|].
  cbn [rename_outputs]. destruct (outputs (deref σ n) !! i); [|done].
  rewrite lookup_empty. apply IH.
Qed.

Lemma rename_outputs_skip n count i σ M o :
  outputs (deref σ n) !! i = Some o → M !! o = None →
  rename_outputs n (S count) i (σ, M) = rename_outputs n count (S i) (σ, M).
Proof. intros Ho HM. cbn [rename_outputs]. by rewrite Ho, HM. Qed.

Lemma rename_outputs_apply n count i σ M o new :
  outputs (deref σ n) !! i = Some o → M !! o = Some new →
  rename_outputs n (S count) i (σ, M)
  = rename_outputs n count (S i) (applied n i o new σ, delete o M).
Proof.
  intros Ho HM. cbn [rename_outputs]. rewrite Ho, HM. fold (applied n i o new σ).
  case_decide as Hsz; [|done].
  apply map_size_empty_inv in Hsz. rewrite Hsz.
  by rewrite rename_outputs_empty.
Qed.

Lemma applied_spec n i o new σ :
  outputs (deref (applied n i o new σ) n) = <[i := new]> (outputs (deref σ n))
  ∧ (∀ m, m ≠ n → outputs (deref (applied n i o new σ) m)
                   = outputs (deref σ m))
  ∧ (∀ m, children (deref (applied n i o new σ) m) = children (deref σ m))
  ∧ (∀ c, inputs (deref (applied n i o new σ) c)
          = if decide (c ∈ children (deref σ n))
            then replaced o new <$> inputs (deref σ c)
            else inputs (deref σ c)).
Proof.
  unfold applied. cbn zeta.
  set (σa := update n _ σ).
  assert (Ha : ∀ m, inputs (deref σa m) = inputs (deref σ m)
                    ∧ children (deref σa m) = children (deref σ m)).
  { intros m. unfold σa. rewrite deref_update. by case_decide; subst. }
  destruct (rename_children_spec o new (children (deref σa n)) σa)
    as (Hi & Ho & Hc).
  split_and!.
  - rewrite Ho. unfold σa. by rewrite deref_update_eq.
  - intros m Hm. rewrite Ho. unfold σa. by rewrite deref_update_ne.
  - intros m. rewrite Hc. apply Ha.
  - intros c. rewrite Hi. rewrite (proj2 (Ha n)), (proj1 (Ha c)). done.
Qed.

(** *** The outputs of the visited node *)

Lemma renamed_seq_lookup (l : list string) : ∀ M i o,
  l !! i = Some o →
  renamed_seq M l !! i
  = Some (if decide (o ∈ take i l) then o else renamed M o).
Proof.
  induction l as [|o0 l IH]; intros M i o Hi; [done|].
  destruct i as [|i]; cbn [renamed_seq].
  - injection Hi as ->. cbn [take]. rewrite decide_False by apply not_elem_of_nil.
    unfold renamed. by destruct (M !! o).
  - cbn [lookup list_lookup] in Hi. cbn [take].
    destruct (M !! o0) as [new|] eqn:HM; cbn [lookup list_lookup];
      rewrite (IH _ _ _ Hi).
    + f_equal. destruct (decide (o = o0)) as [->|Hne].
      * rewrite (decide_True (P := o0 ∈ o0 :: _)) by by left.
        unfold renamed. rewrite lookup_delete_eq. by case_decide.
      * unfold renamed. rewrite lookup_delete_ne by done.
        destruct (decide (o ∈ take i l)).
        -- by rewrite decide_True by by right.
        -- rewrite decide_False; [done|]. intros [?|?]%elem_of_cons; done.
    + f_equal. destruct (decide (o = o0)) as [->|Hne].
      * rewrite (decide_True (P := o0 ∈ o0 :: _)) by by left.
        unfold renamed. rewrite HM. by case_decide.
      * destruct (decide (o ∈ take i l)).
        -- by rewrite decide_True by by right.
        -- rewrite decide_False; [done|]. intros [?|?]%elem_of_cons; done.
Qed.

Lemma renamed_seq_length (l : list string) : ∀ M,
  length (renamed_seq M l) = length l.
Proof.
  induction l as [|o l IH]; intros M; [done|]. cbn [renamed_seq].
  destruct (M !! o); simpl; by rewrite IH.
Qed.

Lemma renamed_seq_id (l : list string) : ∀ M,
  (∀ x, x ∈ l → M !! x = None) → renamed_seq M l = l.
Proof.
  induction l as [|o l IH]; intros M Hl; [done|]. cbn [renamed_seq].
  rewrite (Hl o) by by left. rewrite IH; [done|].
  intros x Hx. apply Hl. by right.
Qed.

(** An entry of the outputs after the visit is an entry of before or a new
    name of the mapping. *)
Lemma elem_of_renamed_seq (l : list string) M y :
  y ∈ renamed_seq M l → y ∈ l ∨ ∃ o, M !! o = Some y.
Proof.
  intros (i & Hi)%list_elem_of_lookup_1.
  destruct (lookup_lt_is_Some_2 l i) as [o Ho].
  { apply lookup_lt_Some in Hi. by rewrite renamed_seq_length in Hi. }
  rewrite (renamed_seq_lookup _ _ _ _ Ho) in Hi. injection Hi as <-.
  case_decide; [left; by eapply list_elem_of_lookup_2|].
  unfold renamed. destruct (M !! o) as [new|] eqn:HM; simpl; [right; eauto|].
  left. by eapply list_elem_of_lookup_2.
Qed.

Lemma rename_outputs_seq n (count : nat) : ∀ i σ M,
  i + count = length (outputs (deref σ n)) →
  outputs (deref (rename_outputs n count i (σ, M)).1 n)
  = take i (outputs (deref σ n))
    ++ renamed_seq M (drop i (outputs (deref σ n))).
Proof.
  induction count as [|count IH]; intros i σ M Hlen.
  - cbn [rename_outputs fst]. rewrite drop_ge, take_ge by lia.
    by rewrite app_nil_r.
  - destruct (lookup_lt_is_Some_2 (outputs (deref σ n)) i) as [o Ho]; [lia|].
    rewrite (drop_S _ _ _ Ho). cbn [renamed_seq].
    destruct (M !! o) as [new|] eqn:HM.
    + rewrite (rename_outputs_apply _ _ _ _ _ _ _ Ho HM).
      destruct (applied_spec n i o new σ) as (Hao & _).
      rewrite IH by (rewrite Hao, length_insert; lia).
      rewrite Hao, drop_insert_lt by lia.
      rewrite (take_S_r _ i new) by (apply list_lookup_insert_eq; lia).
      rewrite take_insert_ge by lia. by rewrite <-app_assoc.
    + rewrite (rename_outputs_skip _ _ _ _ _ _ Ho HM).
      rewrite IH by lia. rewrite (take_S_r _ _ _ Ho). by rewrite <-app_assoc.
Qed.

(** *** One visit *)

Lemma rename_outputs_general n (count : nat) : ∀ i σ M σ1 M1,
  i + count = length (outputs (deref σ n)) →
  no_chain M →
  rename_outputs n count i (σ, M) = (σ1, M1) →
  (∀ m, m ≠ n → outputs (deref σ1 m) = outputs (deref σ m))
  ∧ (∀ m, children (deref σ1 m) = children (deref σ m))
  ∧ (∀ c, inputs (deref σ1 c)
          = renamed_among M
              (if decide (c ∈ children (deref σ n))
               then drop i (outputs (deref σ n)) else [])
            <$> inputs (deref σ c))
  ∧ (∀ k, M1 !! k = if decide (k ∈ drop i (outputs (deref σ n)))
                    then None else M !! k)
  ∧ no_chain M1.
Proof.
  induction count as [|count IH]; intros i σ M σ1 M1 Hlen Hch.
  - cbn [rename_outputs]. intros [= <- <-].
    rewrite drop_ge by lia. split_and!; try done.
    intros c. rewrite <-(list_fmap_id (inputs (deref σ c))) at 1.
    apply list_fmap_ext. intros _ x _.
    case_decide; by rewrite renamed_among_nil.
  - destruct (lookup_lt_is_Some_2 (outputs (deref σ n)) i) as [o Ho]; [lia|].
    rewrite (drop_S _ _ _ Ho).
    destruct (M !! o) as [new|] eqn:HM.
    + rewrite (rename_outputs_apply _ _ _ _ _ _ _ Ho HM). intros Hr.
      destruct (applied_spec n i o new σ) as (Hao & Haom & Hac & Hai).
      apply IH in Hr as (Hother & Hchildren & Hins & Hmap & Hch1);
        [|rewrite Hao, length_insert; lia|by apply no_chain_delete].
      split_and!.
      * intros m Hm. by rewrite Hother, Haom.
      * intros m. by rewrite Hchildren, Hac.
      * intros c. rewrite Hins, Hai, Hac, Hao.
        rewrite drop_insert_lt by lia.
        destruct (decide (c ∈ children (deref σ n))).
        -- rewrite <-list_fmap_compose. apply list_fmap_ext.
           intros _ x _. simpl. by apply renamed_among_step.
        -- apply list_fmap_ext. intros _ x _.
           by rewrite !renamed_among_nil.
      * intros k. rewrite Hmap, Hao, drop_insert_lt by lia.
        destruct (decide (k = o)) as [->|Hne].
        -- rewrite lookup_delete_eq.
           rewrite (decide_True (P := o ∈ o :: _)) by by left.
           by case_decide.
        -- rewrite lookup_delete_ne by done.
           destruct (decide (k ∈ drop (S i) (outputs (deref σ n)))).
           ++ by rewrite decide_True by by right.
           ++ rewrite decide_False; [done|].
              intros [?|?]%elem_of_cons; done.
      * done.
    + rewrite (rename_outputs_skip _ _ _ _ _ _ Ho HM). intros Hr.
      apply IH in Hr as (Hother & Hchildren & Hins & Hmap & Hch1);
        [|lia|done].
      split_and!; try done.
      * intros c. rewrite Hins. apply list_fmap_ext. intros _ x _.
        case_decide; [|done]. by rewrite renamed_among_skip.
      * intros k. rewrite Hmap.
        destruct (decide (k = o)) as [->|Hne].
        -- rewrite (decide_True (P := o ∈ o :: _)) by by left.
           by case_decide.
        -- destruct (decide (k ∈ drop (S i) (outputs (deref σ n)))).
           ++ by rewrite decide_True by by right.
           ++ rewrite decide_False; [done|].
              intros [?|?]%elem_of_cons; done.
Qed.

(** The visit of a node, from any state of the pass. *)
Lemma visit_general n σ M σ1 M1 :
  no_chain M →
  visit (σ, M) n = (σ1, M1) →
  outputs (deref σ1 n) = renamed_seq M (outputs (deref σ n))
  ∧ (∀ m, m ≠ n → outputs (deref σ1 m) = outputs (deref σ m))
  ∧ (∀ m, children (deref σ1 m) = children (deref σ m))
  ∧ (∀ c, inputs (deref σ1 c)
          = renamed_among M
              (if decide (c ∈ children (deref σ n))
               then outputs (deref σ n) else [])
            <$> inputs (deref σ c))
  ∧ (∀ k, M1 !! k = if decide (k ∈ outputs (deref σ n))
                    then None else M !! k)
  ∧ no_chain M1
  ∧ (∀ y, y ∈ outputs (deref σ1 n) → M1 !! y = None).
Proof.
  intros Hch Hv. unfold visit in Hv. cbn [fst] in Hv.
  pose proof (rename_outputs_seq n (length (outputs (deref σ n))) 0 σ M
                eq_refl) as Hseq.
  rewrite Hv in Hseq. cbn [fst] in Hseq. rewrite take_0, drop_0 in Hseq.
  apply rename_outputs_general in Hv as (Ho & Hc & Hi & HM & Hch1);
    [|done..].
  rewrite drop_0 in *. cbn [app] in Hseq.
  split_and!; try done.
  intros y Hy. rewrite Hseq in Hy. rewrite HM.
  case_decide as Hin; [done|].
  apply elem_of_renamed_seq in Hy as [?|[o Hy]]; [done|].
  by eapply Hch.
Qed.

(** *** The outputs of a list of nodes *)

Lemma all_outputs_cons σ n (l : list node_id) :
  all_outputs σ (n :: l) = outputs (deref σ n) ++ all_outputs σ l.
Proof. done. Qed.

Lemma elem_of_all_outputs σ (l : list node_id) o :
  o ∈ all_outputs σ l ↔ ∃ n, n ∈ l ∧ o ∈ outputs (deref σ n).
Proof.
  unfold all_outputs. rewrite list_elem_of_bind. naive_solver.
Qed.

Lemma no_chain_subseteq M M' : M ⊆ M' → no_chain M' → no_chain M.
Proof.
  intros Hsub Hch k v Hk. eapply lookup_weaken_None; [|exact Hsub].
  eapply Hch, lookup_weaken; [exact Hk|exact Hsub].
Qed.

(** *** Outputs that hold no key are left alone *)

Lemma pass_stable (l : list node_id) n : ∀ σ M,
  no_chain M →
  (∀ y, y ∈ outputs (deref σ n) → M !! y = None) →
  outputs (deref (foldl visit (σ, M) l).1 n) = outputs (deref σ n).
Proof.
  induction l as [|n' l IH]; intros σ M Hch Hnone; [done|].
  cbn [foldl]. destruct (visit (σ, M) n') as [σa Ma] eqn:Hv.
  apply visit_general in Hv as (Hoa & Hother & _ & _ & HMa & Hcha & _);
    [|done].
  assert (Hsame : outputs (deref σa n) = outputs (deref σ n)).
  { destruct (decide (n = n')) as [<-|Hne]; [|by apply Hother].
    rewrite Hoa. by apply renamed_seq_id. }
  rewrite IH; [done..|].
  intros y Hy. rewrite Hsame in Hy. rewrite HMa.
  case_decide; [done|]. by apply Hnone.
Qed.

(** *** Keys and the outputs of the nodes after a visit *)

(** After the visit of [n], a key of the mapping that is no output of [n]
    is an output of the same nodes as before. *)
Lemma key_outputs_visit σ (σa : gmap node_id (Node R)) M n k v
    (K : list node_id) :
  no_chain M → M !! k = Some v → k ∉ outputs (deref σ n) →
  outputs (deref σa n) = renamed_seq M (outputs (deref σ n)) →
  (∀ m, m ≠ n → outputs (deref σa m) = outputs (deref σ m)) →
  k ∈ all_outputs σa K ↔ k ∈ all_outputs σ K.
Proof.
  intros Hch Hk Hkn Hoa Hother. rewrite !elem_of_all_outputs.
  assert (Hna : k ∉ outputs (deref σa n)).
  { rewrite Hoa. intros [?|[o Ho]]%elem_of_renamed_seq; [done|].
    apply Hch in Ho. congruence. }
  split; intros (m & Hm & Hkm); exists m; (split; [done|]);
    destruct (decide (m = n)) as [->|Hne]; try done.
  - by rewrite <-Hother.
  - by rewrite Hother.
Qed.

Lemma renamed_input_none σ M (l : list node_id) c x :
  M !! x = None → renamed_input σ M l c x = x.
Proof.
  intros Hx. induction l as [|n l IH]; [done|]. cbn [renamed_input].
  repeat case_decide; try done. unfold renamed. by rewrite Hx.
Qed.

Lemma renamed_input_visit σ (σa : gmap node_id (Node R)) M
    (Ma : gmap string string) n (l : list node_id) c x v :
  no_chain M → M !! x = Some v → x ∉ outputs (deref σ n) →
  outputs (deref σa n) = renamed_seq M (outputs (deref σ n)) →
  (∀ m, m ≠ n → outputs (deref σa m) = outputs (deref σ m)) →
  (∀ m, children (deref σa m) = children (deref σ m)) →
  Ma !! x = M !! x →
  renamed_input σa Ma l c x = renamed_input σ M l c x.
Proof.
  intros Hch Hx Hxn Hoa Hother Hc HMa.
  assert (Hna : x ∉ outputs (deref σa n)).
  { rewrite Hoa. intros [?|[o Ho]]%elem_of_renamed_seq; [done|].
    apply Hch in Ho. congruence. }
  induction l as [|m l IH]; [done|]. cbn [renamed_input].
  rewrite Hc, IH. unfold renamed. rewrite HMa.
  destruct (decide (m = n)) as [->|Hne].
  - by rewrite !decide_False.
  - by rewrite Hother.
Qed.

(** *** The pass *)

Lemma pass_general (l : list node_id) : ∀ σ M σ1 M1,
  no_chain M →
  foldl visit (σ, M) l = (σ1, M1) →
  (∀ m, children (deref σ1 m) = children (deref σ m))
  ∧ (∀ k, M1 !! k = if decide (k ∈ all_outputs σ l) then None else M !! k)
  ∧ no_chain M1
  ∧ (∀ m, m ∉ l → outputs (deref σ1 m) = outputs (deref σ m))
  ∧ (∀ (pre post : list node_id) m i o,
       l = pre ++ m :: post → m ∉ pre →
       outputs (deref σ m) !! i = Some o →
       outputs (deref σ1 m) !! i
       = Some (if decide (o ∈ take i (outputs (deref σ m))
                          ∨ o ∈ all_outputs σ pre)
               then o else renamed M o))
  ∧ (∀ c, inputs (deref σ1 c)
          = renamed_input σ M l c <$> inputs (deref σ c)).
Proof.
  induction l as [|n l IH]; intros σ M σ1 M1 Hch.
  - cbn [foldl]. intros [= <- <-]. split_and!; try done.
    + intros pre post m i o Hl. by destruct pre.
    + intros c. by rewrite list_fmap_id.
  - cbn [foldl]. destruct (visit (σ, M) n) as [σa Ma] eqn:Hv.
    pose proof Hv as Hv'.
    apply visit_general in Hv
      as (Hoa & Hother & Hca & Hia & HMa & Hcha & Hnone); [|done].
    intros Hf. pose proof Hf as Hf'.
    apply IH in Hf as (Hc & HM1 & Hch1 & Hout & Hfirst & Hin); [|done].
    assert (Hkey : ∀ k v (K : list node_id),
              M !! k = Some v → k ∉ outputs (deref σ n) →
              k ∈ all_outputs σa K ↔ k ∈ all_outputs σ K).
    { intros k v K Hk Hkn. by apply (key_outputs_visit σ σa M n k v K). }
    split_and!.
    + intros m. by rewrite Hc.
    + intros k. rewrite HM1, HMa, all_outputs_cons.
      destruct (decide (k ∈ outputs (deref σ n))) as [Hkn|Hkn].
      { rewrite (decide_True (P := k ∈ _ ++ _))
          by (apply elem_of_app; by left). by case_decide. }
      destruct (M !! k) as [v|] eqn:Hk; [|by repeat case_decide].
      destruct (decide (k ∈ all_outputs σa l)) as [Hka|Hka].
      * rewrite decide_True; [done|]. apply elem_of_app. right.
        by apply (Hkey k v).
      * rewrite decide_False; [done|].
        intros [?|Hkl]%elem_of_app; [done|]. by apply Hka, (Hkey k v).
    + done.
    + intros m [Hmn Hml]%not_elem_of_cons. by rewrite Hout, Hother.
    + intros pre post m i o Hl Hm Ho. destruct pre as [|n0 pre].
      * cbn [app] in Hl. injection Hl as Hn Hl. subst m post.
        assert (Hst : outputs (deref σ1 n) = outputs (deref σa n)).
        { replace σ1 with (foldl visit (σa, Ma) l).1 by (by rewrite Hf').
          by apply pass_stable. }
        rewrite Hst, Hoa, (renamed_seq_lookup _ _ _ _ Ho). f_equal.
        destruct (decide (o ∈ take i (outputs (deref σ n)))).
        -- rewrite decide_True; [done|by left].
        -- rewrite decide_False; [done|].
           intros [?|?%not_elem_of_nil]; done.
      * cbn [app] in Hl. injection Hl as Hn Hl. subst n0 l.
        apply not_elem_of_cons in Hm as [Hmn Hm].
        rewrite (Hfirst pre post m i o eq_refl Hm)
          by (by rewrite Hother). rewrite Hother by done. f_equal.
        rewrite all_outputs_cons.
        destruct (decide (o ∈ take i (outputs (deref σ m)))) as [Ht|Ht].
        { rewrite !decide_True; [done|by left..]. }
        destruct (decide (o ∈ outputs (deref σ n))) as [Hon|Hon].
        { rewrite (decide_True (P := _ ∨ o ∈ _ ++ _))
            by (right; apply elem_of_app; by left).
          case_decide; [done|]. unfold renamed. rewrite HMa.
          by rewrite decide_True. }
        assert (HMo : Ma !! o = M !! o) by (by rewrite HMa, decide_False).
        unfold renamed. rewrite HMo.
        destruct (M !! o) as [v|] eqn:Hk; [|by repeat case_decide].
        destruct (decide (o ∈ all_outputs σa pre)) as [Hoa'|Hoa'].
        -- rewrite !decide_True; [done| |by right].
           right. apply elem_of_app. right. by apply (Hkey o v).
        -- rewrite !decide_False; [done| |].
           ++ intros [?|[?|?]%elem_of_app]; [done..|].
              by apply Hoa', (Hkey o v).
           ++ intros [?|?]; done.
    + intros c. rewrite Hin, Hia, <-list_fmap_compose.
      apply list_fmap_ext. intros _ x _. cbn [compose renamed_input].
      unfold renamed_among at 1.
      destruct (decide (x ∈ outputs (deref σ n))) as [Hxn|Hxn].
      * assert (HMx : Ma !! x = None) by (by rewrite HMa, decide_True).
        destruct (decide (c ∈ children (deref σ n))) as [Hcn|Hcn].
        -- rewrite decide_True by done. apply renamed_input_none.
           unfold renamed. destruct (M !! x) as [v|] eqn:Hk; simpl; [|done].
           rewrite HMa. case_decide; [done|]. by eapply Hch.
        -- rewrite decide_False by apply not_elem_of_nil.
           by apply renamed_input_none.
      * rewrite decide_False; last first.
        { case_decide; [done|apply not_elem_of_nil]. }
        assert (HMx : Ma !! x = M !! x) by (by rewrite HMa, decide_False).
        destruct (M !! x) as [v|] eqn:Hk.
        -- apply (renamed_input_visit σ σa M Ma n l c x v); try done.
           by rewrite Hk.
        -- by rewrite !renamed_input_none.
Qed.

(** *** A key that is no output *)

Lemma rename_outputs_extra n (count : nat) k v : ∀ i σ M,
  M !! k = None →
  (∀ i' o, i ≤ i' → outputs (deref σ n) !! i' = Some o → o ≠ k) →
  rename_outputs n count i (σ, <[k := v]> M)
  = ((rename_outputs n count i (σ, M)).1,
     <[k := v]> (rename_outputs n count i (σ, M)).2).
Proof.
  induction count as [|count IH]; intros i σ M Hk Hno; [done|].
  destruct (outputs (deref σ n) !! i) as [o|] eqn:Ho;
    [|cbn [rename_outputs]; by rewrite Ho].
  assert (Hok : o ≠ k) by (by eapply Hno).
  destruct (M !! o) as [new|] eqn:HM.
  - rewrite (rename_outputs_apply _ _ _ _ _ _ new Ho)
      by (by rewrite lookup_insert_ne).
    rewrite (rename_outputs_apply _ _ _ _ _ _ _ Ho HM).
    rewrite delete_insert_ne by done. apply IH.
    + apply lookup_delete_None. by right.
    + intros i' o' Hi'. destruct (applied_spec n i o new σ) as (-> & _).
      rewrite list_lookup_insert_ne by lia. apply Hno. lia.
  - rewrite (rename_outputs_skip _ _ _ _ _ _ Ho)
      by (by rewrite lookup_insert_ne).
    rewrite (rename_outputs_skip _ _ _ _ _ _ Ho HM).
    apply IH; [done|]. intros i' o' Hi'. apply Hno. lia.
Qed.

Lemma pass_skip_key (l : list node_id) k v : ∀ σ M,
  no_chain (<[k := v]> M) → M !! k = None →
  (∀ n, n ∈ l → k ∉ outputs (deref σ n)) →
  foldl visit (σ, <[k := v]> M) l
  = ((foldl visit (σ, M) l).1, <[k := v]> (foldl visit (σ, M) l).2).
Proof.
  induction l as [|n l IH]; intros σ M Hch Hk Hno; [done|].
  assert (HchM : no_chain M).
  { eapply no_chain_subseteq; [|exact Hch]. by apply insert_subseteq. }
  cbn [foldl]. unfold visit at 2 4 6. cbn [fst].
  rewrite rename_outputs_extra; [|done|]; last first.
  { intros i' o _ Ho%list_elem_of_lookup_2 ->. by apply (Hno n); [left|]. }
  destruct (rename_outputs n (length (outputs (deref σ n))) 0 (σ, M))
    as [σa Ma] eqn:Hr. cbn [fst snd].
  assert (Hv : visit (σ, M) n = (σa, Ma)) by exact Hr.
  apply visit_general in Hv as (Hoa & Hother & _ & _ & HMa & _ & _);
    [|done].
  assert (Hsub : Ma ⊆ M).
  { apply map_subseteq_spec. intros x y. rewrite HMa. by case_decide. }
  apply IH.
  - eapply no_chain_subseteq; [|exact Hch]. by apply insert_mono.
  - rewrite HMa. by case_decide.
  - intros m Hm. destruct (decide (m = n)) as [->|Hne].
    + rewrite Hoa. intros [?|[o Ho]]%elem_of_renamed_seq.
      * by apply (Hno n); [left|].
      * assert (Hok : o ≠ k) by (intros ->; congruence).
        assert (Hy : <[k := v]> M !! o = Some k)
          by (by rewrite lookup_insert_ne).
        apply Hch in Hy. by rewrite lookup_insert_eq in Hy.
    + rewrite Hother by done. apply Hno. by right.
Qed.
Lemma renamed_input_app σ M (pre l : list node_id) c x :
  x ∉ all_outputs σ pre →
  renamed_input σ M (pre ++ l) c x = renamed_input σ M l c x.
Proof.
  induction pre as [|p pre IH]; [done|]. rewrite all_outputs_cons.
  intros [Hp Hpre]%not_elem_of_app. cbn [app renamed_input].
  by rewrite decide_False, IH.
Qed.

(** C8 (amended): for a mapping none of whose new names is itself a key,
    the pass cannot raise and returns the graph it was given; the nodes may
    be listed more than once and may share output names.  When a node is
    visited for the first time, the mapping holds the keys that are no
    output of a node before it.  An output of that node whose name is a key
    still held at that moment, and is at no earlier position of the node,
    carries the mapped name after the pass, and so does every input entry
    of a child of the node that named it; an output whose name is no key
    still held, or is at an earlier position of the node, keeps its name.
    After the pass the mapping holds the keys that are no output of a node
    of the graph.  An input entry that is no key is as before.  A key that
    is no output of any node stays in the mapping and has no effect: the
    pass gives the same nodes, and the same mapping but for that key, with
    and without it. *)
Theorem C8_output_renaming M (g : Graph) σ :
  no_chain M →
  ∃ σ' M',
    call M g σ = (g, σ', M')
    ∧ (∀ (pre post : list node_id) n,
         nodes g = pre ++ n :: post → n ∉ pre →
         let Mn := (foldl visit (σ, M) pre).2 in
         (∀ k, Mn !! k = if decide (k ∈ all_outputs σ pre) then None
                         else M !! k)
         ∧ ∀ i o, outputs (deref σ n) !! i = Some o →
             (∀ new, Mn !! o = Some new →
                     o ∉ take i (outputs (deref σ n)) →
                     outputs (deref σ' n) !! i = Some new
                     ∧ ∀ c j, c ∈ children (deref σ n) →
                              inputs (deref σ c) !! j = Some o →
                              inputs (deref σ' c) !! j = Some new)
             ∧ (Mn !! o = None ∨ o ∈ take i (outputs (deref σ n)) →
                outputs (deref σ' n) !! i = Some o))
    ∧ (∀ k, M' !! k = if decide (k ∈ all_outputs σ (nodes g)) then None
                      else M !! k)
    ∧ (∀ c j x, inputs (deref σ c) !! j = Some x → M !! x = None →
                inputs (deref σ' c) !! j = Some x)
    ∧ (∀ k v, M !! k = Some v → k ∉ all_outputs σ (nodes g) →
              M' !! k = Some v
              ∧ call (delete k M) g σ = (g, σ', delete k M')).
Proof.
  intros Hch. unfold call.
  destruct (foldl visit (σ, M) (nodes g)) as [σ' M'] eqn:Hf.
  exists σ', M'. split; [done|].
  pose proof (pass_general _ _ _ _ _ Hch Hf)
    as (_ & HM & _ & _ & Hfirst & Hin).
  split_and!.
  - intros pre post n Hl Hn. set (Mn := (foldl visit (σ, M) pre).2).
    assert (HMn : ∀ k, Mn !! k = if decide (k ∈ all_outputs σ pre)
                                 then None else M !! k).
    { unfold Mn. destruct (foldl visit (σ, M) pre) as [σn Mn'] eqn:Hpre.
      by apply (pass_general _ _ _ _ _ Hch Hpre). }
    split; [done|]. intros i o Ho.
    pose proof (Hfirst pre post n i o Hl Hn Ho) as Hout. split.
    + intros new Hnew Hi. rewrite HMn in Hnew.
      destruct (decide (o ∈ all_outputs σ pre)) as [|Hpre]; [done|].
      split.
      * rewrite Hout, decide_False by (intros [?|?]; done).
        unfold renamed. by rewrite Hnew.
      * intros c j Hc Hj. rewrite Hin, list_lookup_fmap, Hj, Hl.
        simpl. rewrite renamed_input_app by done. cbn [renamed_input].
        rewrite !decide_True; [|done|by eapply list_elem_of_lookup_2].
        unfold renamed. by rewrite Hnew.
    + intros Hcase. rewrite Hout. f_equal. case_decide as Hd; [done|].
      destruct Hcase as [Hnone|Hi]; [|by destruct Hd; left].
      rewrite HMn in Hnone. unfold renamed.
      destruct (decide (o ∈ all_outputs σ pre)); [by destruct Hd; right|].
      by rewrite Hnone.
  - done.
  - intros c j x Hj Hx. rewrite Hin, list_lookup_fmap, Hj. simpl.
    by rewrite renamed_input_none.
  - intros k v Hk Hno. split; [by rewrite HM, decide_False|].
    assert (HMk : <[k := v]> (delete k M) = M)
      by (by apply insert_delete_id).
    destruct (foldl visit (σ, delete k M) (nodes g)) as [σ0 M0] eqn:Hf0.
    assert (HM0 : M0 !! k = None).
    { destruct (pass_general _ _ _ _ _ (no_chain_delete _ _ Hch) Hf0)
        as (_ & HM0 & _). rewrite HM0. case_decide; [done|].
      apply lookup_delete_eq. }
    assert (Hskip : foldl visit (σ, <[k := v]> (delete k M)) (nodes g)
                    = (σ0, <[k := v]> M0)).
    { rewrite pass_skip_key, Hf0; [done|by rewrite HMk| |].
      - apply lookup_delete_eq.
      - intros n Hn Hkn. apply Hno, elem_of_all_outputs. eauto. }
    rewrite HMk, Hf in Hskip. injection Hskip as -> ->.
    by rewrite delete_insert_id.
Qed.
End OutputRenaming.


(** A node with the outputs ["a"] and ["b"] whose child reads ["a"], and a
    later node whose output is named ["a"] as well; the mapping renames
    ["a"], the output of the child, and a name that is no output.  The
    first output named ["a"] and the input of the child take the new name;
    the output of the later node keeps its name, the key having left the
    mapping. *)
Lemma C8_output_renaming_witness :
  ∃ σ' M',
    OutputRenamer.call Examples.rn_mapping Examples.rn_shared_graph
      Examples.rn_shared_heap
    = (Examples.rn_shared_graph, σ', M')
    ∧ outputs (deref σ' 0) !! 0 = Some "x"
    ∧ inputs (deref σ' 1) !! 0 = Some "x"
    ∧ outputs (deref σ' 2) !! 0 = Some "a"
    ∧ M' !! "a" = None
    ∧ M' !! "unused" = Some "z".
Proof.
  destruct (C8_output_renaming Examples.rn_mapping Examples.rn_shared_graph
              Examples.rn_shared_heap)
    as (σ' & M' & Hcall & Hvisit & Hkeys & _ & Hstay).
  - intros k v Hk.
    assert (Hv : v = "x" ∨ v = "y" ∨ v = "z").
    { unfold Examples.rn_mapping in Hk.
      apply lookup_insert_Some in Hk as [[_ <-]|[_ Hk]]; [by left|].
      apply lookup_insert_Some in Hk as [[_ <-]|[_ Hk]]; [by right; left|].
      apply lookup_singleton_Some in Hk as [_ <-]. by right; right. }
    destruct Hv as [-> | [-> | ->]]; vm_compute; reflexivity.
  - exists σ', M'.
    destruct (Hvisit [] [1; 2] 0 eq_refl (not_elem_of_nil 0)) as [_ Hout].
    destruct (Hout 0 "a" eq_refl) as [Hnew _].
    destruct (Hnew "x") as [Ho Hi];
      [vm_compute; reflexivity|apply not_elem_of_nil|].
    assert (Hlater : 2 ∉ [0; 1]).
    { intros H%list_elem_of_In. simpl in H. lia. }
    destruct (Hvisit [0; 1] [] 2 eq_refl Hlater) as [HMn Hout2].
    destruct (Hout2 0 "a" eq_refl) as [_ Hsame].
    split_and!; [done|exact Ho| | | |].
    + apply (Hi 1 0); [apply list_elem_of_In; vm_compute; auto|].
      vm_compute; reflexivity.
    + apply Hsame. left. rewrite HMn, decide_True; [done|].
      apply list_elem_of_In. vm_compute. auto.
    + rewrite Hkeys, decide_True; [done|].
      apply list_elem_of_In. vm_compute. auto.
    + apply (Hstay "unused" "z"); [vm_compute; reflexivity|].
      intros Hu%list_elem_of_In. vm_compute in Hu. intuition discriminate.
Defined.

(** C8, as stated, fails for a mapping that renames ["a"] to ["b"] and
    ["b"] to ["c"]: the child read the output ["a"], which now is ["b"],
    but its input names ["c"], the other output of its parent. *)
Lemma C8_chained_mapping :
  ∃ σ' M',
    OutputRenamer.call Examples.rn_chained Examples.rn_graph Examples.rn_heap
    = (Examples.rn_graph, σ', M')
    ∧ 1 ∈ children (deref Examples.rn_heap 0)
    ∧ outputs (deref Examples.rn_heap 0) !! 0 = Some "a"
    ∧ inputs (deref Examples.rn_heap 1) !! 0 = Some "a"
    ∧ Examples.rn_chained !! "a" = Some "b"
    ∧ outputs (deref σ' 0) = ["b"; "c"]
    ∧ inputs (deref σ' 1) !! 0 = Some "c"
    ∧ inputs (deref σ' 1) !! 0 ≠ Some "b".
Proof.
  eexists _, _. split; [vm_compute; reflexivity|].
  split_and!; try (vm_compute; reflexivity).
  - apply list_elem_of_In. vm_compute. auto.
  - vm_compute. discriminate.
Qed.

(** ** The windows the driver finds *)

Section Windows.
Context {R : Type}.
Implicit Types (σ : gmap node_id (Node R)) (n p : node_id).
Import NodesFuser.

Lemma chain_cons σ a b w :
  chain σ (a :: b :: w)
  ↔ parents (deref σ b) = [a] ∧ length (children (deref σ a)) = 1
    ∧ chain σ (b :: w).
Proof. done. Qed.

Lemma chain_app_cons σ (pre : list node_id) a b w :
  chain σ (pre ++ a :: b :: w) →
  parents (deref σ b) = [a] ∧ length (children (deref σ a)) = 1
  ∧ chain σ (b :: w).
Proof.
  induction pre as [|x pre IH]; [done|].
  destruct pre as [|y pre]; simpl; intros (_ & _ & H); by apply IH.
Qed.

Lemma collect_window_sound σ count : ∀ n w n' w',
  chain σ (n :: w) →
  collect_window σ count n w = Ok (n', w') →
  chain σ (n' :: w') ∧ ∃ pre, n' :: w' = pre ++ n :: w.
Proof.
  induction count as [|count IH]; intros n w n' w' Hc; simpl.
  - intros [= <- <-]. split; [done|]. by exists [].
  - case_decide as Hp; [intros [= <- <-]; split; [done|by exists []]|].
    destruct (get_only_parent_single _ _ Hp) as (p & -> & Hpar).
    cbn [mbind result_bind].
    case_decide as Hch; [intros [= <- <-]; split; [done|by exists []]|].
    intros Hcol.
    apply IH in Hcol as [Hc' [pre Hpre]]; [|by apply chain_cons].
    split; [done|]. exists (pre ++ [p]). by rewrite <-app_assoc.
Qed.

Lemma collect_window_complete σ (pre : list node_id) : ∀ n w,
  chain σ (pre ++ n :: w) →
  ∃ n' w', collect_window σ (length pre) n w = Ok (n', w')
           ∧ n' :: w' = pre ++ n :: w.
Proof.
  induction pre as [|a pre IH] using rev_ind; intros n w Hc.
  - by exists n, w.
  - rewrite <-app_assoc in Hc. cbn [app] in Hc.
    destruct (chain_app_cons _ _ _ _ _ Hc) as (Hpar & Hch & _).
    rewrite length_app, Nat.add_1_r. cbn [length collect_window].
    rewrite decide_False by (rewrite Hpar; simpl; lia).
    apply get_only_parent_Ok in Hpar. rewrite Hpar.
    cbn [mbind result_bind]. rewrite decide_False by lia.
    destruct (IH a (n :: w) Hc) as (n' & w' & -> & Heq).
    exists n', w'. split; [done|]. by rewrite <-app_assoc.
Qed.

(** The window found for a node is a strictly linear chain of the length of
    the rule that ends in the node, and every such chain is found.  A rule
    over a single node has no window at all; a rule over no node has the
    empty window everywhere. *)
Theorem find_window_chain σ k n w :
  find_window σ k n = Ok (Some w) ↔
  length w = k ∧ chain σ w ∧ (k = 0 ∨ 2 ≤ k ∧ last w = Some n).
Proof.
  split.
  - unfold find_window.
    destruct (collect_window σ (k - 1) n []) as [[top w0]|] eqn:Hc; [|done].
    cbn [mbind result_bind].
    apply collect_window_sound in Hc as [Hch [pre Hpre]]; [|done].
    destruct w0 as [|first rest].
    + simpl. case_decide as Hk; [done|].
      intros [= <-]. simpl in Hk. split_and!; [done..|by left].
    + destruct Hch as (Hpar & Hone & Hch).
      cbn [extend_window]. apply get_only_parent_Ok in Hpar as Hgp.
      rewrite Hgp. cbn [mbind result_bind]. rewrite decide_True by done.
      cbn [mbind result_bind]. case_decide as Hk; [done|].
      intros [= <-]. split_and!; [done|by apply chain_cons|].
      right. split; [simpl in Hk; lia|].
      rewrite Hpre. by rewrite last_app.
  - intros (Hlen & Hch & [->|[Hk Hlast]]).
    + by destruct w.
    + apply last_Some in Hlast as [pre ->].
      rewrite length_app, Nat.add_1_r in Hlen.
      destruct (collect_window_complete σ pre n [] Hch)
        as (top & w0 & Hc & Heq).
      unfold find_window. replace (k - 1) with (length pre) by lia.
      rewrite Hc. cbn [mbind result_bind].
      destruct w0 as [|first rest].
      { destruct pre; [simpl in Hlen; lia|].
        apply (f_equal length) in Heq. rewrite length_app in Heq.
        simpl in Heq. lia. }
      rewrite <-Heq in Hch. destruct Hch as (Hpar & Hone & _).
      cbn [extend_window]. apply get_only_parent_Ok in Hpar.
      rewrite Hpar. cbn [mbind result_bind]. rewrite decide_True by done.
      cbn [mbind result_bind]. rewrite decide_False; [by rewrite Heq|].
      rewrite Heq, length_app. simpl. lia.
Qed.
End Windows.

(** ** The driver where no window is accepted *)

Section Driver.
Context {R : Type}.
Implicit Types (σ : gmap node_id (Node R)) (n p : node_id).
Implicit Types (F : Fuser R) (M : gmap string (list node_id)).
Import NodesFuserCall.

Lemma visit_quiet F g n st M :
  quiet F g (heap st) n → visit F g n (st, M) = Ok (st, M).
Proof.
  intros [Hw|(w & Hw & He)]; unfold visit; rewrite Hw;
    cbn [mbind result_bind]; [done|]. by rewrite He.
Qed.

Lemma foldM_visit_quiet F g (l : list node_id) st M :
  Forall (quiet F g (heap st)) l → foldM (visit F g) l (st, M) = Ok (st, M).
Proof.
  induction 1 as [|n l Hn _ IH]; [done|].
  cbn [foldM]. rewrite (visit_quiet _ _ _ _ _ Hn). done.
Qed.

Lemma emit_unmerged σ M x t a :
  M !! name (deref σ x) = None → emit σ M x (t, a) = Ok (t ++ [x], a).
Proof. intros Hx. unfold emit. by rewrite Hx. Qed.

Lemma emit_first σ M x merged m0 t a :
  M !! name (deref σ x) = Some merged → merged !! 0 = Some m0 → m0 ∉ a →
  emit σ M x (t, a) = Ok (t ++ merged, a ++ [m0]).
Proof.
  intros Hx Hm Ha. unfold emit. rewrite Hx, (index_Some _ _ _ Hm).
  cbn [mbind result_bind]. by rewrite decide_False.
Qed.

Lemma emit_again σ M x merged m0 t a :
  M !! name (deref σ x) = Some merged → merged !! 0 = Some m0 → m0 ∈ a →
  emit σ M x (t, a) = Ok (t, a).
Proof.
  intros Hx Hm Ha. unfold emit. rewrite Hx, (index_Some _ _ _ Hm).
  cbn [mbind result_bind]. by rewrite decide_True.
Qed.

Lemma foldM_emit_unmerged σ M (l : list node_id) : ∀ t a,
  Forall (λ x, M !! name (deref σ x) = None) l →
  foldM (emit σ M) l (t, a) = Ok (t ++ l, a).
Proof.
  induction l as [|x l IH]; intros t a Hl.
  - by rewrite app_nil_r.
  - apply Forall_cons in Hl as [Hx Hl]. cbn [foldM]. rewrite emit_unmerged by done.
    cbn [mbind result_bind].
    rewrite IH by done. by rewrite <-app_assoc.
Qed.

(** A pass of a rule that accepts no window of the graph returns the graph
    as it is and changes no node. *)
Theorem call_no_match F (g : Graph) st :
  Forall (quiet F g (heap st)) (nodes g) → call F g st = Ok (g, st).
Proof.
  intros Hq. unfold call. rewrite foldM_visit_quiet by done.
  cbn [mbind result_bind].
  rewrite foldM_emit_unmerged by (apply Forall_forall; intros; apply lookup_empty).
  cbn [mbind result_bind app]. by destruct g.
Qed.
End Driver.

(** The Conv-Add rule on the pixel-shuffle chain of the test, which has
    neither a Conv nor an Add. *)
Lemma call_no_match_witness :
  NodesFuserCall.call ConvAddFuser.rule Examples.ps_graph
    (mkFstate (Examples.ps_heap 1) 0)
  = Ok (Examples.ps_graph, mkFstate (Examples.ps_heap 1) 0).
Proof.
  apply call_no_match.
  repeat apply Forall_cons_2; [| | |apply Forall_nil_2].
  - left. vm_compute. reflexivity.
  - right. exists [0; 1]. split; vm_compute; reflexivity.
  - right. exists [1; 2]. split; vm_compute; reflexivity.
Defined.

(** ** The rewiring of the neighbours of a window *)

Section Rewiring.
Context {R : Type}.
Implicit Types (σ : gmap node_id (Node R)) (n p : node_id).
Import NodesFuserCall.

Lemma list_remove_not_elem_of `{EqDecision A} (x y : A) (l l' : list A) :
  list_remove x l = Ok l' → y ∉ l → y ∉ l'.
Proof.
  intros (_ & Hsub & _)%list_remove_Ok Hy Hy'.
  apply Hy. by eapply elem_of_sublist.
Qed.

Lemma foldM_cons_Ok {A S} (f : A → S → result S) x (l : list A) s s' :
  f x s = Ok s' → foldM f (x :: l) s = foldM f l s'.
Proof. intros H. cbn [foldM]. by rewrite H. Qed.

(** The loop over the parents of the first node of a window, where the
    replacement starts with that node, as it does for every rule: each
    parent has the node moved to the end of its children, and nothing else
    changes. *)
Lemma foldM_rewire_parents first (P : list node_id) : ∀ σ,
  NoDup P → first ∉ P →
  (∀ gp, gp ∈ P → first ∈ children (deref σ gp)
                  ∧ NoDup (children (deref σ gp))
                  ∧ gp ∈ parents (deref σ first)) →
  ∃ σ',
    foldM (λ parent σ,
             cs ← list_remove first (children (deref σ parent));
             let σ := update parent (set_children cs) σ in
             if decide (first ∈ children (deref σ parent)) then Ok σ
             else add_child parent first σ) P σ = Ok σ'
    ∧ (∀ gp, gp ∈ P →
         ∃ cs, list_remove first (children (deref σ gp)) = Ok cs
               ∧ deref σ' gp = set_children (cs ++ [first]) (deref σ gp))
    ∧ (∀ x, x ∉ P → deref σ' x = deref σ x).
Proof.
  induction P as [|gp P IH]; intros σ Hnd Hf HP.
  - exists σ. split_and!; [done| |done]. by intros ? ?%not_elem_of_nil.
  - apply NoDup_cons in Hnd as [Hgp Hnd].
    apply not_elem_of_cons in Hf as [Hne Hf].
    destruct (HP gp) as (Hin & Hcs & Hpar); [by left|].
    destruct (list_remove_elem_of _ _ Hin) as [cs Hrem].
    destruct (list_remove_Ok _ _ _ Hrem) as (_ & _ & Hout).
    specialize (Hout Hcs).
    set (σ2 := update gp (λ x, set_children (children x ++ [first]) x)
                 (update gp (set_children cs) σ)).
    assert (Hstep : (cs ← list_remove first (children (deref σ gp));
                     let σ := update gp (set_children cs) σ in
                     if decide (first ∈ children (deref σ gp)) then Ok σ
                     else add_child gp first σ) = Ok σ2).
    { rewrite Hrem. cbn [mbind result_bind]. cbv zeta.
      rewrite deref_update_eq. cbn [children set_children].
      rewrite decide_False by done. unfold add_child.
      rewrite deref_update_eq. cbn [children set_children].
      rewrite decide_False by done.
      rewrite deref_update_ne, deref_update_ne by done.
      by rewrite decide_True. }
    assert (Hgp2 : deref σ2 gp = set_children (cs ++ [first]) (deref σ gp)).
    { unfold σ2. by rewrite !deref_update_eq. }
    assert (Hoth : ∀ x, x ≠ gp → deref σ2 x = deref σ x).
    { intros x Hx. unfold σ2. by rewrite !deref_update_ne. }
    destruct (IH σ2) as (σ' & Hfold & HP' & Hfr); [done..| |].
    { intros gp' Hgp'. rewrite Hoth by (by intros ->).
      rewrite (Hoth first) by done. apply HP. by right. }
    exists σ'. split_and!.
    + erewrite foldM_cons_Ok; [exact Hfold|exact Hstep].
    + intros x [->|Hx]%elem_of_cons.
      * exists cs. split; [done|]. by rewrite Hfr.
      * destruct (HP' x Hx) as (cs' & Hr' & Hd').
        rewrite Hoth in Hr', Hd' by (by intros ->). eauto.
    + intros x [Hx1 Hx2]%not_elem_of_cons. rewrite Hfr by done. by apply Hoth.
Qed.

(** The loop over the children of the last node of a window, where the
    replacement ends in another node [ml]: each child has the last node
    taken from its parents and [ml] added at their end, and [ml] gets the
    children of the last node after its own. *)
Lemma foldM_rewire_children last ml (C : list node_id) : ∀ σ,
  NoDup C → ml ∉ C →
  (∀ c, c ∈ C → last ∈ parents (deref σ c)
                ∧ ml ∉ parents (deref σ c)
                ∧ c ∉ children (deref σ ml)) →
  ∃ σ',
    foldM (λ child σ,
             ps ← list_remove last (parents (deref σ child));
             let σ := update child (set_parents ps) σ in
             if decide (ml ∈ parents (deref σ child)) then Ok σ
             else add_parent child ml σ) C σ = Ok σ'
    ∧ (∀ c, c ∈ C →
         ∃ ps, list_remove last (parents (deref σ c)) = Ok ps
               ∧ deref σ' c = set_parents (ps ++ [ml]) (deref σ c))
    ∧ deref σ' ml = set_children (children (deref σ ml) ++ C) (deref σ ml)
    ∧ (∀ x, x ∉ C → x ≠ ml → deref σ' x = deref σ x).
Proof.
  induction C as [|c C IH]; intros σ Hnd Hml HC.
  - exists σ. split_and!; [done| | |done].
    + by intros ? ?%not_elem_of_nil.
    + rewrite app_nil_r. by destruct (deref σ ml).
  - apply NoDup_cons in Hnd as [Hc Hnd].
    apply not_elem_of_cons in Hml as [Hne Hml].
    destruct (HC c) as (Hin & Hnot & Hch); [by left|].
    destruct (list_remove_elem_of _ _ Hin) as [ps Hrem].
    pose proof (list_remove_not_elem_of _ _ _ _ Hrem Hnot) as Hps.
    set (σ3 := update ml (λ x, set_children (children x ++ [c]) x)
                 (update c (λ x, set_parents (parents x ++ [ml]) x)
                    (update c (set_parents ps) σ))).
    assert (Hstep : (ps ← list_remove last (parents (deref σ c));
                     let σ := update c (set_parents ps) σ in
                     if decide (ml ∈ parents (deref σ c)) then Ok σ
                     else add_parent c ml σ) = Ok σ3).
    { rewrite Hrem. cbn [mbind result_bind]. cbv zeta.
      rewrite deref_update_eq. cbn [parents set_parents].
      rewrite decide_False by done. unfold add_parent.
      rewrite deref_update_eq. cbn [parents set_parents].
      rewrite decide_False by done.
      rewrite deref_update_ne, deref_update_ne by done.
      by rewrite decide_False. }
    assert (Hc3 : deref σ3 c = set_parents (ps ++ [ml]) (deref σ c)).
    { unfold σ3. rewrite deref_update_ne by done.
      by rewrite !deref_update_eq. }
    assert (Hml3 : deref σ3 ml
                   = set_children (children (deref σ ml) ++ [c]) (deref σ ml)).
    { unfold σ3. rewrite deref_update_eq.
      by rewrite !deref_update_ne by done. }
    assert (Hoth : ∀ x, x ≠ c → x ≠ ml → deref σ3 x = deref σ x).
    { intros x Hx1 Hx2. unfold σ3. by rewrite !deref_update_ne. }
    destruct (IH σ3) as (σ' & Hfold & HC' & Hml' & Hfr); [done..| |].
    { intros c' Hc'.
      rewrite Hoth by (intros ->; done). rewrite Hml3.
      cbn [children set_children].
      destruct (HC c') as (? & ? & ?); [by right|].
      split_and!; [done..|].
      intros [?|?%list_elem_of_singleton]%elem_of_app; [done|]. by subst. }
    exists σ'. split_and!.
    + erewrite foldM_cons_Ok; [exact Hfold|exact Hstep].
    + intros x [->|Hx]%elem_of_cons.
      * exists ps. split; [done|]. by rewrite Hfr.
      * destruct (HC' x Hx) as (ps' & Hr' & Hd').
        rewrite Hoth in Hr', Hd' by (intros ->; done). eauto.
    + rewrite Hml', Hml3. cbn [children set_children].
      by rewrite <-app_assoc.
    + intros x [Hx1 Hx2]%not_elem_of_cons Hx3.
      rewrite Hfr by done. by apply Hoth.
Qed.
End Rewiring.

(** ** A rule over two nodes that keeps the first *)

Section Pairs.
Context {R : Type}.
Implicit Types (σ : gmap node_id (Node R)) (n p d : node_id).
Implicit Types (F : Fuser R) (M : gmap string (list node_id)).
Import NodesFuserCall.

(** The visit of the last node [d] of an accepted window [p; d] whose
    replacement is [p]: the parents of [p] have [p] moved to the end of
    their children, the children of [d] get [p] for [d] among their
    parents, [p] gets the children of [d], and both names are recorded. *)
Lemma visit_pair F g st M p d stm :
  num_nodes F = 2 → p ≠ d →
  parents (deref (heap st) d) = [p] →
  length (children (deref (heap st) p)) = 1 →
  is_eligible F (heap st) g [p; d] = Ok true →
  merge F g [p; d] st = Ok ([p], stm) →
  NoDup (parents (deref (heap stm) p)) →
  p ∉ parents (deref (heap stm) p) →
  d ∉ parents (deref (heap stm) p) →
  (∀ gp, gp ∈ parents (deref (heap stm) p) →
         p ∈ children (deref (heap stm) gp)
         ∧ NoDup (children (deref (heap stm) gp))) →
  NoDup (children (deref (heap stm) d)) →
  p ∉ children (deref (heap stm) d) →
  (∀ c, c ∈ children (deref (heap stm) d) →
        c ∉ parents (deref (heap stm) p)
        ∧ d ∈ parents (deref (heap stm) c)
        ∧ p ∉ parents (deref (heap stm) c)
        ∧ c ∉ children (deref (heap stm) p)) →
  ∃ σ',
    visit F g d (st, M)
    = Ok (mkFstate σ' (num_added stm),
          <[name (deref σ' d) := [p]]> (<[name (deref σ' p) := [p]]> M))
    ∧ (∀ gp, gp ∈ parents (deref (heap stm) p) →
         ∃ cs, list_remove p (children (deref (heap stm) gp)) = Ok cs
               ∧ deref σ' gp
                 = set_children (cs ++ [p]) (deref (heap stm) gp))
    ∧ (∀ c, c ∈ children (deref (heap stm) d) →
         ∃ ps, list_remove d (parents (deref (heap stm) c)) = Ok ps
               ∧ deref σ' c = set_parents (ps ++ [p]) (deref (heap stm) c))
    ∧ deref σ' p
      = set_children (children (deref (heap stm) p)
                      ++ children (deref (heap stm) d))
          (deref (heap stm) p)
    ∧ (∀ x, x ∉ parents (deref (heap stm) p) →
            x ∉ children (deref (heap stm) d) → x ≠ p →
            deref σ' x = deref (heap stm) x).
Proof.
  intros Hk Hne Hpar Hone Hel Hm HndP HpP HdP HP HndC HpC HC.
  destruct (foldM_rewire_parents p (parents (deref (heap stm) p)) (heap stm))
    as (σ1 & Hrp & HP1 & Hfr1); [done..| |].
  { intros gp Hgp. destruct (HP gp Hgp). done. }
  assert (Hd1 : deref σ1 d = deref (heap stm) d) by (by apply Hfr1).
  assert (Hp1 : deref σ1 p = deref (heap stm) p) by (by apply Hfr1).
  destruct (foldM_rewire_children d p (children (deref (heap stm) d)) σ1)
    as (σ' & Hrc & HC' & Hp' & Hfr'); [done..| |].
  { intros c Hc. destruct (HC c Hc) as (HcP & ? & ? & ?).
    rewrite (Hfr1 c HcP), Hp1. done. }
  assert (Hrp' : rewire_parents p p (heap stm) = Ok σ1) by exact Hrp.
  assert (Hrc' : rewire_children d p σ1 = Ok σ').
  { unfold rewire_children. rewrite Hd1. exact Hrc. }
  exists σ'. split_and!.
  - unfold visit. rewrite Hk.
    rewrite (proj2 (find_window_chain (heap st) 2 d [p; d])); last first.
    { split_and!; [done|by apply chain_cons|by right]. }
    cbn [mbind result_bind]. rewrite Hel. cbn [mbind result_bind negb].
    rewrite Hm. cbn [mbind result_bind].
    unfold index, index_last. cbn [lookup list_lookup last mbind result_bind].
    rewrite Hrp'. cbn [mbind result_bind].
    rewrite Hrc'. cbn [mbind result_bind]. done.
  - intros gp Hgp. destruct (HP1 gp Hgp) as (cs & Hcs & Hgp1).
    exists cs. split; [done|]. rewrite <-Hgp1. apply Hfr'.
    + intros Hc. by destruct (HC gp Hc).
    + by intros ->.
  - intros c Hc. destruct (HC' c Hc) as (ps & Hps & Hc').
    destruct (HC c Hc) as (HcP & _).
    rewrite (Hfr1 c HcP) in Hps, Hc'. eauto.
  - by rewrite Hp', Hp1.
  - intros x HxP HxC Hxp. rewrite Hfr' by done. by apply Hfr1.
Qed.
End Pairs.

(** ** The second loop of the driver after one fusion of two nodes *)

Section EmitPair.
Context {R : Type}.
Implicit Types (σ : gmap node_id (Node R)) (n p d : node_id).
Implicit Types (F : Fuser R) (M : gmap string (list node_id)).
Import NodesFuserCall.

Lemma foldM_emit_pair σ p d (l1 l2 : list node_id) :
  NoDup (l1 ++ d :: l2) → p ∈ l1 →
  (∀ y, y ∈ l1 ++ d :: l2 → y ≠ p → y ≠ d →
        name (deref σ y) ≠ name (deref σ p)
        ∧ name (deref σ y) ≠ name (deref σ d)) →
  foldM (emit σ (<[name (deref σ d) := [p]]>
                   (<[name (deref σ p) := [p]]> ∅)))
        (l1 ++ d :: l2) ([], [])
  = Ok (l1 ++ l2, [p]).
Proof.
  intros Hnd Hp Hnames.
  set (M := <[name (deref σ d) := [p]]> (<[name (deref σ p) := [p]]> ∅)).
  assert (Hpd : p ≠ d).
  { intros ->. apply NoDup_app in Hnd as (_ & Hd & _).
    apply (Hd d Hp). by left. }
  assert (HMp : M !! name (deref σ p) = Some [p]).
  { unfold M. destruct (decide (name (deref σ d) = name (deref σ p))) as [->|].
    - by rewrite lookup_insert_eq.
    - by rewrite lookup_insert_ne, lookup_insert_eq. }
  assert (HMd : M !! name (deref σ d) = Some [p]).
  { unfold M. by rewrite lookup_insert_eq. }
  assert (HMy : ∀ y, y ∈ l1 ++ d :: l2 → y ≠ p → y ≠ d →
                     M !! name (deref σ y) = None).
  { intros y Hy H1 H2. destruct (Hnames y Hy H1 H2).
    unfold M. by rewrite !lookup_insert_ne, lookup_empty. }
  apply list_elem_of_split in Hp as (a & b & ->).
  rewrite <-!app_assoc in *. cbn [app] in *.
  apply NoDup_app in Hnd as (_ & Ha & Hnd).
  apply NoDup_cons in Hnd as [Hpb Hnd].
  apply NoDup_app in Hnd as (_ & Hb & Hnd).
  apply NoDup_cons in Hnd as [Hdl2 _].
  rewrite foldM_app, foldM_emit_unmerged; last first.
  { apply Forall_forall. intros y Hy. apply HMy.
    - apply elem_of_app. by left.
    - intros ->. apply (Ha p Hy). by left.
    - intros ->. apply (Ha d Hy). right. apply elem_of_app. right. by left. }
  cbn [mbind result_bind app foldM].
  rewrite (emit_first _ _ _ [p] p) by (done || apply not_elem_of_nil).
  cbn [mbind result_bind app].
  rewrite foldM_app, foldM_emit_unmerged; last first.
  { apply Forall_forall. intros y Hy. apply HMy.
    - apply elem_of_app. right. right. apply elem_of_app. by left.
    - intros ->. apply Hpb. apply elem_of_app. by left.
    - intros ->. apply (Hb d Hy). by left. }
  cbn [mbind result_bind foldM].
  rewrite (emit_again _ _ _ [p] p) by (done || by left).
  cbn [mbind result_bind].
  rewrite foldM_emit_unmerged; last first.
  { apply Forall_forall. intros y Hy. apply HMy.
    - apply elem_of_app. right. right. apply elem_of_app. right. by right.
    - intros ->. apply Hpb. apply elem_of_app. right. by right.
    - by intros ->. }
  by rewrite <-!app_assoc.
Qed.

(** One fusion in a pass: the only visit that changes anything is the one
    of [d], which replaces the window [p; d] by [p]. *)
Lemma call_pair F (g : Graph) st p d (l1 l2 : list node_id) σ' k' :
  nodes g = l1 ++ d :: l2 → NoDup (nodes g) → p ∈ l1 →
  Forall (quiet F g (heap st)) l1 →
  visit F g d (st, ∅)
  = Ok (mkFstate σ' k',
        <[name (deref σ' d) := [p]]> (<[name (deref σ' p) := [p]]> ∅)) →
  Forall (quiet F g σ') l2 →
  (∀ y, y ∈ nodes g → y ≠ p → y ≠ d →
        name (deref σ' y) ≠ name (deref σ' p)
        ∧ name (deref σ' y) ≠ name (deref σ' d)) →
  call F g st
  = Ok (mkGraph (l1 ++ l2) (g_inputs g) (g_outputs g), mkFstate σ' k').
Proof.
  intros Hg Hnd Hp Hq1 Hv Hq2 Hnames. unfold call. rewrite Hg in *.
  rewrite foldM_app, foldM_visit_quiet by done.
  cbn [mbind result_bind foldM]. rewrite Hv. cbn [mbind result_bind].
  rewrite foldM_visit_quiet by done. cbn [mbind result_bind heap].
  rewrite foldM_emit_pair by done. done.
Qed.
End EmitPair.

(** ** One fusion of two nodes in a pass *)

Section PairFused.
Context {R : Type}.
Implicit Types (σ : gmap node_id (Node R)) (n p d : node_id).
Implicit Types (F : Fuser R).
Import NodesFuserCall.

(** A pass whose rule accepts the window [p; d] and no other, and whose
    merge keeps [p], unlinks the two nodes and leaves the other nodes
    alone: the result is the graph without [d]; [p] is what the merge made
    of it, with the children of [d]; every child of [d] has [p] for [d] as
    a parent, at the end of its parents; every parent of [p] has [p] at the
    end of its children; no other node is changed. *)
Lemma pair_fused F (g : Graph) σ k σm k' (l1 l2 : list node_id) p d :
  num_nodes F = 2 →
  nodes g = l1 ++ d :: l2 → NoDup (nodes g) → p ∈ l1 →
  parents (deref σ d) = [p] → children (deref σ p) = [d] →
  is_eligible F σ g [p; d] = Ok true →
  merge F g [p; d] (mkFstate σ k) = Ok ([p], mkFstate σm k') →
  name (deref σm p) = name (deref σ p) →
  op_type (deref σm p) = op_type (deref σ p) →
  parents (deref σm p) = parents (deref σ p) →
  children (deref σm p) = [] →
  deref σm d = set_parents [] (deref σ d) →
  (∀ x, x ≠ p → x ≠ d → deref σm x = deref σ x) →
  (∀ σ0, (∀ x, op_type (deref σ0 x) = op_type (deref σ x)) →
         ∀ x, x ∈ l1 ++ l2 → quiet F g σ0 x) →
  (∀ y, y ∈ nodes g → y ≠ p → y ≠ d →
        name (deref σ y) ≠ name (deref σ p)
        ∧ name (deref σ y) ≠ name (deref σ d)) →
  NoDup (parents (deref σ p)) →
  (∀ gp, gp ∈ parents (deref σ p) →
         gp ≠ p ∧ gp ≠ d ∧ p ∈ children (deref σ gp)
         ∧ NoDup (children (deref σ gp))) →
  NoDup (children (deref σ d)) →
  (∀ c, c ∈ children (deref σ d) →
        c ≠ p ∧ c ≠ d ∧ c ∉ parents (deref σ p)
        ∧ d ∈ parents (deref σ c) ∧ p ∉ parents (deref σ c)) →
  ∃ σ',
    call F g (mkFstate σ k)
    = Ok (mkGraph (l1 ++ l2) (g_inputs g) (g_outputs g), mkFstate σ' k')
    ∧ deref σ' p = set_children (children (deref σ d)) (deref σm p)
    ∧ (∀ c, c ∈ children (deref σ d) →
         ∃ ps, list_remove d (parents (deref σ c)) = Ok ps
               ∧ deref σ' c = set_parents (ps ++ [p]) (deref σ c))
    ∧ (∀ gp, gp ∈ parents (deref σ p) →
         ∃ cs, list_remove p (children (deref σ gp)) = Ok cs
               ∧ deref σ' gp = set_children (cs ++ [p]) (deref σ gp))
    ∧ (∀ x, x ≠ p → x ≠ d → x ∉ parents (deref σ p) →
            x ∉ children (deref σ d) → deref σ' x = deref σ x).
Proof.
  intros Hk Hg Hnd Hp Hpar Hch Hel Hm Hmn Hmop HPm Hmc Hmd Hmo Hq Hnames
    HndP HP HndC HC.
  assert (Hpd : p ≠ d).
  { intros ->. rewrite Hg in Hnd. apply NoDup_app in Hnd as (_ & Hd & _).
    apply (Hd d Hp). by left. }
  assert (HmP : ∀ gp, gp ∈ parents (deref σ p) → deref σm gp = deref σ gp).
  { intros gp Hgp. destruct (HP gp Hgp) as (? & ? & _). by apply Hmo. }
  assert (HmC : ∀ c, c ∈ children (deref σ d) → deref σm c = deref σ c).
  { intros c Hc. destruct (HC c Hc) as (? & ? & _). by apply Hmo. }
  assert (HCm : children (deref σm d) = children (deref σ d))
    by (by rewrite Hmd).
  destruct (visit_pair F g (mkFstate σ k) ∅ p d (mkFstate σm k'))
    as (σ' & Hv & HP' & HC' & Hp' & Hfr);
    cbn [heap num_added]; try done.
  - by rewrite Hch.
  - by rewrite HPm.
  - rewrite HPm. intros Hpp. by destruct (HP p Hpp).
  - rewrite HPm. intros Hdp. by destruct (HP d Hdp) as (? & ? & _).
  - rewrite HPm. intros gp Hgp. rewrite (HmP gp Hgp).
    by destruct (HP gp Hgp) as (? & ? & ? & ?).
  - by rewrite HCm.
  - rewrite HCm. intros Hpc. by destruct (HC p Hpc).
  - rewrite HCm. intros c Hc. rewrite HPm, (HmC c Hc), Hmc.
    destruct (HC c Hc) as (? & ? & ? & ? & ?).
    split_and!; [done..|apply not_elem_of_nil].
  - cbn [heap num_added] in Hv, HP', HC', Hp', Hfr.
    rewrite HPm in HP', Hfr. rewrite HCm in HC', Hfr, Hp'.
    rewrite Hmc in Hp'. cbn [app] in Hp'.
    assert (Hd' : deref σ' d = set_parents [] (deref σ d)).
    { rewrite <-Hmd. apply Hfr; [| |done].
      - intros Hdp. by destruct (HP d Hdp) as (? & ? & _).
      - intros Hdc. by destruct (HC d Hdc) as (? & ? & _). }
    assert (HP'' : ∀ gp, gp ∈ parents (deref σ p) →
              ∃ cs, list_remove p (children (deref σ gp)) = Ok cs
                    ∧ deref σ' gp = set_children (cs ++ [p]) (deref σ gp)).
    { intros gp Hgp. destruct (HP' gp Hgp) as (cs & H1 & H2).
      rewrite (HmP gp Hgp) in H1, H2. eauto. }
    assert (HC'' : ∀ c, c ∈ children (deref σ d) →
              ∃ ps, list_remove d (parents (deref σ c)) = Ok ps
                    ∧ deref σ' c = set_parents (ps ++ [p]) (deref σ c)).
    { intros c Hc. destruct (HC' c Hc) as (ps & H1 & H2).
      rewrite (HmC c Hc) in H1, H2. eauto. }
    assert (Hoth : ∀ x, x ≠ p → x ≠ d → x ∉ parents (deref σ p) →
                     x ∉ children (deref σ d) → deref σ' x = deref σ x).
    { intros x H1 H2 H3 H4. rewrite Hfr by done. by apply Hmo. }
    assert (Hpay : ∀ x, name (deref σ' x) = name (deref σ x)
                        ∧ op_type (deref σ' x) = op_type (deref σ x)).
    { intros x. destruct (decide (x = p)) as [->|H1].
      { rewrite Hp'. cbn [name op_type set_children]. done. }
      destruct (decide (x = d)) as [->|H2]; [by rewrite Hd'|].
      destruct (decide (x ∈ parents (deref σ p))) as [H3|H3].
      { destruct (HP'' x H3) as (cs & _ & ->). done. }
      destruct (decide (x ∈ children (deref σ d))) as [H4|H4].
      { destruct (HC'' x H4) as (ps & _ & ->). done. }
      by rewrite Hoth. }
    exists σ'. split_and!; [|done..].
    apply (call_pair _ _ _ p d); cbn [heap]; try done.
    + apply Forall_forall. intros x Hx. apply (Hq σ); [done|].
      apply elem_of_app. by left.
    + apply Forall_forall. intros x Hx. apply (Hq σ').
      * intros y. apply Hpay.
      * apply elem_of_app. by right.
    + intros y Hy H1 H2. rewrite !(proj1 (Hpay _)). by apply Hnames.
Qed.
End PairFused.

(** ** The removal of Dropout nodes *)

Section Dropout.
Context {R : Type}.
Implicit Types (σ : gmap node_id (Node R)) (n p d : node_id).
Import NodesFuserCall.

(** The rule looks at the operator of the last node of the window only. *)
Lemma dropout_quiet (g : Graph) σ n :
  op_type (deref σ n) ≠ "Dropout" → quiet DropoutRemover.rule g σ n.
Proof.
  intros Hop. unfold quiet.
  destruct (find_window_total σ (num_nodes (DropoutRemover.rule (R:=R))) n)
    as [[w|] Hw]; [right|by left].
  exists w. split; [done|].
  apply find_window_chain in Hw as (Hlen & _ & [?|[_ Hlast]]); [done|].
  apply last_Some in Hlast as [pre ->].
  rewrite length_app in Hlen. cbn in Hlen.
  destruct pre as [|a [|b pre]]; cbn in Hlen; try lia.
  cbn [is_eligible DropoutRemover.rule].
  unfold DropoutRemover.is_eligible, index.
  cbn [lookup list_lookup app mbind result_bind].
  by rewrite bool_decide_eq_false_2.
Qed.

Lemma dropout_merge (g : Graph) σ p d :
  p ≠ d → children (deref σ p) = [d] → parents (deref σ d) = [p] →
  ∃ σm,
    DropoutRemover.merge g [p; d] σ = Ok ([p], σm)
    ∧ deref σm p
      = set_outputs (outputs (deref σ d)) (set_children [] (deref σ p))
    ∧ deref σm d = set_parents [] (deref σ d)
    ∧ (∀ x, x ≠ p → x ≠ d → deref σm x = deref σ x).
Proof.
  intros Hne Hc Hp. unfold DropoutRemover.merge, index.
  cbn [lookup list_lookup mbind result_bind].
  rewrite Hc. cbn [list_remove]. rewrite decide_True by done.
  cbn [mbind result_bind]. rewrite deref_update_ne by congruence.
  rewrite Hp. cbn [list_remove]. rewrite decide_True by done.
  cbn [mbind result_bind]. eexists. split; [done|]. split_and!.
  - heap_simpl. by destruct (deref σ p).
  - by heap_simpl.
  - intros x H1 H2. by heap_simpl.
Qed.

(** The pass on a graph with a single Dropout node [d], whose only parent
    [p] stands before it in the graph and has no other child: the result
    is the graph without [d]; [p] has the outputs and the children of [d],
    every child of [d] has [p] for [d] as a parent, at the end of its
    parents, every parent of [p] has [p] at the end of its children, and no
    other node is changed. *)
Theorem dropout_removed (g : Graph) σ k (l1 l2 : list node_id) p d :
  nodes g = l1 ++ d :: l2 → NoDup (nodes g) → p ∈ l1 →
  op_type (deref σ d) = "Dropout" →
  (∀ x, x ∈ l1 ++ l2 → op_type (deref σ x) ≠ "Dropout") →
  parents (deref σ d) = [p] → children (deref σ p) = [d] →
  (∀ y, y ∈ nodes g → y ≠ p → y ≠ d →
        name (deref σ y) ≠ name (deref σ p)
        ∧ name (deref σ y) ≠ name (deref σ d)) →
  NoDup (parents (deref σ p)) →
  (∀ gp, gp ∈ parents (deref σ p) →
         gp ≠ p ∧ gp ≠ d ∧ p ∈ children (deref σ gp)
         ∧ NoDup (children (deref σ gp))) →
  NoDup (children (deref σ d)) →
  (∀ c, c ∈ children (deref σ d) →
        c ≠ p ∧ c ≠ d ∧ c ∉ parents (deref σ p)
        ∧ d ∈ parents (deref σ c) ∧ p ∉ parents (deref σ c)) →
  ∃ σ',
    call DropoutRemover.rule g (mkFstate σ k)
    = Ok (mkGraph (l1 ++ l2) (g_inputs g) (g_outputs g), mkFstate σ' k)
    ∧ deref σ' p
      = set_children (children (deref σ d))
          (set_outputs (outputs (deref σ d)) (deref σ p))
    ∧ (∀ c, c ∈ children (deref σ d) →
         ∃ ps, list_remove d (parents (deref σ c)) = Ok ps
               ∧ deref σ' c = set_parents (ps ++ [p]) (deref σ c))
    ∧ (∀ gp, gp ∈ parents (deref σ p) →
         ∃ cs, list_remove p (children (deref σ gp)) = Ok cs
               ∧ deref σ' gp = set_children (cs ++ [p]) (deref σ gp))
    ∧ (∀ x, x ≠ p → x ≠ d → x ∉ parents (deref σ p) →
            x ∉ children (deref σ d) → deref σ' x = deref σ x).
Proof.
  intros Hg Hnd Hp Hop Hops Hpar Hch Hnames HndP HP HndC HC.
  assert (Hpd : p ≠ d).
  { intros ->. rewrite Hg in Hnd. apply NoDup_app in Hnd as (_ & Hd & _).
    apply (Hd d Hp). by left. }
  destruct (dropout_merge g σ p d Hpd Hch Hpar) as (σm & Hm & Hmp & Hmd & Hmo).
  destruct (pair_fused DropoutRemover.rule g σ k σm k l1 l2 p d)
    as (σ' & Hcall & Hp' & Hrest); try done; try (by rewrite Hmp).
  - cbn [is_eligible DropoutRemover.rule].
    unfold DropoutRemover.is_eligible, index.
    cbn [lookup list_lookup mbind result_bind].
    by rewrite bool_decide_eq_true_2.
  - cbn [merge DropoutRemover.rule heap]. rewrite Hm. done.
  - intros σ0 Hσ0 x Hx. apply dropout_quiet. rewrite Hσ0. by apply Hops.
  - exists σ'. split_and!; [done| |apply Hrest..].
    rewrite Hp', Hmp. done.
Qed.
End Dropout.

(** Conv → Relu → Dropout → Gemm: the pass leaves Conv → Relu → Gemm, and
    the Relu has the outputs of the Dropout. *)
Lemma dropout_removed_witness :
  ∃ σ',
    NodesFuserCall.call DropoutRemover.rule PassExamples.dr_graph
      (mkFstate PassExamples.dr_heap 0)
    = Ok (mkGraph [0; 1; 3] (g_inputs PassExamples.dr_graph)
            (g_outputs PassExamples.dr_graph), mkFstate σ' 0)
    ∧ outputs (deref σ' 1) = ["dropout_output"; "mask"]
    ∧ children (deref σ' 1) = [3]
    ∧ parents (deref σ' 3) = [1].
Proof.
  destruct (dropout_removed PassExamples.dr_graph PassExamples.dr_heap 0
              [0; 1] [3] 1 2) as (σ' & Hcall & Hp & Hc & _ & _).
  - reflexivity.
  - apply NoDup_ListNoDup. vm_compute.
    repeat (constructor; [simpl; intuition discriminate|]). constructor.
  - apply list_elem_of_In. vm_compute. auto.
  - reflexivity.
  - intros x Hx%list_elem_of_In. vm_compute in Hx.
    destruct Hx as [<-|[<-|[<-|[]]]]; vm_compute; discriminate.
  - reflexivity.
  - reflexivity.
  - intros y Hy%list_elem_of_In. vm_compute in Hy.
    destruct Hy as [<-|[<-|[<-|[<-|[]]]]]; intros ? ?; try done;
      vm_compute; split; discriminate.
  - apply NoDup_ListNoDup. vm_compute.
    repeat (constructor; [simpl; intuition discriminate|]). constructor.
  - intros gp Hgp%list_elem_of_In. vm_compute in Hgp.
    destruct Hgp as [<-|[]]. split_and!; [done..| |].
    + apply list_elem_of_In. vm_compute. auto.
    + apply NoDup_ListNoDup. vm_compute.
      repeat (constructor; [simpl; intuition discriminate|]). constructor.
  - apply NoDup_ListNoDup. vm_compute.
    repeat (constructor; [simpl; intuition discriminate|]). constructor.
  - intros c Hc%list_elem_of_In. vm_compute in Hc.
    destruct Hc as [<-|[]]. split_and!; [done..| | |].
    + intros H%list_elem_of_In. vm_compute in H. intuition discriminate.
    + apply list_elem_of_In. vm_compute. auto.
    + intros H%list_elem_of_In. vm_compute in H. intuition discriminate.
  - exists σ'. split; [exact Hcall|]. rewrite Hp.
    destruct (Hc 3) as (ps & Hps & ->).
    { apply list_elem_of_In. vm_compute. auto. }
    vm_compute in Hps. injection Hps as <-.
    split_and!; reflexivity.
Defined.

(** ** The Conv-Add rule in a pass *)

Section ConvAddPass.
Context {R : Type} `{!ElemOps R}.
Implicit Types (σ : gmap node_id (Node R)) (n p d : node_id).
Import NodesFuserCall.

Lemma conv_add_eligible (g : Graph) σ p d :
  op_type (deref σ p) = "Conv" → op_type (deref σ d) = "Add" →
  attrs (deref σ d) !! "broadcast" = Some (AInt 1) →
  attrs (deref σ d) !! "axis" = Some (AInt 1) →
  ConvAddFuser.is_eligible σ g [p; d] = Ok true.
Proof.
  intros Hp Hd Hb Ha. unfold ConvAddFuser.is_eligible, index, getitem.
  cbn [lookup list_lookup mbind result_bind].
  rewrite Hp, Hd, Hb, Ha. cbn [mbind result_bind].
  by repeat (rewrite decide_False by (intros ?; done)).
Qed.

Lemma conv_add_quiet (g : Graph) σ n :
  op_type (deref σ n) ≠ "Add" → quiet ConvAddFuser.rule g σ n.
Proof.
  intros Hop. unfold quiet.
  destruct (find_window_total σ (num_nodes (ConvAddFuser.rule (R:=R))) n)
    as [[w|] Hw]; [right|by left].
  exists w. split; [done|].
  apply find_window_chain in Hw as (Hlen & _ & [?|[_ Hlast]]); [done|].
  apply last_Some in Hlast as [pre ->].
  rewrite length_app in Hlen. cbn in Hlen.
  destruct pre as [|a [|b pre]]; cbn in Hlen; try lia.
  cbn [is_eligible ConvAddFuser.rule].
  unfold ConvAddFuser.is_eligible, index.
  cbn [lookup list_lookup app mbind result_bind].
  case_decide; [done|]. by rewrite decide_True.
Qed.

Lemma conv_add_merge_frame (g : Graph) σ p d wn weight oc rest on b
    nm bias σ1 new :
  p ≠ d → children (deref σ p) = [d] → parents (deref σ d) = [p] →
  inputs (deref σ p) !! 1 = Some wn →
  input_tensors (deref σ p) !! wn = Some weight →
  t_shape weight = oc :: rest →
  ConvAddFuser.bias_of p oc σ = Ok (nm, bias, σ1) →
  (∀ x, x ≠ p → deref σ1 x = deref σ x) →
  children (deref σ1 p) = children (deref σ p) →
  inputs (deref σ d) !! 1 = Some on →
  input_tensors (deref σ d) !! on = Some b →
  np_add bias b = Ok new →
  ∃ σm,
    ConvAddFuser.merge g [p; d] σ = Ok ([p], σm)
    ∧ deref σm p
      = set_children []
          (set_outputs (outputs (deref σ d))
             (set_input_tensors
                (<[nm := new]> (input_tensors (deref σ1 p))) (deref σ1 p)))
    ∧ deref σm d = set_parents [] (deref σ d)
    ∧ (∀ x, x ≠ p → x ≠ d → deref σm x = deref σ x).
Proof.
  intros Hne Hc Hp Hwn Hw Hsh Hbias Hfr1 Hch1 Hon Hb Hadd.
  assert (Hd1 : deref σ1 d = deref σ d) by (apply Hfr1; congruence).
  unfold ConvAddFuser.merge.
  cbn [index lookup list_lookup mbind result_bind].
  rewrite (index_Some _ _ _ Hwn). cbn [mbind result_bind].
  rewrite (getitem_Some _ _ _ Hw). cbn [mbind result_bind].
  rewrite Hsh. cbn [index lookup list_lookup mbind result_bind].
  rewrite Hbias. cbn [mbind result_bind].
  rewrite Hd1, (index_Some _ _ _ Hon). cbn [mbind result_bind].
  rewrite (getitem_Some _ _ _ Hb). cbn [mbind result_bind].
  rewrite Hadd. cbn [mbind result_bind].
  rewrite !deref_update_eq, !deref_update_ne by done. rewrite Hd1.
  cbn [children set_outputs set_input_tensors]. rewrite Hch1, Hc.
  cbn [list_remove]. rewrite decide_True by done. cbn [mbind result_bind].
  rewrite !deref_update_ne by done. rewrite Hd1, Hp.
  cbn [list_remove]. rewrite decide_True by done. cbn [mbind result_bind].
  eexists. split; [done|]. split_and!.
  - rewrite deref_update_ne by congruence. by rewrite !deref_update_eq.
  - rewrite deref_update_eq. rewrite !deref_update_ne by done.
    by rewrite Hd1.
  - intros x H1 H2. rewrite !deref_update_ne by congruence. by apply Hfr1.
Qed.

(** A pass of the Conv-Add rule over a graph whose only Add [d] follows
    the Conv [p] with broadcast 1 on axis 1 and a literal operand [b]: the
    result is the graph without the Add; the Conv has the bias [bias + b]
    under the name of its third input, which is created with the bias zero
    when the Conv has two inputs, and the outputs and children of the
    Add. *)
Theorem conv_add_fused (g : Graph) σ k (l1 l2 : list node_id) p d
    wn weight oc rest on b nm bias new :
  nodes g = l1 ++ d :: l2 → NoDup (nodes g) → p ∈ l1 →
  op_type (deref σ p) = "Conv" → op_type (deref σ d) = "Add" →
  attrs (deref σ d) !! "broadcast" = Some (AInt 1) →
  attrs (deref σ d) !! "axis" = Some (AInt 1) →
  (∀ x, x ∈ l1 ++ l2 → op_type (deref σ x) ≠ "Add") →
  parents (deref σ d) = [p] → children (deref σ p) = [d] →
  inputs (deref σ p) !! 1 = Some wn →
  input_tensors (deref σ p) !! wn = Some weight →
  t_shape weight = oc :: rest →
  (length (inputs (deref σ p)) = 2
   ∧ nm = name (deref σ p) +:+ "_bias" ∧ bias = np_zeros oc
   ∨ inputs (deref σ p) !! 2 = Some nm
     ∧ input_tensors (deref σ p) !! nm = Some bias) →
  inputs (deref σ d) !! 1 = Some on →
  input_tensors (deref σ d) !! on = Some b →
  np_add bias b = Ok new →
  (∀ y, y ∈ nodes g → y ≠ p → y ≠ d →
        name (deref σ y) ≠ name (deref σ p)
        ∧ name (deref σ y) ≠ name (deref σ d)) →
  NoDup (parents (deref σ p)) →
  (∀ gp, gp ∈ parents (deref σ p) →
         gp ≠ p ∧ gp ≠ d ∧ p ∈ children (deref σ gp)
         ∧ NoDup (children (deref σ gp))) →
  NoDup (children (deref σ d)) →
  (∀ c, c ∈ children (deref σ d) →
        c ≠ p ∧ c ≠ d ∧ c ∉ parents (deref σ p)
        ∧ d ∈ parents (deref σ c) ∧ p ∉ parents (deref σ c)) →
  ∃ σ',
    call ConvAddFuser.rule g (mkFstate σ k)
    = Ok (mkGraph (l1 ++ l2) (g_inputs g) (g_outputs g), mkFstate σ' k)
    ∧ input_tensors (deref σ' p) = <[nm := new]> (input_tensors (deref σ p))
    ∧ inputs (deref σ' p)
      = (if decide (length (inputs (deref σ p)) = 2)
         then inputs (deref σ p) ++ [nm] else inputs (deref σ p))
    ∧ outputs (deref σ' p) = outputs (deref σ d)
    ∧ children (deref σ' p) = children (deref σ d)
    ∧ parents (deref σ' p) = parents (deref σ p)
    ∧ attrs (deref σ' p) = attrs (deref σ p)
    ∧ (∀ c, c ∈ children (deref σ d) →
         ∃ ps, list_remove d (parents (deref σ c)) = Ok ps
               ∧ deref σ' c = set_parents (ps ++ [p]) (deref σ c))
    ∧ (∀ gp, gp ∈ parents (deref σ p) →
         ∃ cs, list_remove p (children (deref σ gp)) = Ok cs
               ∧ deref σ' gp = set_children (cs ++ [p]) (deref σ gp))
    ∧ (∀ x, x ≠ p → x ≠ d → x ∉ parents (deref σ p) →
            x ∉ children (deref σ d) → deref σ' x = deref σ x).
Proof.
  intros Hg Hnd Hp Hopp Hopd Hbr Hax Hops Hpar Hch Hwn Hw Hsh Hbias Hon Hb
    Hadd Hnames HndP HP HndC HC.
  assert (Hpd : p ≠ d).
  { intros ->. rewrite Hg in Hnd. apply NoDup_app in Hnd as (_ & Hd & _).
    apply (Hd d Hp). by left. }
  assert (∃ σ1, ConvAddFuser.bias_of p oc σ = Ok (nm, bias, σ1)
                ∧ (∀ x, x ≠ p → deref σ1 x = deref σ x)
                ∧ name (deref σ1 p) = name (deref σ p)
                ∧ op_type (deref σ1 p) = op_type (deref σ p)
                ∧ attrs (deref σ1 p) = attrs (deref σ p)
                ∧ parents (deref σ1 p) = parents (deref σ p)
                ∧ children (deref σ1 p) = children (deref σ p)
                ∧ outputs (deref σ1 p) = outputs (deref σ p)
                ∧ inputs (deref σ1 p)
                  = (if decide (length (inputs (deref σ p)) = 2)
                     then inputs (deref σ p) ++ [nm] else inputs (deref σ p))
                ∧ <[nm := new]> (input_tensors (deref σ1 p))
                  = <[nm := new]> (input_tensors (deref σ p)))
    as (σ1 & Hb1 & Hfr1 & Hn1 & Ho1 & Ha1 & Hp1 & Hc1 & Hou1 & Hi1 & Ht1).
  { destruct Hbias as [(Hlen & -> & ->)|[Hnm Hbt]].
    - destruct (bias_of_absent σ p oc Hlen) as (σ1 & Hb1 & Hfr1 & Hd1).
      exists σ1. rewrite Hd1. cbn. rewrite decide_True by done.
      split_and!; try done. by rewrite insert_insert_eq.
    - exists σ. rewrite (bias_of_present σ p oc nm bias Hnm Hbt).
      rewrite decide_False; [done|].
      apply lookup_lt_Some in Hnm. lia. }
  destruct (conv_add_merge_frame g σ p d wn weight oc rest on b nm bias σ1 new)
    as (σm & Hm & Hmp & Hmd & Hmo); try done.
  destruct (pair_fused ConvAddFuser.rule g σ k σm k l1 l2 p d)
    as (σ' & Hcall & Hp' & Hrest); try done; try (by rewrite Hmp).
  - by apply conv_add_eligible.
  - cbn [merge ConvAddFuser.rule heap]. rewrite Hm. done.
  - intros σ0 Hσ0 x Hx. apply conv_add_quiet. rewrite Hσ0. by apply Hops.
  - exists σ'. rewrite Hp', Hmp.
    cbn [input_tensors inputs outputs children parents attrs
         set_children set_outputs set_input_tensors].
    split_and!; try done; apply Hrest.
Qed.
End ConvAddPass.

(** The graph of the test [test_fuse_conv_without_bias]: one node is left,
    with three inputs, the bias [b] and the output of the graph. *)
Lemma conv_add_fused_witness :
  ∃ σ',
    NodesFuserCall.call ConvAddFuser.rule Examples.ca_graph
      (mkFstate Examples.ca_heap 0)
    = Ok (mkGraph [0] (g_inputs Examples.ca_graph)
            (g_outputs Examples.ca_graph), mkFstate σ' 0)
    ∧ inputs (deref σ' 0) = ["input0"; "weight"; "conv_bias"]
    ∧ input_tensors (deref σ' 0) !! "conv_bias" = Some Examples.ca_bias
    ∧ outputs (deref σ' 0) = ["output0"].
Proof.
  destruct (conv_add_fused Examples.ca_graph Examples.ca_heap 0 [0] [] 0 1
              "weight" Examples.ca_weight 2 [1; 1; 1] "bias" Examples.ca_bias
              "conv_bias" (np_zeros 2) Examples.ca_bias)
    as (σ' & Hcall & Ht & Hi & Ho & _); try reflexivity.
  - apply NoDup_ListNoDup. vm_compute.
    repeat (constructor; [simpl; intuition discriminate|]). constructor.
  - apply list_elem_of_In. vm_compute. auto.
  - intros x Hx%list_elem_of_In. vm_compute in Hx.
    destruct Hx as [<-|[]]. vm_compute. discriminate.
  - left. split_and!; reflexivity.
  - intros y Hy%list_elem_of_In. vm_compute in Hy.
    destruct Hy as [<-|[<-|[]]]; intros ? ?; done.
  - apply NoDup_ListNoDup. vm_compute. constructor.
  - intros gp Hgp%list_elem_of_In. vm_compute in Hgp. done.
  - apply NoDup_ListNoDup. vm_compute. constructor.
  - intros c Hc%list_elem_of_In. vm_compute in Hc. done.
  - exists σ'. split; [exact Hcall|]. rewrite Ht, Hi, Ho.
    split_and!; reflexivity.
Defined.

(** ** The rules on a BatchNormalization *)

Section BNEligibility.
Context {R : Type} `{!ElemOps R}.
Implicit Types (σ : gmap node_id (Node R)) (n p d : node_id).

(** The check of the BatchNormalization-Add rule never raises: the number
    of inputs of the Add is tested before its second input is read.  It
    answers true exactly for a BatchNormalization followed by an Add with
    broadcast 1 on axis 1 that has two inputs, the second a literal. *)
Theorem bn_add_is_eligible_spec (g : Graph) σ p d :
  ∃ r, BNBroadcastedAddFuser.is_eligible σ g [p; d] = Ok r
       ∧ (r = true ↔
          op_type (deref σ p) = "BatchNormalization"
          ∧ op_type (deref σ d) = "Add"
          ∧ attrs (deref σ d) !! "broadcast" = Some (AInt 1)
          ∧ attrs (deref σ d) !! "axis" = Some (AInt 1)
          ∧ length (inputs (deref σ d)) = 2
          ∧ ∃ on, inputs (deref σ d) !! 1 = Some on
                  ∧ is_Some (input_tensors (deref σ d) !! on)).
Proof.
  unfold BNBroadcastedAddFuser.is_eligible, getitem, index.
  cbn [lookup list_lookup mbind result_bind].
  case_decide as H1; [exists false; split; [done|]; split; [done|tauto]|].
  case_decide as H2; [exists false; split; [done|]; split; [done|tauto]|].
  destruct (attrs (deref σ d) !! "broadcast") as [br|] eqn:Hbr; last first.
  { rewrite decide_True by done. exists false.
    split; [done|]. split; [done|]. by intros (_ & _ & ? & _). }
  rewrite decide_False by done. cbn [mbind result_bind].
  case_decide as H3.
  { exists false. split; [done|]. split; [done|].
    intros (_ & _ & [= ?] & _). done. }
  destruct (attrs (deref σ d) !! "axis") as [ax|] eqn:Hax; last first.
  { rewrite decide_True by done. exists false.
    split; [done|]. split; [done|]. by intros (_ & _ & _ & ? & _). }
  rewrite decide_False by done. cbn [mbind result_bind].
  case_decide as H4.
  { exists false. split; [done|]. split; [done|].
    intros (_ & _ & _ & [= ?] & _). done. }
  case_decide as H5.
  { exists false. split; [done|]. split; [done|]. tauto. }
  destruct (inputs (deref σ d) !! 1) as [on|] eqn:Hon; last first.
  { apply lookup_ge_None in Hon. lia. }
  cbn [mbind result_bind]. subst br ax.
  case_decide as H6.
  - exists false. split; [done|]. split; [done|].
    intros (_ & _ & _ & _ & _ & on' & [= <-] & [? Hs]). congruence.
  - exists true. split; [done|]. split; [|done]. intros _.
    split_and!; try done. exists on. split; [done|].
    by apply not_eq_None_Some.
Qed.

(** The check of the BatchNormalization-Mul rule reads the second input of
    the Mul without a test on their number: it raises [IndexError] exactly
    for a BatchNormalization followed by a Mul with broadcast 1 on axis 1
    that has fewer than two inputs, and raises nothing else. *)
Theorem bn_mul_is_eligible_raises (g : Graph) σ p d e :
  BNBroadcastedMulFuser.is_eligible σ g [p; d] = Raise e ↔
  e = IndexError
  ∧ op_type (deref σ p) = "BatchNormalization"
  ∧ op_type (deref σ d) = "Mul"
  ∧ attrs (deref σ d) !! "broadcast" = Some (AInt 1)
  ∧ attrs (deref σ d) !! "axis" = Some (AInt 1)
  ∧ length (inputs (deref σ d)) < 2.
Proof.
  unfold BNBroadcastedMulFuser.is_eligible, getitem, index.
  cbn [lookup list_lookup mbind result_bind].
  case_decide as H1; [split; [done|tauto]|].
  case_decide as H2; [split; [done|tauto]|].
  destruct (attrs (deref σ d) !! "broadcast") as [br|] eqn:Hbr; last first.
  { rewrite decide_True by done. split; [done|]. by intros (_ & _ & _ & ? & _). }
  rewrite decide_False by done. cbn [mbind result_bind].
  case_decide as H3.
  { split; [done|]. intros (_ & _ & _ & [= ?] & _). done. }
  destruct (attrs (deref σ d) !! "axis") as [ax|] eqn:Hax; last first.
  { rewrite decide_True by done. split; [done|].
    by intros (_ & _ & _ & _ & ? & _). }
  rewrite decide_False by done. cbn [mbind result_bind].
  case_decide as H4.
  { split; [done|]. intros (_ & _ & _ & _ & [= ?] & _). done. }
  subst br ax.
  destruct (inputs (deref σ d) !! 1) as [on|] eqn:Hon.
  - cbn [mbind result_bind]. apply lookup_lt_Some in Hon.
    case_decide; (split; [done|]); intros (_ & _ & _ & _ & _ & ?); lia.
  - cbn [mbind result_bind]. apply lookup_ge_None in Hon.
    split; [intros [= <-]|by intros (-> & _)]. split_and!; try done. lia.
Qed.
End BNEligibility.

(** ** The BatchNormalization-Add rule in a pass *)

Section BNAddPass.
Context {R : Type} `{!ElemOps R}.
Implicit Types (σ : gmap node_id (Node R)) (n p d : node_id).
Import NodesFuserCall.

Lemma bn_add_eligible (g : Graph) σ p d on b :
  op_type (deref σ p) = "BatchNormalization" →
  op_type (deref σ d) = "Add" →
  attrs (deref σ d) !! "broadcast" = Some (AInt 1) →
  attrs (deref σ d) !! "axis" = Some (AInt 1) →
  length (inputs (deref σ d)) = 2 →
  inputs (deref σ d) !! 1 = Some on →
  input_tensors (deref σ d) !! on = Some b →
  BNBroadcastedAddFuser.is_eligible σ g [p; d] = Ok true.
Proof.
  intros Hp Hd Hb Ha Hl Hon Ht.
  unfold BNBroadcastedAddFuser.is_eligible, index, getitem.
  cbn [lookup list_lookup mbind result_bind].
  rewrite Hp, Hd, Hb, Ha, Hl, Hon. cbn [mbind result_bind]. rewrite Ht.
  by repeat (rewrite decide_False by (intros ?; done)).
Qed.

Lemma bn_add_quiet (g : Graph) σ n :
  op_type (deref σ n) ≠ "Add" → quiet BNBroadcastedAddFuser.rule g σ n.
Proof.
  intros Hop. unfold quiet.
  destruct (find_window_total σ
              (num_nodes (BNBroadcastedAddFuser.rule (R:=R))) n)
    as [[w|] Hw]; [right|by left].
  exists w. split; [done|].
  apply find_window_chain in Hw as (Hlen & _ & [?|[_ Hlast]]); [done|].
  apply last_Some in Hlast as [pre ->].
  rewrite length_app in Hlen. cbn in Hlen.
  destruct pre as [|a [|b pre]]; cbn in Hlen; try lia.
  cbn [is_eligible BNBroadcastedAddFuser.rule].
  unfold BNBroadcastedAddFuser.is_eligible, index.
  cbn [lookup list_lookup app mbind result_bind].
  case_decide; [done|]. by rewrite decide_True.
Qed.

Lemma bn_add_merge_frame (g : Graph) σ p d bn bias on b new :
  p ≠ d → children (deref σ p) = [d] → parents (deref σ d) = [p] →
  inputs (deref σ p) !! 2 = Some bn →
  input_tensors (deref σ p) !! bn = Some bias →
  inputs (deref σ d) !! 1 = Some on →
  input_tensors (deref σ d) !! on = Some b →
  np_add bias b = Ok new →
  ∃ σm,
    BNBroadcastedAddFuser.merge g [p; d] σ = Ok ([p], σm)
    ∧ deref σm p
      = set_children []
          (set_outputs (outputs (deref σ d))
             (set_input_tensors
                (<[bn := new]> (input_tensors (deref σ p))) (deref σ p)))
    ∧ deref σm d = set_parents [] (deref σ d)
    ∧ (∀ x, x ≠ p → x ≠ d → deref σm x = deref σ x).
Proof.
  intros Hne Hc Hp Hbn Hbias Hon Hb Hadd.
  unfold BNBroadcastedAddFuser.merge.
  cbn [index lookup list_lookup mbind result_bind].
  rewrite (index_Some _ _ _ Hbn). cbn [mbind result_bind].
  rewrite (getitem_Some _ _ _ Hbias). cbn [mbind result_bind].
  rewrite (index_Some _ _ _ Hon). cbn [mbind result_bind].
  rewrite (getitem_Some _ _ _ Hb). cbn [mbind result_bind].
  rewrite Hadd. cbn [mbind result_bind].
  rewrite !deref_update_eq, !deref_update_ne by done.
  cbn [children set_outputs set_input_tensors]. rewrite Hc.
  cbn [list_remove]. rewrite decide_True by done. cbn [mbind result_bind].
  rewrite !deref_update_ne by done. rewrite Hp.
  cbn [list_remove]. rewrite decide_True by done. cbn [mbind result_bind].
  eexists. split; [done|]. split_and!.
  - rewrite deref_update_ne by congruence. by rewrite !deref_update_eq.
  - rewrite deref_update_eq. by rewrite !deref_update_ne by done.
  - intros x H1 H2. by rewrite !deref_update_ne by congruence.
Qed.

(** A pass of the BatchNormalization-Add rule over a graph whose only Add
    [d] follows the BatchNormalization [p] with broadcast 1 on axis 1, two
    inputs and a literal second operand [b]: the result is the graph
    without the Add; the bias of the BatchNormalization, its third input,
    is [bias + b], its other literals are kept, and it has the outputs and
    the children of the Add. *)
Theorem bn_add_fused (g : Graph) σ k (l1 l2 : list node_id) p d
    bn bias on b new :
  nodes g = l1 ++ d :: l2 → NoDup (nodes g) → p ∈ l1 →
  op_type (deref σ p) = "BatchNormalization" →
  op_type (deref σ d) = "Add" →
  attrs (deref σ d) !! "broadcast" = Some (AInt 1) →
  attrs (deref σ d) !! "axis" = Some (AInt 1) →
  length (inputs (deref σ d)) = 2 →
  (∀ x, x ∈ l1 ++ l2 → op_type (deref σ x) ≠ "Add") →
  parents (deref σ d) = [p] → children (deref σ p) = [d] →
  inputs (deref σ p) !! 2 = Some bn →
  input_tensors (deref σ p) !! bn = Some bias →
  inputs (deref σ d) !! 1 = Some on →
  input_tensors (deref σ d) !! on = Some b →
  np_add bias b = Ok new →
  (∀ y, y ∈ nodes g → y ≠ p → y ≠ d →
        name (deref σ y) ≠ name (deref σ p)
        ∧ name (deref σ y) ≠ name (deref σ d)) →
  NoDup (parents (deref σ p)) →
  (∀ gp, gp ∈ parents (deref σ p) →
         gp ≠ p ∧ gp ≠ d ∧ p ∈ children (deref σ gp)
         ∧ NoDup (children (deref σ gp))) →
  NoDup (children (deref σ d)) →
  (∀ c, c ∈ children (deref σ d) →
        c ≠ p ∧ c ≠ d ∧ c ∉ parents (deref σ p)
        ∧ d ∈ parents (deref σ c) ∧ p ∉ parents (deref σ c)) →
  ∃ σ',
    call BNBroadcastedAddFuser.rule g (mkFstate σ k)
    = Ok (mkGraph (l1 ++ l2) (g_inputs g) (g_outputs g), mkFstate σ' k)
    ∧ deref σ' p
      = set_children (children (deref σ d))
          (set_outputs (outputs (deref σ d))
             (set_input_tensors
                (<[bn := new]> (input_tensors (deref σ p))) (deref σ p)))
    ∧ (∀ c, c ∈ children (deref σ d) →
         ∃ ps, list_remove d (parents (deref σ c)) = Ok ps
               ∧ deref σ' c = set_parents (ps ++ [p]) (deref σ c))
    ∧ (∀ gp, gp ∈ parents (deref σ p) →
         ∃ cs, list_remove p (children (deref σ gp)) = Ok cs
               ∧ deref σ' gp = set_children (cs ++ [p]) (deref σ gp))
    ∧ (∀ x, x ≠ p → x ≠ d → x ∉ parents (deref σ p) →
            x ∉ children (deref σ d) → deref σ' x = deref σ x).
Proof.
  intros Hg Hnd Hp Hopp Hopd Hbr Hax Hlen Hops Hpar Hch Hbn Hbias Hon Hb
    Hadd Hnames HndP HP HndC HC.
  assert (Hpd : p ≠ d).
  { intros ->. rewrite Hg in Hnd. apply NoDup_app in Hnd as (_ & Hd & _).
    apply (Hd d Hp). by left. }
  destruct (bn_add_merge_frame g σ p d bn bias on b new)
    as (σm & Hm & Hmp & Hmd & Hmo); try done.
  destruct (pair_fused BNBroadcastedAddFuser.rule g σ k σm k l1 l2 p d)
    as (σ' & Hcall & Hp' & Hrest); try done; try (by rewrite Hmp).
  - by eapply bn_add_eligible.
  - cbn [merge BNBroadcastedAddFuser.rule heap]. rewrite Hm. done.
  - intros σ0 Hσ0 x Hx. apply bn_add_quiet. rewrite Hσ0. by apply Hops.
  - exists σ'. split_and!; [done| |apply Hrest..].
    rewrite Hp', Hmp. done.
Qed.
End BNAddPass.

(** A BatchNormalization with bias [5, 7] followed by an Add of [1, -1]
    and a Relu. *)
Lemma bn_add_fused_witness :
  ∃ σ',
    NodesFuserCall.call BNBroadcastedAddFuser.rule PassExamples.ba_graph
      (mkFstate PassExamples.ba_heap 0)
    = Ok (mkGraph [0; 2] (g_inputs PassExamples.ba_graph)
            (g_outputs PassExamples.ba_graph), mkFstate σ' 0)
    ∧ input_tensors (deref σ' 0) !! "bias" = Some (mkTensor [2] [6; 6]%Z)
    ∧ input_tensors (deref σ' 0) !! "scale" = Some Examples.bn_scale
    ∧ outputs (deref σ' 0) = ["add_output"]
    ∧ children (deref σ' 0) = [2]
    ∧ parents (deref σ' 2) = [0].
Proof.
  destruct (bn_add_fused PassExamples.ba_graph PassExamples.ba_heap 0
              [0] [2] 0 1 "bias" Examples.bn_bias "shift"
              (mkTensor [2] [1; -1]%Z) (mkTensor [2] [6; 6]%Z))
    as (σ' & Hcall & Hp & Hc & _ & _); try reflexivity.
  - apply NoDup_ListNoDup. vm_compute.
    repeat (constructor; [simpl; intuition discriminate|]). constructor.
  - apply list_elem_of_In. vm_compute. auto.
  - intros x Hx%list_elem_of_In. vm_compute in Hx.
    destruct Hx as [<-|[<-|[]]]; vm_compute; discriminate.
  - intros y Hy%list_elem_of_In. vm_compute in Hy.
    destruct Hy as [<-|[<-|[<-|[]]]]; intros ? ?; try done;
      vm_compute; split; discriminate.
  - apply NoDup_ListNoDup. vm_compute. constructor.
  - intros gp Hgp%list_elem_of_In. vm_compute in Hgp. done.
  - apply NoDup_ListNoDup. vm_compute.
    repeat (constructor; [simpl; intuition discriminate|]). constructor.
  - intros c Hc%list_elem_of_In. vm_compute in Hc.
    destruct Hc as [<-|[]]. split_and!; [done..| | |].
    + intros H%list_elem_of_In. vm_compute in H. done.
    + apply list_elem_of_In. vm_compute. auto.
    + intros H%list_elem_of_In. vm_compute in H. intuition discriminate.
  - exists σ'. split; [exact Hcall|]. rewrite Hp.
    destruct (Hc 2) as (ps & Hps & ->).
    { apply list_elem_of_In. vm_compute. auto. }
    vm_compute in Hps. injection Hps as <-.
    split_and!; reflexivity.
Defined.

(** ** Constant-reshape folding: what is passed over, and what fails *)

Section ReshapeEdges.
Context {R : Type} `{!ElemOps R}.
Implicit Types (σ : gmap node_id (Node R)) (n m : node_id).
Import ReshapeInitTensorFuser.

Lemma map_size_1 {V} (m : gmap string V) :
  size m = 1 → ∃ k v, m = {[k := v]}.
Proof.
  intros Hs. rewrite <-length_map_to_list in Hs.
  destruct (map_to_list m) as [|[k v] [|? ?]] eqn:Hm; try done.
  exists k, v. rewrite <-(list_to_map_to_list m), Hm. simpl.
  by rewrite insert_empty.
Qed.

Lemma visit_not_foldable n σ rem :
  not_foldable σ n → visit n (σ, rem) = Ok (σ, rem).
Proof.
  intros [Hop|[Hs|(i0 & Hi & Ht)]]; unfold visit.
  - by rewrite decide_True.
  - case_decide; [done|]. by rewrite decide_True.
  - case_decide; [done|]. case_decide as Hs; [done|].
    destruct (map_size_1 _ Hs) as (k & v & Hm).
    rewrite Hm, map_to_list_singleton.
    cbn [fmap list_fmap fst index lookup list_lookup mbind result_bind].
    rewrite (index_Some _ _ _ Hi). cbn [mbind result_bind].
    rewrite decide_True; [done|]. intros <-.
    rewrite Hm, lookup_singleton_eq in Ht. done.
Qed.

Lemma foldM_visit_not_foldable (l : list node_id) σ rem :
  Forall (not_foldable σ) l → foldM visit l (σ, rem) = Ok (σ, rem).
Proof.
  induction 1 as [|n l Hn _ IH]; [done|].
  cbn [foldM]. rewrite visit_not_foldable by done. done.
Qed.

(** A graph without a Reshape whose only literal is its first input is
    returned as it is, and no node is changed. *)
Theorem reshape_fold_nothing (g : Graph) σ :
  Forall (not_foldable σ) (nodes g) → call g σ = Ok (g, σ).
Proof.
  intros Hl. unfold call. rewrite foldM_visit_not_foldable by done.
  cbn [mbind result_bind].
  rewrite filter_Forall_id; [by destruct g|].
  apply Forall_forall. intros x _. apply not_elem_of_nil.
Qed.

(** The first Reshape of the graph whose only literal [t] is its first
    input makes the pass fail: with [AssertionError] when the node has a
    parent; else with [IndexError] when it has no output; else with
    [KeyError] when it has no [shape] attribute; else with the error of
    the reshape of [t] to that attribute. *)
Theorem reshape_fold_errors (g : Graph) σ (l1 l2 : list node_id) n tn t :
  nodes g = l1 ++ n :: l2 →
  Forall (not_foldable σ) l1 →
  op_type (deref σ n) = "Reshape" →
  input_tensors (deref σ n) = {[tn := t]} →
  inputs (deref σ n) !! 0 = Some tn →
  (parents (deref σ n) ≠ [] → call g σ = Raise AssertionError)
  ∧ (parents (deref σ n) = [] → outputs (deref σ n) = [] →
     call g σ = Raise IndexError)
  ∧ (parents (deref σ n) = [] → outputs (deref σ n) ≠ [] →
     attrs (deref σ n) !! "shape" = None → call g σ = Raise KeyError)
  ∧ (∀ shape e,
       parents (deref σ n) = [] → outputs (deref σ n) ≠ [] →
       attrs (deref σ n) !! "shape" = Some shape →
       reshape_to t shape = Raise e → call g σ = Raise e).
Proof.
  intros Hg Hl1 Hop Ht Hi.
  assert (Hcall : ∀ e, visit n (σ, []) = Raise e → call g σ = Raise e).
  { intros e He. unfold call. rewrite Hg, foldM_app.
    rewrite foldM_visit_not_foldable by done.
    cbn [mbind result_bind foldM]. by rewrite He. }
  assert (Hv : visit n (σ, [])
               = if decide (length (parents (deref σ n)) ≠ 0)
                 then Raise AssertionError
                 else
                   output_name ← index (outputs (deref σ n)) 0;
                   shape ← getitem (attrs (deref σ n)) "shape";
                   reshaped_tensor ← reshape_to t shape;
                   σ ← foldM (attach n output_name reshaped_tensor)
                             (children (deref σ n)) σ;
                   Ok (σ, [n])).
  { unfold visit. rewrite Hop, Ht, map_size_singleton.
    rewrite decide_False by (intros ?; done).
    rewrite decide_False by (intros ?; done).
    rewrite map_to_list_singleton.
    cbn [fmap list_fmap fst index lookup list_lookup mbind result_bind].
    rewrite (index_Some _ _ _ Hi). cbn [mbind result_bind].
    rewrite decide_False by (intros ?; done).
    case_decide; [done|].
    destruct (index (outputs (deref σ n)) 0); [|done].
    cbn [mbind result_bind]. unfold getitem.
    by rewrite lookup_singleton_eq. }
  split_and!.
  - intros Hp. apply Hcall. rewrite Hv, decide_True; [done|].
    by destruct (parents (deref σ n)).
  - intros Hp Ho. apply Hcall. rewrite Hv, Hp, Ho.
    by rewrite decide_False by (intros ?; done).
  - intros Hp Ho Hs. apply Hcall. rewrite Hv, Hp.
    rewrite decide_False by (intros ?; done).
    destruct (outputs (deref σ n)) as [|out outs]; [done|].
    cbn [index lookup list_lookup mbind result_bind].
    unfold getitem. by rewrite Hs.
  - intros shape e Hp Ho Hs He. apply Hcall. rewrite Hv, Hp.
    rewrite decide_False by (intros ?; done).
    destruct (outputs (deref σ n)) as [|out outs]; [done|].
    cbn [index lookup list_lookup mbind result_bind].
    unfold getitem. rewrite Hs. cbn [mbind result_bind]. by rewrite He.
Qed.
End ReshapeEdges.

(** The pixel-shuffle chain has a Reshape, but none with a literal. *)
Lemma reshape_fold_nothing_witness :
  ReshapeInitTensorFuser.call Examples.ps_graph (Examples.ps_heap 1)
  = Ok (Examples.ps_graph, Examples.ps_heap 1).
Proof.
  apply reshape_fold_nothing.
  repeat apply Forall_cons_2; [| | |apply Forall_nil_2].
  - right; left. vm_compute. discriminate.
  - left. vm_compute. discriminate.
  - right; left. vm_compute. discriminate.
Defined.

(** A Reshape of a literal to a computed shape has a parent, and a Reshape
    of a literal to a shape that is a graph input has no [shape]
    attribute. *)
Lemma reshape_fold_errors_witness :
  ReshapeInitTensorFuser.call PassExamples.rp_graph PassExamples.rp_heap
  = Raise AssertionError
  ∧ ReshapeInitTensorFuser.call PassExamples.rp_graph
      (<[1 := PassExamples.rp_reshape []]> PassExamples.rp_heap)
    = Raise KeyError.
Proof.
  split.
  - refine (proj1 (reshape_fold_errors PassExamples.rp_graph
                     PassExamples.rp_heap [0] [] 1 "w" Examples.cr_tensor
                     _ _ _ _ _) _); try reflexivity.
    + apply Forall_cons_2; [|apply Forall_nil_2].
      left. vm_compute. discriminate.
    + vm_compute. discriminate.
  - refine (proj1 (proj2 (proj2 (reshape_fold_errors PassExamples.rp_graph
                     (<[1 := PassExamples.rp_reshape []]> PassExamples.rp_heap)
                     [0] [] 1 "w" Examples.cr_tensor _ _ _ _ _))) _ _ _);
      try reflexivity.
    + apply Forall_cons_2; [|apply Forall_nil_2].
      left. vm_compute. discriminate.
    + vm_compute. discriminate.
Defined.

(** ** What the auxiliary passes leave alone *)

Section DanglingFrame.
Context {R : Type}.
Implicit Types (σ : gmap node_id (Node R)) (n m : node_id).
Import DanglingOutputsRemover.

Lemma same_but_outputs_refl (x : Node R) : same_but_outputs x x.
Proof. by repeat split. Qed.

Lemma visit_frame (g : Graph) σ m n :
  same_but_outputs (deref (visit g σ m) n) (deref σ n)
  ∧ outputs (deref (visit g σ m) n) `sublist_of` outputs (deref σ n).
Proof.
  unfold visit. rewrite deref_update. case_decide as Hm; [subst m|done].
  split; [by repeat split|]. cbn [outputs set_outputs]. apply sublist_filter.
Qed.

Lemma foldl_visit_frame (g : Graph) (l : list node_id) : ∀ σ n,
  same_but_outputs (deref (foldl (visit g) σ l) n) (deref σ n)
  ∧ outputs (deref (foldl (visit g) σ l) n) `sublist_of` outputs (deref σ n).
Proof.
  induction l as [|m l IH]; intros σ n; [split; [apply same_but_outputs_refl|done]|].
  cbn [foldl]. destruct (IH (visit g σ m) n) as [Hs Hsub].
  destruct (visit_frame g σ m n) as [Hs' Hsub'].
  split; [|by etrans].
  destruct Hs as (?&?&?&?&?&?&?), Hs' as (?&?&?&?&?&?&?).
  repeat split; congruence.
Qed.

(** Dangling-output elimination changes nothing but lists of outputs, and
    those by leaving entries out: the graph comes back as it is, every
    node keeps its name, operator, attributes, inputs, literals and
    neighbours, its outputs after the pass are a sublist of those before,
    and a node that is not in the graph is not touched.  A graph all of
    whose outputs are used is left as it is. *)
Theorem dangling_outputs_frame (g : Graph) σ n :
  (call g σ).1 = g
  ∧ same_but_outputs (deref (call g σ).2 n) (deref σ n)
  ∧ outputs (deref (call g σ).2 n) `sublist_of` outputs (deref σ n)
  ∧ (n ∉ nodes g → deref (call g σ).2 n = deref σ n)
  ∧ (Forall (settled σ g) (nodes g) → call g σ = (g, σ)).
Proof.
  unfold call. cbn [fst snd].
  destruct (foldl_visit_frame g (nodes g) σ n) as [Hs Hsub].
  split_and!; [done..| |].
  - intros Hn. by apply foldl_visit_outputs_other.
  - intros Hl. f_equal. by apply foldl_visit_settled_id.
Qed.
End DanglingFrame.

Section RenamerFrame.
Context {R : Type}.
Implicit Types (σ : gmap node_id (Node R)) (M : gmap string string).
Implicit Types (n m c : node_id).
Import OutputRenamer.

Lemma names_only_refl σ : names_only σ σ.
Proof. intros x. by repeat split. Qed.

Lemma names_only_trans σ σ1 σ2 :
  names_only σ σ1 → names_only σ1 σ2 → names_only σ σ2.
Proof.
  intros H1 H2 x. destruct (H1 x) as (?&?&?&?&?&?&?&?).
  destruct (H2 x) as (?&?&?&?&?&?&?&?). repeat split; congruence.
Qed.

Lemma names_only_foldl {A} (f : gmap node_id (Node R) → A → gmap node_id (Node R))
    (l : list A) :
  (∀ σ a, names_only σ (f σ a)) → ∀ σ, names_only σ (foldl f σ l).
Proof.
  intros Hf. induction l as [|a l IH]; intros σ; [apply names_only_refl|].
  cbn [foldl]. eapply names_only_trans; [apply Hf|apply IH].
Qed.

Lemma names_only_inputs σ c j new :
  names_only σ (update c (λ x, set_inputs (<[j := new]> (inputs x)) x) σ).
Proof.
  intros x. rewrite deref_update. case_decide; [subst|by repeat split].
  repeat split. cbn [inputs set_inputs]. apply length_insert.
Qed.

Lemma names_only_outputs σ n i new :
  names_only σ (update n (λ x, set_outputs (<[i := new]> (outputs x)) x) σ).
Proof.
  intros x. rewrite deref_update. case_decide; [subst|by repeat split].
  repeat split. cbn [outputs set_outputs]. apply length_insert.
Qed.

Lemma rename_inputs_names_only o new c σ :
  names_only σ (rename_inputs o new c σ).
Proof.
  unfold rename_inputs. apply names_only_foldl. clear σ. intros σ j.
  destruct (inputs (deref σ c) !! j); [|apply names_only_refl].
  case_decide; [apply names_only_refl|apply names_only_inputs].
Qed.

Lemma rename_outputs_names_only n (count : nat) : ∀ i σ M,
  names_only σ (rename_outputs n count i (σ, M)).1
  ∧ (rename_outputs n count i (σ, M)).2 ⊆ M.
Proof.
  induction count as [|count IH]; intros i σ M;
    [split; [apply names_only_refl|done]|].
  destruct (outputs (deref σ n) !! i) as [o|] eqn:Ho; last first.
  { cbn [rename_outputs]. rewrite Ho. split; [apply names_only_refl|done]. }
  destruct (M !! o) as [new|] eqn:HM.
  - rewrite (rename_outputs_apply _ _ _ _ _ _ _ Ho HM).
    destruct (IH (S i) (applied n i o new σ) (delete o M)) as [Hn Hsub].
    split.
    + eapply names_only_trans; [|apply Hn]. unfold applied.
      eapply names_only_trans; [apply names_only_outputs|].
      apply names_only_foldl. intros; apply rename_inputs_names_only.
    + etrans; [apply Hsub|apply delete_subseteq].
  - rewrite (rename_outputs_skip _ _ _ _ _ _ Ho HM). apply IH.
Qed.

Lemma foldl_visit_names_only (l : list node_id) : ∀ σ M,
  names_only σ (foldl visit (σ, M) l).1 ∧ (foldl visit (σ, M) l).2 ⊆ M.
Proof.
  induction l as [|n l IH]; intros σ M; [split; [apply names_only_refl|done]|].
  cbn [foldl]. unfold visit at 2 4. cbn [fst].
  destruct (rename_outputs_names_only n (length (outputs (deref σ n))) 0 σ M)
    as [Hn Hsub].
  destruct (rename_outputs n _ 0 (σ, M)) as [σ1 M1]. cbn [fst snd] in *.
  destruct (IH σ1 M1) as [Hn' Hsub'].
  split; [by eapply names_only_trans|by etrans].
Qed.

Lemma foldl_visit_empty (l : list node_id) : ∀ σ,
  foldl visit (σ, ∅) l = (σ, ∅).
Proof.
  induction l as [|n l IH]; intros σ; [done|].
  cbn [foldl]. unfold visit at 2. cbn [fst].
  by rewrite rename_outputs_empty.
Qed.

(** Output renaming changes names of outputs and inputs and nothing else:
    the graph comes back as it is; every node keeps its name, operator,
    attributes, literals (also those under a renamed name) and neighbours
    and the number of its inputs and outputs; the working copy of the
    mapping only loses entries.  With the empty mapping nothing changes. *)
Theorem output_renaming_frame M (g : Graph) σ n :
  (call M g σ).1.1 = g
  ∧ same_but_names (deref (call M g σ).1.2 n) (deref σ n)
  ∧ (call M g σ).2 ⊆ M
  ∧ call ∅ g σ = (g, σ, ∅).
Proof.
  unfold call. rewrite foldl_visit_empty.
  destruct (foldl_visit_names_only (nodes g) σ M) as [Hn Hsub].
  destruct (foldl visit (σ, M) (nodes g)) as [σ' M']. cbn [fst snd] in *.
  split_and!; done.
Qed.
End RenamerFrame.

(** ** The second loop of the driver *)

Section EmitByName.
Context {R : Type}.
Implicit Types (σ : gmap node_id (Node R)) (M : gmap string (list node_id)).
Import NodesFuserCall.

Lemma foldM_emit_recorded σ M merged m0 (l : list node_id) : ∀ t a,
  merged !! 0 = Some m0 → m0 ∈ a →
  (∀ y merged', y ∈ l → M !! name (deref σ y) = Some merged' →
                merged' = merged) →
  foldM (emit σ M) l (t, a)
  = Ok (t ++ filter (λ y, name (deref σ y) ∉ dom M) l, a).
Proof.
  induction l as [|y l IH]; intros t a Hm Ha Hl.
  - by rewrite app_nil_r.
  - cbn [foldM]. rewrite filter_cons.
    destruct (M !! name (deref σ y)) as [merged'|] eqn:Hy.
    + rewrite (Hl y merged') in Hy by (done || by left).
      rewrite (emit_again _ _ _ _ _ _ _ Hy Hm Ha). cbn [mbind result_bind].
      rewrite decide_False by (intros Hd; by apply not_elem_of_dom in Hd; rewrite Hd in Hy).
      apply IH; [done..|]. intros ?? ?. apply Hl. by right.
    + rewrite (emit_unmerged _ _ _ _ _ Hy). cbn [mbind result_bind].
      rewrite decide_True by (by apply not_elem_of_dom).
      rewrite IH; [by rewrite <-app_assoc|done..|].
      intros ?? ?. apply Hl. by right.
Qed.

(** The second loop goes by the names of the nodes.  Where one
    replacement is recorded, it is put where the first node with a
    recorded name stands, and every later node with a recorded name is
    left out, member of the window or not; the other nodes are kept in
    their order. *)
Theorem emit_by_name σ M merged m0 (pre post : list node_id) x :
  merged !! 0 = Some m0 →
  (∀ y merged', y ∈ post → M !! name (deref σ y) = Some merged' →
                merged' = merged) →
  Forall (λ y, name (deref σ y) ∉ dom M) pre →
  M !! name (deref σ x) = Some merged →
  foldM (emit σ M) (pre ++ x :: post) ([], [])
  = Ok (pre ++ merged ++ filter (λ y, name (deref σ y) ∉ dom M) post, [m0]).
Proof.
  intros Hm Hpost Hpre Hx.
  rewrite foldM_app, foldM_emit_unmerged; last first.
  { eapply Forall_impl; [exact Hpre|]. intros y Hy. by apply not_elem_of_dom. }
  cbn [mbind result_bind foldM app].
  rewrite (emit_first _ _ _ _ _ _ _ Hx Hm) by apply not_elem_of_nil.
  cbn [mbind result_bind app].
  rewrite (foldM_emit_recorded _ _ merged m0) by (done || by left).
  by rewrite <-app_assoc.
Qed.
End EmitByName.

(** Four nodes without names, two of them fused into the second: the
    second loop returns the second node alone. *)
Lemma emit_by_name_witness :
  foldM (NodesFuserCall.emit PassExamples.un_heap {["" := [1]]})
        [0; 1; 2; 3] ([], [])
  = Ok ([1], [1]).
Proof.
  change [0; 1; 2; 3] with ([] ++ 0 :: [1; 2; 3]).
  rewrite (emit_by_name PassExamples.un_heap {["" := [1]]} [1] 1
             [] [1; 2; 3] 0).
  - vm_compute. reflexivity.
  - reflexivity.
  - intros y merged' Hy%list_elem_of_In. vm_compute in Hy.
    destruct Hy as [<-|[<-|[<-|[]]]]; vm_compute; congruence.
  - apply Forall_nil_2.
  - reflexivity.
Defined.

(** ** The window of a node *)

Section WindowChain.
Context {R : Type}.
Implicit Types (σ : gmap node_id (Node R)) (n : node_id).

(** The window the driver finds for a node and a rule over [k] nodes is a
    strictly linear chain of [k] nodes that ends in the node, and every
    such chain is found: each node of the window but the first has the
    node before it as its only parent, and that parent has one child.  A
    rule over a single node has no window at all; a rule over no node has
    the empty window at every node. *)
Theorem window_is_linear_chain σ k n (w : list node_id) :
  NodesFuser.find_window σ k n = Ok (Some w) ↔
  length w = k ∧ chain σ w ∧ (k = 0 ∨ 2 ≤ k ∧ last w = Some n).
Proof. apply find_window_chain. Qed.
End WindowChain.

(** ** The checks of the Conv-Add rule *)

Section ConvAddEligibility.
Context {R : Type} `{!ElemOps R}.
Implicit Types (σ : gmap node_id (Node R)) (p d : node_id).

(** The check of the Conv-Add rule never raises, and answers true exactly
    for a Conv followed by an Add with broadcast 1 on axis 1, whatever the
    inputs of the two nodes are. *)
Theorem conv_add_is_eligible_spec (g : Graph) σ p d :
  ∃ r, ConvAddFuser.is_eligible σ g [p; d] = Ok r
       ∧ (r = true ↔
          op_type (deref σ p) = "Conv"
          ∧ op_type (deref σ d) = "Add"
          ∧ attrs (deref σ d) !! "broadcast" = Some (AInt 1)
          ∧ attrs (deref σ d) !! "axis" = Some (AInt 1)).
Proof.
  unfold ConvAddFuser.is_eligible, getitem, index.
  cbn [lookup list_lookup mbind result_bind].
  case_decide as H1; [exists false; split; [done|]; split; [done|tauto]|].
  case_decide as H2; [exists false; split; [done|]; split; [done|tauto]|].
  destruct (attrs (deref σ d) !! "broadcast") as [br|] eqn:Hbr; last first.
  { rewrite decide_True by done. exists false.
    split; [done|]. split; [done|]. by intros (_ & _ & ? & _). }
  rewrite decide_False by done.
  destruct (attrs (deref σ d) !! "axis") as [ax|] eqn:Hax; last first.
  { rewrite decide_True by done. exists false.
    split; [done|]. split; [done|]. by intros (_ & _ & _ & ?). }
  rewrite decide_False by done. cbn [mbind result_bind].
  case_decide as H3.
  { exists false. split; [done|]. split; [done|].
    intros (_ & _ & [= ?] & _). done. }
  case_decide as H4.
  { exists false. split; [done|]. split; [done|].
    intros (_ & _ & _ & [= ?]). done. }
  exists true. subst. by split_and!.
Qed.
End ConvAddEligibility.

(** ** The edge names of the pixel-shuffle rule *)

Section EdgeNames.
Context {R : Type}.
Variable unique_edge_name : gmap node_id (Node R) → Graph → string → string.
Import PixelShuffleFuser.

Lemma str_inj (a b : nat) : str a = str b → a = b.
Proof.
  unfold str. intros H.
  apply (f_equal NilEmpty.uint_of_string) in H.
  rewrite !NilEmpty.usu in H. injection H as H.
  apply (f_equal Nat.of_uint) in H.
  by rewrite !DecimalNat.Unsigned.of_to in H.
Qed.

(** Every request for an edge name advances the counter of the rule by
    one and leaves the nodes alone.  With a generator that gives different
    names for different requests, two requests for one base name at
    different values of the counter give different names, and so do a
    request for a Transpose output and one for a Reshape output. *)
Theorem edge_names_differ (g : Graph) :
  (∀ σ1 σ2 a b,
     unique_edge_name σ1 g a = unique_edge_name σ2 g b → a = b) →
  (∀ nm st st',
     num_added st ≠ num_added st' →
     (get_unique_edge_name unique_edge_name g nm st).1
     ≠ (get_unique_edge_name unique_edge_name g nm st').1)
  ∧ (∀ st st',
       (get_unique_edge_name unique_edge_name g
          "pixel_shuffle_transpose" st).1
       ≠ (get_unique_edge_name unique_edge_name g
            "pixel_shuffle_reshape" st').1)
  ∧ (∀ nm st,
       num_added (get_unique_edge_name unique_edge_name g nm st).2
       = S (num_added st)
       ∧ heap (get_unique_edge_name unique_edge_name g nm st).2 = heap st).
Proof.
  intros Hinj. unfold get_unique_edge_name. cbn [fst snd heap num_added].
  split_and!; [| |done].
  - intros nm st st' Hne Heq. apply Hinj in Heq.
    apply String.app_inj in Heq. apply String.app_inj in Heq.
    apply str_inj in Heq. congruence.
  - intros st st' Heq. apply Hinj in Heq.
    apply (f_equal (String.get 14)) in Heq. cbn in Heq. discriminate.
Qed.
End EdgeNames.

(** The generator that returns the name asked for. *)
Lemma edge_names_differ_witness :
  (PixelShuffleFuser.get_unique_edge_name Examples.same_name
     Examples.ps_graph "pixel_shuffle_transpose"
     (mkFstate (Examples.ps_heap 1) 0)).1
  ≠ (PixelShuffleFuser.get_unique_edge_name Examples.same_name
       Examples.ps_graph "pixel_shuffle_transpose"
       (mkFstate (Examples.ps_heap 1) 2)).1.
Proof.
  refine (proj1 (edge_names_differ Examples.same_name Examples.ps_graph _)
            _ _ _ _).
  - intros σ1 σ2 a b H. exact H.
  - cbn. lia.
Defined.

(** ** The failures of the Conv-Add merge *)

Section ConvAddErrors.
Context {R : Type} `{!ElemOps R}.
Implicit Types (σ : gmap node_id (Node R)) (p d : node_id).
Import ConvAddFuser.

Lemma index_None {A} (l : list A) i :
  length l ≤ i → index l i = Raise IndexError.
Proof. intros Hl. unfold index. by rewrite (proj2 (lookup_ge_None _ _)). Qed.

Lemma getitem_None {V} (m : gmap string V) k :
  m !! k = None → getitem m k = Raise KeyError.
Proof. unfold getitem. by intros ->. Qed.

(** The merge of a window [p; d] fails, in this order of the tests: with
    [IndexError] when the Conv has fewer than two inputs; with [KeyError]
    when its second input is no literal; with [IndexError] when that
    literal has no dimension; with [KeyError] when the Conv has more than
    two inputs and the third is no literal; with [IndexError] when the Add
    has fewer than two inputs; with [KeyError] when the second input of
    the Add is no literal; with the error of the addition when the bias and
    that literal do not broadcast.  The check of the rule tests none of
    these. *)
Theorem conv_add_merge_errors (g : Graph) σ p d :
  p ≠ d →
  (length (inputs (deref σ p)) < 2 → merge g [p; d] σ = Raise IndexError)
  ∧ ∀ wn, inputs (deref σ p) !! 1 = Some wn →
    (input_tensors (deref σ p) !! wn = None →
     merge g [p; d] σ = Raise KeyError)
    ∧ ∀ weight, input_tensors (deref σ p) !! wn = Some weight →
      (t_shape weight = [] → merge g [p; d] σ = Raise IndexError)
      ∧ ∀ oc rest, t_shape weight = oc :: rest →
        (∀ bn, inputs (deref σ p) !! 2 = Some bn →
               input_tensors (deref σ p) !! bn = None →
               merge g [p; d] σ = Raise KeyError)
        ∧ ∀ nm bias σ1, bias_of p oc σ = Ok (nm, bias, σ1) →
          (length (inputs (deref σ d)) < 2 →
           merge g [p; d] σ = Raise IndexError)
          ∧ ∀ on, inputs (deref σ d) !! 1 = Some on →
            (input_tensors (deref σ d) !! on = None →
             merge g [p; d] σ = Raise KeyError)
            ∧ ∀ b e, input_tensors (deref σ d) !! on = Some b →
                     np_add bias b = Raise e →
                     merge g [p; d] σ = Raise e.
Proof.
  intros Hne. unfold merge.
  cbn [index lookup list_lookup mbind result_bind].
  split.
  { intros Hl. by rewrite index_None by lia. }
  intros wn Hwn. rewrite (index_Some _ _ _ Hwn). cbn [mbind result_bind].
  split.
  { intros Hw. by rewrite getitem_None. }
  intros weight Hw. rewrite (getitem_Some _ _ _ Hw). cbn [mbind result_bind].
  split.
  { intros Hs. by rewrite Hs. }
  intros oc rest Hs. rewrite Hs.
  cbn [index lookup list_lookup mbind result_bind].
  split.
  { intros bn Hbn Hb. unfold bias_of.
    rewrite decide_True by (by apply lookup_lt_Some in Hbn).
    rewrite (index_Some _ _ _ Hbn). cbn [mbind result_bind].
    by rewrite getitem_None. }
  intros nm bias σ1 Hbias.
  assert (Hd1 : deref σ1 d = deref σ d).
  { unfold bias_of in Hbias. case_decide.
    - destruct (index _ 2); [|done]. cbn [mbind result_bind] in Hbias.
      destruct (getitem _ _); [|done]. by injection Hbias as _ _ <-.
    - injection Hbias as _ _ <-. by rewrite !deref_update_ne. }
  rewrite Hbias. cbn [mbind result_bind]. rewrite Hd1.
  split.
  { intros Hl. by rewrite index_None by lia. }
  intros on Hon. rewrite (index_Some _ _ _ Hon). cbn [mbind result_bind].
  split.
  { intros Hb. by rewrite getitem_None. }
  intros b e Hb He. rewrite (getitem_Some _ _ _ Hb). cbn [mbind result_bind].
  by rewrite He.
Qed.
End ConvAddErrors.

(** The window of claim C10's graph, where the operand of the Add is a
    graph input. *)
Lemma conv_add_merge_errors_witness :
  ConvAddFuser.merge Examples.ca_graph_input [0; 1] Examples.ca_heap_input
  = Raise KeyError.
Proof.
  destruct (conv_add_merge_errors Examples.ca_graph_input
              Examples.ca_heap_input 0 1) as [_ H]; [lia|].
  destruct (H "weight") as [_ H1]; [reflexivity|].
  destruct (H1 Examples.ca_weight) as [_ H2]; [reflexivity|].
  destruct (H2 2 [1; 1; 1]) as [_ H3]; [reflexivity|].
  destruct (H3 "conv_bias" (np_zeros 2)
              (update 0 (λ x, set_input_tensors
                                (<["conv_bias" := np_zeros 2]>
                                   (input_tensors x)) x)
                 (update 0 (λ x, set_inputs (inputs x ++ ["conv_bias"]) x)
                    Examples.ca_heap_input))) as [_ H4]; [reflexivity|].
  destruct (H4 "input1") as [H5 _]; [reflexivity|].
  apply H5. reflexivity.
Defined.

(** ** The pixel-shuffle rule in a pass *)

Section PixelShuffleFrame.
Context {R : Type}.
Variable unique_edge_name : gmap node_id (Node R) → Graph → string → string.
Implicit Types (σ : gmap node_id (Node R)).
Import PixelShuffleFuser.

End PixelShuffleFrame.

Section PixelShufflePass.
Context {R : Type}.
Variable unique_edge_name : gmap node_id (Node R) → Graph → string → string.
Implicit Types (σ : gmap node_id (Node R)).
Import NodesFuserCall.




End PixelShufflePass.


